(** * Provider selection, fallback and adapter helpers of the image-prompt backend

    A shallow embedding of the provider manager (selection scorer, fallback
    orchestrator, metrics) and of the helpers of the adapter base class
    (error classification, retry with backoff, size standardisation, prompt
    truncation), followed by the properties the specification states about
    them.

    Conventions of the embedding.
    - A JavaScript [number] is an exact rational ([Q]); rounding of IEEE
      doubles, [NaN] and the infinities are not represented.  An optional
      field ([x?: T]) is an [option].
    - A JavaScript string is a [string]; [length] counts its characters.
    - [async] code is sequential here: every [await] is a plain call.  The
      remote services (vendor endpoints, Redis, the clock) are oracles
      carried by the adapters and by the [World] the code runs in.
    - Effects are explicit: the orchestrator runs in a small state-and-error
      monad whose state is the log of observable events. *)

From Stdlib Require Import QArith Qminmax Qround Qpower ZArith List String Ascii Bool.
From Stdlib Require Import Lia Lqa Permutation Sorted DecimalString.
Import ListNotations.

Open Scope Q_scope.

(** ** Shared types (types/index.ts, baseProvider.ts) *)

Inductive ImageProvider : Set := dalleE3 | imagen4 | stableDiffusion.

Definition ImageProvider_eqb (a b : ImageProvider) : bool :=
  match a, b with
  | dalleE3, dalleE3 | imagen4, imagen4 | stableDiffusion, stableDiffusion => true
  | _, _ => false
  end.

Definition ImageProvider_to_string (p : ImageProvider) : string :=
  match p with
  | dalleE3 => "dalleE3"
  | imagen4 => "imagen4"
  | stableDiffusion => "stableDiffusion"
  end%string.

Inductive Quality : Set := standard | hd.

Record Size : Set := { width : Q; height : Q }.

Record ProviderCapabilities : Set := {
  maxImageSize : Size;
  supportedSizes : list string;
  supportedFormats : list string;
  maxPromptLength : Q;
  supportsNegativePrompts : bool;
  supportsStylePresets : bool;
  maxBatchSize : Q;
  cap_costPerImage : Q
}.

Record UnifiedImageParams : Set := {
  prompt : string;
  negativePrompt : option string;
  p_width : option Q;
  p_height : option Q;
  quality : option Quality;
  style : option string;
  count : option Q;
  seed : option Q;
  provider : option ImageProvider
}.

Record CostEstimate : Set := {
  totalCost : Q;
  costPerImage : Q;
  breakdown : list (string * Q)
}.

(** JavaScript truthiness of an optional number: [undefined] and [0] are
    falsy. *)
Definition truthyQ (x : option Q) : bool :=
  match x with
  | Some q => negb (Qeq_bool q 0)
  | None => false
  end.

(** [x || d] on an optional number. *)
Definition orQ (x : option Q) (d : Q) : Q :=
  match x with
  | Some q => if Qeq_bool q 0 then d else q
  | None => d
  end.

Definition isWhiteSpace (c : ascii) : bool :=
  let n := nat_of_ascii c in
  ((9 <=? n) && (n <=? 13) || (n =? 32))%nat.

(** [s.trim().length === 0]: every character is white space. *)
Fixpoint isBlank (s : string) : bool :=
  match s with
  | EmptyString => true
  | String c rest => isWhiteSpace c && isBlank rest
  end.

(** Truthiness of an optional string: [undefined] and the empty string are
    falsy. *)
Definition truthyS (x : option string) : bool :=
  match x with
  | Some (String _ _) => true
  | _ => false
  end.

Definition strlen (s : string) : Q := inject_Z (Z.of_nat (String.length s)).

(** [errors.join(sep)] *)
Fixpoint join (sep : string) (l : list string) : string :=
  match l with
  | [] => EmptyString
  | [x] => x
  | x :: rest => (x ++ sep ++ join sep rest)%string
  end.

(** [`${n}`] for a number that holds an integer. *)
Definition number_to_string (n : Q) : string :=
  NilZero.string_of_int (Z.to_int (Qfloor n)).

(** [n % 64 !== 0] *)
Definition notDivisibleBy64 (n : Q) : bool :=
  negb (Qeq_bool (inject_Z (Qfloor (n / 64)) * 64) n).

(** [Math.round]: the nearest integer, halves going up. *)
Definition Math_round (x : Q) : Z := Qfloor (x + (1 # 2)).

Definition Math_ceil (x : Q) : Z := Qceiling x.

(** ** BaseImageProvider.standardizeImageSize *)

Definition defaultSize : Q := 1024.

Definition roundTo64 (value : Q) : Q := inject_Z (Math_round (value / 64)) * 64.

Definition standardizeDimension (d : option Q) : Q :=
  match d with
  | Some v =>
      if Qeq_bool v 0 then defaultSize
      else roundTo64 (Qmax 256 (Qmin 2048 v))
  | None => defaultSize
  end.

Definition standardizeImageSize (w h : option Q) : Size :=
  {| width := standardizeDimension w; height := standardizeDimension h |}.

(** ** Provider manager: configuration *)

Record ProviderConfig : Set := {
  enabled : bool;
  priority : Q;
  maxRetries : Q;
  healthCheckInterval : Q;
  costWeight : Q;
  qualityWeight : Q;
  speedWeight : Q
}.

Definition defaultConfig : ProviderConfig :=
  {| enabled := true; priority := 1; maxRetries := 3;
     healthCheckInterval := 300000;
     costWeight := 0.4; qualityWeight := 0.4; speedWeight := 0.2 |}.

(** The map built by [initializeDefaultConfig]: it holds an entry for each of
    the three names, whether or not the adapter is registered. *)
Definition initializeDefaultConfig (p : ImageProvider) : ProviderConfig :=
  match p with
  | dalleE3 =>
      {| enabled := enabled defaultConfig; priority := 2;
         maxRetries := maxRetries defaultConfig;
         healthCheckInterval := healthCheckInterval defaultConfig;
         costWeight := 0.3; qualityWeight := 0.5; speedWeight := 0.2 |}
  | imagen4 =>
      {| enabled := enabled defaultConfig; priority := 1;
         maxRetries := maxRetries defaultConfig;
         healthCheckInterval := healthCheckInterval defaultConfig;
         costWeight := 0.4; qualityWeight := 0.4; speedWeight := 0.2 |}
  | stableDiffusion =>
      {| enabled := enabled defaultConfig; priority := 3;
         maxRetries := maxRetries defaultConfig;
         healthCheckInterval := healthCheckInterval defaultConfig;
         costWeight := 0.6; qualityWeight := 0.3; speedWeight := 0.1 |}
  end.

(** ** Selection scorer: ProviderManager.calculateProviderScore

    The scorer receives the capabilities as [any] and reads a [name] property
    from them, both for the speed table and for the health lookup.  The
    [ProviderCapabilities] interface declares no such property and none of the
    three [getCapabilities] sets one, so the manager always passes an object
    whose [name] is [undefined]: [fromAdapter] below. *)

Record AnyCapabilities : Set := {
  name : option ImageProvider;
  caps : ProviderCapabilities
}.

Definition fromAdapter (c : ProviderCapabilities) : AnyCapabilities :=
  {| name := None; caps := c |}.

Definition HealthStatus : Set := ImageProvider -> option bool.

(** [healthStatus.get(key)], where the key may be [undefined]. *)
Definition healthStatus_get (hs : HealthStatus) (key : option ImageProvider) : option bool :=
  match key with
  | Some p => hs p
  | None => None
  end.

(** Truthiness of the looked-up flag: [undefined] and [false] are falsy. *)
Definition truthyB (x : option bool) : bool :=
  match x with
  | Some b => b
  | None => false
  end.

Definition speedScores (p : ImageProvider) : Q :=
  match p with
  | stableDiffusion => 0.6
  | dalleE3 => 0.8
  | imagen4 => 0.7
  end.

Definition maxCost : Q := 0.20.

Definition costScore (cost : CostEstimate) : Q :=
  Qmax 0 ((maxCost - costPerImage cost) / maxCost).

Definition qualityScore (c : ProviderCapabilities) : Q :=
  0.5
  + (if Qle_bool 1024 (width (maxImageSize c)) then 0.2 else 0)
  + (if supportsNegativePrompts c then 0.1 else 0)
  + (if supportsStylePresets c then 0.1 else 0)
  + (if Qle_bool 2000 (maxPromptLength c) then 0.1 else 0).

Definition speedScore (capabilities : AnyCapabilities) : Q :=
  match name capabilities with
  | Some p => speedScores p
  | None => 0.5
  end.

(** The score before the health penalty and the final clamp. *)
Definition weightedScore (capabilities : AnyCapabilities) (cost : CostEstimate)
    (config : ProviderConfig) : Q :=
  0
  + costScore cost * costWeight config
  + Qmin (qualityScore (caps capabilities)) 1.0 * qualityWeight config
  + speedScore capabilities * speedWeight config
  + priority config * 0.1.

Definition calculateProviderScore (hs : HealthStatus) (params : UnifiedImageParams)
    (capabilities : AnyCapabilities) (cost : CostEstimate) (config : ProviderConfig) : Q :=
  let score := weightedScore capabilities cost config in
  let score :=
    if negb (truthyB (healthStatus_get hs (name capabilities)))
    then score * 0.5 else score in
  Qmin score 1.0.

(** ** BaseImageProvider.truncatePrompt *)

Definition space : ascii := " "%char.

(** [s.lastIndexOf(c)]: the greatest index holding [c], or [-1]. *)
Fixpoint lastIndexOf (c : ascii) (s : string) : Z :=
  match s with
  | EmptyString => (-1)%Z
  | String a rest =>
      let k := lastIndexOf c rest in
      if (0 <=? k)%Z then (k + 1)%Z
      else if Ascii.eqb a c then 0%Z else (-1)%Z
  end.

(** The limit is a character count, so it is a natural number here. *)
Definition truncatePrompt (prompt : string) (maxLength : nat) : string :=
  if (String.length prompt <=? maxLength)%nat then prompt
  else
    let truncated := substring 0 maxLength prompt in
    let lastSpace := lastIndexOf space truncated in
    if (0 <? lastSpace)%Z then substring 0 (Z.to_nat lastSpace) truncated
    else truncated.

(** ** BaseImageProvider.mapError *)

(** The part of a thrown value that the code inspects: [error.message] and,
    for HTTP failures, [error.response] with its status, its [retry-after]
    header and the vendor's [data.error.message]. *)
Record HttpResponse : Set := {
  status : Z;
  retry_after : option string;
  data_error_message : option string
}.

Record JsError : Set := {
  message : option string;
  response : option HttpResponse
}.

(** [new Error(msg)] *)
Definition Error (msg : string) : JsError :=
  {| message := Some msg; response := None |}.

(** The value of [parseInt]: an integer or [NaN]. *)
Inductive IntOrNaN : Set := IsNaN | IsInt (z : Z).

Record ProviderError : Set := {
  code : string;
  pe_message : string;
  retryable : bool;
  retryAfter : option IntOrNaN
}.

Fixpoint skipWhiteSpace (s : string) : string :=
  match s with
  | String c rest => if isWhiteSpace c then skipWhiteSpace rest else s
  | EmptyString => s
  end.

Definition digitValue (radix : Z) (c : ascii) : option Z :=
  let n := Z.of_nat (nat_of_ascii c) in
  let v :=
    if ((48 <=? n) && (n <=? 57))%Z then Some (n - 48)%Z
    else if ((97 <=? n) && (n <=? 122))%Z then Some (n - 87)%Z
    else if ((65 <=? n) && (n <=? 90))%Z then Some (n - 55)%Z
    else None in
  match v with
  | Some d => if (d <? radix)%Z then Some d else None
  | None => None
  end.

(** Reads the longest run of digits; [acc] is [None] until a digit is seen. *)
Fixpoint parseDigits (radix : Z) (s : string) (acc : option Z) : option Z :=
  match s with
  | String c rest =>
      match digitValue radix c with
      | Some d =>
          parseDigits radix rest
            (Some (match acc with Some a => a * radix + d | None => d end)%Z)
      | None => acc
      end
  | EmptyString => acc
  end.

(** [parseInt(s)] without a radix: leading white space, an optional sign, an
    optional [0x] prefix, then digits; [NaN] when there is no digit. *)
Definition parseInt (s : string) : IntOrNaN :=
  let s := skipWhiteSpace s in
  let '(sign, s) :=
    match s with
    | String "-" rest => ((-1)%Z, rest)
    | String "+" rest => (1%Z, rest)
    | _ => (1%Z, s)
    end in
  let '(radix, s) :=
    match s with
    | String "0" (String "x" rest) => (16%Z, rest)
    | String "0" (String "X" rest) => (16%Z, rest)
    | _ => (10%Z, s)
    end in
  match parseDigits radix s None with
  | Some n => IsInt (sign * n)
  | None => IsNaN
  end.

(** [a || b] on optional strings: [undefined] and the empty string are falsy. *)
Definition orString (a : option string) (b : string) : string :=
  match a with
  | Some EmptyString | None => b
  | Some s => s
  end.

Definition response_status (error : JsError) : option Z :=
  option_map status (response error).

Definition status_is (error : JsError) (n : Z) : bool :=
  match response_status error with
  | Some s => (s =? n)%Z
  | None => false
  end.

Definition status_ge (error : JsError) (n : Z) : bool :=
  match response_status error with
  | Some s => (n <=? s)%Z
  | None => false
  end.

Definition mapError (error : JsError) : ProviderError :=
  let baseError :=
    {| code := "UNKNOWN_ERROR";
       pe_message := orString (message error) "Unknown error occurred";
       retryable := false;
       retryAfter := None |} in
  if status_is error 429 then
    {| code := "RATE_LIMIT_EXCEEDED";
       pe_message := "Rate limit exceeded";
       retryable := true;
       retryAfter :=
         Some (parseInt (orString
                 (match response error with
                  | Some r => retry_after r
                  | None => None
                  end) "60")) |}
  else if status_ge error 500 then
    {| code := "SERVER_ERROR";
       pe_message := "Provider server error";
       retryable := true;
       retryAfter := None |}
  else if status_is error 400 then
    {| code := "INVALID_REQUEST";
       pe_message :=
         orString
           (match response error with
            | Some r => data_error_message r
            | None => None
            end) "Invalid request parameters";
       retryable := false;
       retryAfter := None |}
  else if status_is error 401 then
    {| code := "UNAUTHORIZED";
       pe_message := "Invalid API key or authentication failed";
       retryable := false;
       retryAfter := None |}
  else baseError.

(** ** BaseImageProvider.retryWithBackoff *)

(** What a run of the retry loop does, in order: invocations of the operation
    (numbered from 1) and timer waits (in milliseconds). *)
Inductive RetryEvent : Set :=
| Attempt (n : nat)
| Wait (ms : Q).

(** [retryAfter ? retryAfter * 1000 : baseDelay * Math.pow(2, attempt - 1)];
    [undefined], [NaN] and [0] are falsy. *)
Definition backoffDelay (providerError : ProviderError) (baseDelay : Q) (attempt : nat) : Q :=
  match retryAfter providerError with
  | Some (IsInt z) =>
      if (z =? 0)%Z then baseDelay * 2 ^ (Z.of_nat attempt - 1)
      else inject_Z z * 1000
  | _ => baseDelay * 2 ^ (Z.of_nat attempt - 1)
  end.

Section Retry.

Variable T : Type.

(** The operation is called once per attempt; [operation n] is the outcome of
    its [n]-th call. *)
Variable operation : nat -> JsError + T.
Variable maxRetries : nat.
Variable baseDelay : Q.

(** The [for] loop: [remaining] iterations are left, starting at [attempt]. *)
Fixpoint retryLoop (remaining attempt : nat) : list RetryEvent * (JsError + T) :=
  match remaining with
  | O => ([], inl (Error "Max retries exceeded"))
  | S remaining' =>
      match operation attempt with
      | inr v => ([Attempt attempt], inr v)
      | inl error =>
          let providerError := mapError error in
          if negb (retryable providerError) || (attempt =? maxRetries)%nat
          then ([Attempt attempt], inl error)
          else
            let delay := backoffDelay providerError baseDelay attempt in
            let '(evs, r) := retryLoop remaining' (S attempt) in
            (Attempt attempt :: Wait delay :: evs, r)
      end
  end.

Definition retryWithBackoff : list RetryEvent * (JsError + T) :=
  retryLoop maxRetries 1.

End Retry.

Arguments retryLoop {T}.
Arguments retryWithBackoff {T}.

(** The defaults of the declaration: [maxRetries = 3], [baseDelay = 1000]. *)
Definition retryWithBackoff_default {T : Type} (operation : nat -> JsError + T) :=
  retryWithBackoff operation 3 1000.

(** ** Results, adapters and the manager's state *)

Record ImageResult : Set := {
  id : string;
  imageUrl : string;
  meta_provider : ImageProvider;
  meta_generationTime : Z;
  meta_cost : Q
}.

(** The abstract class [BaseImageProvider], as the manager uses it.  For the
    request at hand [generateImage] either throws or returns a result, and
    takes [latency] milliseconds; the vendor behind it is opaque. *)
Record BaseImageProvider : Type := {
  getName : ImageProvider;
  generateImage : UnifiedImageParams -> JsError + ImageResult;
  latency : Z;
  validateParams : UnifiedImageParams -> bool;
  getCapabilities : ProviderCapabilities;
  estimateCost : UnifiedImageParams -> CostEstimate;
  checkHealth : bool
}.

(** The maps of [ProviderManager] that a request reads ([lastHealthCheck]
    belongs to the health monitor).  [providers] keeps the insertion order
    of the JavaScript [Map], which is the order of iteration; [config] has
    an entry for each of the three names. *)
Record ProviderManager : Type := {
  providers : list (ImageProvider * BaseImageProvider);
  config : ImageProvider -> ProviderConfig;
  healthStatus : HealthStatus
}.

Fixpoint providers_get (l : list (ImageProvider * BaseImageProvider)) (p : ImageProvider)
    : option BaseImageProvider :=
  match l with
  | [] => None
  | (k, v) :: rest => if ImageProvider_eqb k p then Some v else providers_get rest p
  end.

Definition providers_has (l : list (ImageProvider * BaseImageProvider)) (p : ImageProvider) : bool :=
  match providers_get l p with Some _ => true | None => false end.

Definition isProviderAvailable (m : ProviderManager) (p : ImageProvider) : bool :=
  providers_has (providers m) p
  && Bool.eqb (enabled (config m p)) true
  && match healthStatus m p with Some true => true | _ => false end.

Definition set_enabled (b : bool) (c : ProviderConfig) : ProviderConfig :=
  {| enabled := b; priority := priority c; maxRetries := maxRetries c;
     healthCheckInterval := healthCheckInterval c;
     costWeight := costWeight c; qualityWeight := qualityWeight c;
     speedWeight := speedWeight c |}.

Definition update_config (m : ProviderManager) (p : ImageProvider) (b : bool) : ProviderManager :=
  {| providers := providers m;
     config := fun q => if ImageProvider_eqb q p then set_enabled b (config m q) else config m q;
     healthStatus := healthStatus m |}.

Definition enableProvider (m : ProviderManager) (p : ImageProvider) : ProviderManager :=
  update_config m p true.

Definition disableProvider (m : ProviderManager) (p : ImageProvider) : ProviderManager :=
  update_config m p false.

Definition getAvailableProviders (m : ProviderManager) : list ImageProvider :=
  filter (isProviderAvailable m) (map fst (providers m)).

(** ** Observable events and the monad of the orchestrator *)

Record Metrics : Set := {
  m_provider : string;
  m_success : bool;
  m_duration : Z;
  m_cost : option Q;
  m_timestamp : Z
}.

Inductive Event : Type :=
| EvValidate (p : ImageProvider)
| EvScore (p : ImageProvider)
| EvGenerate (p : ImageProvider) (failure : option JsError)
| EvCacheSet (key : string) (value : Metrics) (ttl : Z) (stored : bool).

(** The state threaded through a request: the events so far (latest last),
    the clock read by [Date.now()], and whether Redis accepts writes. *)
Record World : Type := {
  log : list Event;
  now : Z;
  redisUp : bool
}.

Inductive Outcome (A : Type) : Type :=
| Returned (a : A)
| Thrown (e : JsError).

Arguments Returned {A}.
Arguments Thrown {A}.

Definition M (A : Type) : Type := World -> Outcome A * World.

Definition ret {A} (a : A) : M A := fun w => (Returned a, w).

Definition bind {A B} (c : M A) (k : A -> M B) : M B :=
  fun w =>
    match c w with
    | (Returned a, w') => k a w'
    | (Thrown e, w') => (Thrown e, w')
    end.

Definition throw {A} (e : JsError) : M A := fun w => (Thrown e, w).

(** [try { c } catch (error) { h error }] *)
Definition tryCatch {A} (c : M A) (h : JsError -> M A) : M A :=
  fun w =>
    match c w with
    | (Returned a, w') => (Returned a, w')
    | (Thrown e, w') => h e w'
    end.

Definition emit (ev : Event) : M unit :=
  fun w => (Returned tt, {| log := log w ++ [ev]; now := now w; redisUp := redisUp w |}).

Definition Date_now : M Z := fun w => (Returned (now w), w).

Definition sleep (ms : Z) : M unit :=
  fun w => (Returned tt, {| log := log w; now := (now w + ms)%Z; redisUp := redisUp w |}).

Definition redis_setEx_ok : M bool := fun w => (Returned (redisUp w), w).

Declare Scope monad_scope.
Delimit Scope monad_scope with monad.

Notation "x <- c1 ;; c2" := (bind c1 (fun x => c2))
  (at level 61, c1 at next level, right associativity) : monad_scope.
Notation "c1 ;;; c2" := (bind c1 (fun _ => c2))
  (at level 61, right associativity) : monad_scope.

Open Scope monad_scope.

(** Calls on an adapter, with their events. *)
Definition call_validateParams (a : BaseImageProvider) (name : ImageProvider)
    (params : UnifiedImageParams) : M bool :=
  emit (EvValidate name) ;;;
  ret (validateParams a params).

Definition call_generateImage (a : BaseImageProvider) (name : ImageProvider)
    (params : UnifiedImageParams) : M ImageResult :=
  sleep (latency a) ;;;
  match generateImage a params with
  | inr result => emit (EvGenerate name None) ;;; ret result
  | inl error => emit (EvGenerate name (Some error)) ;;; throw error
  end.

(** ** CacheService.set

    The write either succeeds or throws inside the [try]; the [catch]
    turns the failure into [false].  The manager always passes a [ttl]. *)

Definition cache_set (key : string) (value : Metrics) (ttl : Z) : M bool :=
  tryCatch
    (ok <- redis_setEx_ok ;;
     if ok then emit (EvCacheSet key value ttl true) ;;; ret true
     else throw (Error "Redis write failed"))
    (fun _ => emit (EvCacheSet key value ttl false) ;;; ret false).

(** ** Array.prototype.sort with a numeric comparator

    The engine's sort is stable; for a comparator that is a difference of
    numbers every stable sort gives the same array, here by insertion.
    [compareFn a b > 0] puts [a] after [b]. *)

Section Sort.

Variable A : Type.
Variable compareFn : A -> A -> Q.

Fixpoint sort_insert (x : A) (l : list A) : list A :=
  match l with
  | [] => [x]
  | y :: rest =>
      if Qle_bool (compareFn x y) 0 then x :: y :: rest
      else y :: sort_insert x rest
  end.

Fixpoint sort (l : list A) : list A :=
  match l with
  | [] => []
  | x :: rest => sort_insert x (sort rest)
  end.

End Sort.

Arguments sort_insert {A}.
Arguments sort {A}.

Definition Qlt_bool (a b : Q) : bool := negb (Qle_bool b a).

(** ** ProviderManager: selection *)

Module Manager.

Record Candidate : Set := {
  c_provider : ImageProvider;
  score : Q;
  reason : string;
  c_estimatedCost : Q
}.

Record ProviderSelection : Set := {
  sel_provider : ImageProvider;
  sel_reason : string;
  estimatedCost : Q;
  confidence : Q
}.

Definition generateSelectionReason (score : Q) (cost : CostEstimate)
    (capabilities : AnyCapabilities) : string :=
  if Qlt_bool 0.8 score then "Optimal cost/quality balance"
  else if Qlt_bool (costPerImage cost) 0.05 then "Best cost efficiency"
  else if Qle_bool 1024 (width (maxImageSize (caps capabilities)))
       then "High quality capabilities"
  else "Available and suitable".

(** The candidate [evaluateProviders] builds for one registered adapter. *)
Definition candidateFor (m : ProviderManager) (params : UnifiedImageParams)
    (providerName : ImageProvider) (provider : BaseImageProvider) : Candidate :=
  let capabilities := fromAdapter (getCapabilities provider) in
  let costEstimate := estimateCost provider params in
  let config := config m providerName in
  let score :=
    calculateProviderScore (healthStatus m) params capabilities costEstimate config in
  {| c_provider := providerName;
     score := score;
     reason := generateSelectionReason score costEstimate capabilities;
     c_estimatedCost := totalCost costEstimate |}.

(** The loop of [evaluateProviders] over [this.providers.entries()]. *)
Fixpoint evaluateLoop (m : ProviderManager) (params : UnifiedImageParams)
    (entries : list (ImageProvider * BaseImageProvider))
    (candidates : list Candidate) : M (list Candidate) :=
  match entries with
  | [] => ret candidates
  | (providerName, provider) :: rest =>
      if negb (isProviderAvailable m providerName)
      then evaluateLoop m params rest candidates
      else
        valid <- call_validateParams provider providerName params ;;
        if negb valid then evaluateLoop m params rest candidates
        else
          emit (EvScore providerName) ;;;
          evaluateLoop m params rest
            (candidates ++ [candidateFor m params providerName provider])
  end.

Definition evaluateProviders (m : ProviderManager) (params : UnifiedImageParams)
    : M (list Candidate) :=
  evaluateLoop m params (providers m) [].

(** The first half of [selectProvider]: the explicit provider, when the
    request names one that is available and validates. *)
Definition selectExplicit (m : ProviderManager) (params : UnifiedImageParams)
    : M (option ProviderSelection) :=
  match provider params with
  | Some name =>
      if isProviderAvailable m name then
        match providers_get (providers m) name with
        | Some provider =>
            valid <- call_validateParams provider name params ;;
            if valid then
              let cost := estimateCost provider params in
              ret (Some {| sel_provider := name;
                           sel_reason := "User specified";
                           estimatedCost := totalCost cost;
                           confidence := 1.0 |})
            else ret None
        | None => ret None
        end
      else ret None
  | None => ret None
  end.

Definition selectProvider (m : ProviderManager) (params : UnifiedImageParams)
    : M ProviderSelection :=
  explicit <- selectExplicit m params ;;
  match explicit with
  | Some selection => ret selection
  | None =>
      candidates <- evaluateProviders m params ;;
      match candidates with
      | [] => throw (Error "No suitable providers available")
      | first :: _ =>
          let sorted := sort (fun a b => score b - score a) candidates in
          let best := List.hd first sorted in
          ret {| sel_provider := c_provider best;
                 sel_reason := reason best;
                 estimatedCost := c_estimatedCost best;
                 confidence := score best |}
      end
  end.

(** ** ProviderManager: fallback *)

Definition allProviders : list ImageProvider := [dalleE3; imagen4; stableDiffusion].

Definition getFallbackProviders (m : ProviderManager) (excludeProvider : ImageProvider)
    : list ImageProvider :=
  sort (fun a b => priority (config m b) - priority (config m a))
    (filter (fun p => negb (ImageProvider_eqb p excludeProvider)
                      && providers_has (providers m) p)
            allProviders).

(** [`${lastError?.message}`] *)
Definition message_text (e : JsError) : string :=
  match message e with
  | Some s => s
  | None => "undefined"
  end.

(** How one iteration of the fallback loop ends. *)
Inductive Iteration : Type :=
| Continue
| Return (result : ImageResult)
| Caught (error : JsError).

Definition tryFallback (m : ProviderManager) (params : UnifiedImageParams)
    (fallbackName : ImageProvider) : M Iteration :=
  tryCatch
    (match providers_get (providers m) fallbackName with
     | None => ret Continue
     | Some provider =>
         if negb (isProviderAvailable m fallbackName) then ret Continue
         else
           valid <- call_validateParams provider fallbackName params ;;
           if negb valid then ret Continue
           else
             result <- call_generateImage provider fallbackName params ;;
             ret (Return result)
     end)
    (fun error => ret (Caught error)).

Fixpoint fallbackLoop (m : ProviderManager) (params : UnifiedImageParams)
    (fallbackProviders : list ImageProvider) (lastError : JsError) : M ImageResult :=
  match fallbackProviders with
  | [] =>
      throw (Error ("All providers failed. Last error: " ++ message_text lastError))
  | fallbackName :: rest =>
      it <- tryFallback m params fallbackName ;;
      match it with
      | Return result => ret result
      | Continue => fallbackLoop m params rest lastError
      | Caught error => fallbackLoop m params rest error
      end
  end.

Definition generateWithFallback (m : ProviderManager) (primaryProvider : BaseImageProvider)
    (params : UnifiedImageParams) : M ImageResult :=
  first <- tryCatch
             (result <- call_generateImage primaryProvider (getName primaryProvider) params ;;
              ret (inr result : JsError + ImageResult))
             (fun error => ret (inl error)) ;;
  match first with
  | inr result => ret result
  | inl lastError =>
      fallbackLoop m params
        (getFallbackProviders m (getName primaryProvider)) lastError
  end.

(** ** ProviderManager: metrics and the entry point *)

Definition metricsKey (provider : string) (timestamp : Z) : string :=
  "metrics:" ++ provider ++ ":" ++ NilZero.string_of_int (Z.to_int timestamp).

Definition recordSuccess (provider : ImageProvider) (duration : Z) (cost : Q) : M unit :=
  t <- Date_now ;;
  let metrics :=
    {| m_provider := ImageProvider_to_string provider;
       m_success := true;
       m_duration := duration;
       m_cost := Some cost;
       m_timestamp := t |} in
  cache_set (metricsKey (ImageProvider_to_string provider) t) metrics 86400 ;;;
  ret tt.

Definition recordFailure (provider : string) (duration : Z) : M unit :=
  t <- Date_now ;;
  let metrics :=
    {| m_provider := provider;
       m_success := false;
       m_duration := duration;
       m_cost := None;
       m_timestamp := t |} in
  cache_set (metricsKey provider t) metrics 86400 ;;;
  ret tt.

Definition generateImage (m : ProviderManager) (params : UnifiedImageParams)
    : M ImageResult :=
  startTime <- Date_now ;;
  tryCatch
    (selection <- selectProvider m params ;;
     match providers_get (providers m) (sel_provider selection) with
     | None =>
         throw (Error ("Provider " ++ ImageProvider_to_string (sel_provider selection)
                       ++ " not available"))
     | Some provider =>
         result <- generateWithFallback m provider params ;;
         t <- Date_now ;;
         recordSuccess (sel_provider selection) (t - startTime) (meta_cost result) ;;;
         ret result
     end)
    (fun error =>
       t <- Date_now ;;
       let duration := (t - startTime)%Z in
       recordFailure
         (match provider params with
          | Some p => ImageProvider_to_string p
          | None => "unknown"
          end) duration ;;;
       throw error).

End Manager.

(** [if (cond) errors.push(msg)] *)
Definition pushIf (cond : bool) (msg : string) : list string :=
  if cond then [msg] else [].

(** ** The three adapters: capabilities, cost estimates and validation *)

Module Dalle.

Definition getCapabilities : ProviderCapabilities :=
  {| maxImageSize := {| width := 1792; height := 1792 |};
     supportedSizes := ["1024x1024"; "1024x1792"; "1792x1024"]%string;
     supportedFormats := ["png"]%string;
     maxPromptLength := 4000;
     supportsNegativePrompts := false;
     supportsStylePresets := true;
     maxBatchSize := 1;
     cap_costPerImage := 0.04 |}.

Definition is_hd (q : option Quality) : bool :=
  match q with Some hd => true | _ => false end.

Definition estimateCost (params : UnifiedImageParams) : CostEstimate :=
  let sz := standardizeImageSize (p_width params) (p_height params) in
  let isHD := is_hd (quality params) in
  let isLargeSize := Qlt_bool 1024 (width sz) || Qlt_bool 1024 (height sz) in
  let costPerImage :=
    if isHD && negb isLargeSize then 0.08
    else if isLargeSize then (if isHD then 0.12 else 0.08)
    else 0.04 in
  let count := Qmin (orQ (count params) 1) 1 in
  {| totalCost := costPerImage * count;
     costPerImage := costPerImage;
     breakdown :=
       [("baseImages", costPerImage * count);
        ("qualityUpgrade", if isHD then costPerImage * 0.5 * count else 0);
        ("sizeUpgrade", if isLargeSize then costPerImage * 0.25 * count else 0)]%string |}.

Definition validSizes : list string := ["1024x1024"; "1024x1792"; "1792x1024"]%string.

(** The [errors] array of [validateParams]. *)
Definition validationErrors (params : UnifiedImageParams) : list string :=
  let sz := standardizeImageSize (p_width params) (p_height params) in
  let sizeString :=
    (number_to_string (width sz) ++ "x" ++ number_to_string (height sz))%string in
  pushIf (isBlank (prompt params)) "Prompt is required"
  ++ pushIf (4000 <? String.length (prompt params))%nat
       "Prompt exceeds maximum length of 4000 characters"
  ++ pushIf (truthyQ (count params) && Qlt_bool 1 (orQ (count params) 0))
       "DALL-E 3 only supports generating 1 image at a time"
  ++ pushIf (negb (existsb (String.eqb sizeString) validSizes))
       ("Invalid size " ++ sizeString ++ ". Supported sizes: " ++ join ", " validSizes)
  ++ pushIf (truthyS (negativePrompt params))
       "DALL-E 3 does not support negative prompts"
  ++ pushIf (truthyQ (seed params))
       "DALL-E 3 does not support seed parameter".

Definition validateParams (params : UnifiedImageParams) : bool :=
  (List.length (validationErrors params) =? 0)%nat.

End Dalle.

Module Imagen.

Definition getCapabilities : ProviderCapabilities :=
  {| maxImageSize := {| width := 1536; height := 1536 |};
     supportedSizes := ["1:1"; "16:9"; "9:16"; "4:3"; "3:4"]%string;
     supportedFormats := ["png"; "jpeg"]%string;
     maxPromptLength := 2048;
     supportsNegativePrompts := true;
     supportsStylePresets := false;
     maxBatchSize := 4;
     cap_costPerImage := 0.03 |}.

Definition estimateCost (params : UnifiedImageParams) : CostEstimate :=
  let baseCharacterCost := 0.0008 in
  let baseImageCost := 0.03 in
  let promptLength :=
    strlen (prompt params)
    + match negativePrompt params with Some n => strlen n | None => 0 end in
  let characterCost := (promptLength / 1000) * baseCharacterCost in
  let count := Qmin (orQ (count params) 1) 4 in
  let imageCost := baseImageCost * count in
  let totalCost := characterCost + imageCost in
  {| totalCost := totalCost;
     costPerImage := totalCost / count;
     breakdown :=
       [("characterProcessing", characterCost);
        ("imageGeneration", imageCost)]%string |}.

(** [authConfigured]: whether [auth.getClient()] resolves. *)
Definition validationErrors (authConfigured : bool) (params : UnifiedImageParams)
    : list string :=
  pushIf (isBlank (prompt params)) "Prompt is required"
  ++ pushIf (2048 <? String.length (prompt params))%nat
       "Prompt exceeds maximum length of 2048 characters"
  ++ pushIf (match negativePrompt params with
             | Some n => (2048 <? String.length n)%nat
             | None => false
             end)
       "Negative prompt exceeds maximum length of 2048 characters"
  ++ pushIf (truthyQ (count params) && Qlt_bool 4 (orQ (count params) 0))
       "Imagen supports maximum 4 images per request"
  ++ pushIf (truthyQ (seed params))
       "Imagen does not support seed parameter"
  ++ pushIf (negb authConfigured)
       "Google Cloud authentication not configured properly".

Definition validateParams (authConfigured : bool) (params : UnifiedImageParams) : bool :=
  (List.length (validationErrors authConfigured params) =? 0)%nat.

End Imagen.

Module StableDiffusion.

Definition getCapabilities : ProviderCapabilities :=
  {| maxImageSize := {| width := 2048; height := 2048 |};
     supportedSizes :=
       ["512x512"; "768x768"; "1024x1024"; "1536x1536"; "2048x2048"]%string;
     supportedFormats := ["png"]%string;
     maxPromptLength := 2000;
     supportsNegativePrompts := true;
     supportsStylePresets := true;
     maxBatchSize := 10;
     cap_costPerImage := 0.02 |}.

Definition estimateCost (params : UnifiedImageParams) : CostEstimate :=
  let sz := standardizeImageSize (p_width params) (p_height params) in
  let pixelCount := width sz * height sz in
  let creditsPerImage :=
    if Qlt_bool (512 * 512) pixelCount
    then inject_Z (Math_ceil (10 * (pixelCount / (512 * 512))))
    else 10 in
  let costPerCredit := 0.002 in
  let costPerImage := creditsPerImage * costPerCredit in
  let count := Qmin (orQ (count params) 1) 10 in
  let totalCost := costPerImage * count in
  {| totalCost := totalCost;
     costPerImage := costPerImage;
     breakdown :=
       [("credits", creditsPerImage * count);
        ("baseGeneration", costPerImage * count)]%string |}.

Definition validationErrors (params : UnifiedImageParams) : list string :=
  let sz := standardizeImageSize (p_width params) (p_height params) in
  pushIf (isBlank (prompt params)) "Prompt is required"
  ++ pushIf (2000 <? String.length (prompt params))%nat
       "Prompt exceeds maximum length of 2000 characters"
  ++ pushIf (match negativePrompt params with
             | Some n => (2000 <? String.length n)%nat
             | None => false
             end)
       "Negative prompt exceeds maximum length of 2000 characters"
  ++ pushIf (truthyQ (count params) && Qlt_bool 10 (orQ (count params) 0))
       "Stability AI supports maximum 10 images per request"
  ++ pushIf (Qlt_bool (width sz) 128 || Qlt_bool (height sz) 128)
       "Minimum image size is 128x128"
  ++ pushIf (Qlt_bool 2048 (width sz) || Qlt_bool 2048 (height sz))
       "Maximum image size is 2048x2048"
  ++ pushIf (notDivisibleBy64 (width sz) || notDivisibleBy64 (height sz))
       "Image dimensions must be divisible by 64".

Definition validateParams (params : UnifiedImageParams) : bool :=
  (List.length (validationErrors params) =? 0)%nat.

End StableDiffusion.


Definition ImagenProvider (authConfigured : bool)
    (remote : UnifiedImageParams -> JsError + ImageResult)
    (latency : Z) (health : bool) : BaseImageProvider :=
  {| getName := imagen4;
     generateImage := fun params =>
       match Imagen.validationErrors authConfigured params with
       | [] => remote params
       | errors => inl (Error ("Invalid parameters: " ++ join ", " errors))
       end;
     latency := latency;
     validateParams := Imagen.validateParams authConfigured;
     getCapabilities := Imagen.getCapabilities;
     estimateCost := Imagen.estimateCost;
     checkHealth := health |}.

Definition StableDiffusionProvider (remote : UnifiedImageParams -> JsError + ImageResult)
    (latency : Z) (health : bool) : BaseImageProvider :=
  {| getName := stableDiffusion;
     generateImage := fun params =>
       match StableDiffusion.validationErrors params with
       | [] => remote params
       | errors => inl (Error ("Invalid parameters: " ++ join ", " errors))
       end;
     latency := latency;
     validateParams := StableDiffusion.validateParams;
     getCapabilities := StableDiffusion.getCapabilities;
     estimateCost := StableDiffusion.estimateCost;
     checkHealth := health |}.

(** ** Construction of the manager

    [initializeProviders] registers, in this order, the adapters whose
    credentials are present; the constructor then installs the default
    configuration and runs the first health sweep, which stores the answer
    of [checkHealth] for every registered adapter. *)
Definition initializeProviders (dalle imagen sd : option BaseImageProvider)
    : list (ImageProvider * BaseImageProvider) :=
  (match dalle with Some a => [(dalleE3, a)] | None => [] end)
  ++ (match imagen with Some a => [(imagen4, a)] | None => [] end)
  ++ (match sd with Some a => [(stableDiffusion, a)] | None => [] end).

(** The first sweep: no adapter has been checked yet ([lastCheck] is 0), so
    the interval test skips none of them. *)
Definition performHealthChecks (m : ProviderManager) : ProviderManager :=
  {| providers := providers m;
     config := config m;
     healthStatus := fun p =>
       match providers_get (providers m) p with
       | Some a => Some (checkHealth a)
       | None => healthStatus m p
       end |}.

Definition newProviderManager (dalle imagen sd : option BaseImageProvider)
    : option ProviderManager :=
  match initializeProviders dalle imagen sd with
  | [] => None
  | registered =>
      Some (performHealthChecks
              {| providers := registered;
                 config := initializeDefaultConfig;
                 healthStatus := fun p =>
                   if providers_has registered p then Some false else None |})
  end.

(** * Vocabulary of the specification *)

(** ** Sizes *)

Definition multipleOf64 (q : Q) : Prop := exists k : Z, q == inject_Z (64 * k).

Definition withinFixedRange (q : Q) : Prop := 256 <= q /\ q <= 2048.

(** ** Truncation *)

(** Cutting [s] before index [n] splits a word when the characters on both
    sides of the cut exist and neither is a space. *)
Definition cutsMidWord (s : string) (n : nat) : bool :=
  match n with
  | O => false
  | S n' =>
      match get n' s, get n s with
      | Some a, Some b => negb (Ascii.eqb a space) && negb (Ascii.eqb b space)
      | _, _ => false
      end
  end.

(** The truncation sentence of the specification, as it is written. *)
Definition truncation_as_specified : Prop :=
  forall (prompt : string) (maxLength : nat),
    (maxLength < String.length prompt)%nat ->
    let r := truncatePrompt prompt maxLength in
    prefix r prompt = true
    /\ (String.length r <= maxLength)%nat
    /\ cutsMidWord prompt (String.length r) = false.

(** ** Retry traces *)

Definition attempted (tr : list RetryEvent) (k : nat) : Prop := In (Attempt k) tr.

(** Attempt [k] is followed by a wait of [d] milliseconds and then by
    attempt [k + 1]. *)
Definition waitsBetween (tr : list RetryEvent) (k : nat) (d : Q) : Prop :=
  exists pre post, tr = pre ++ Attempt k :: Wait d :: Attempt (S k) :: post.

Definition header_of (e : JsError) : option string :=
  match response e with
  | Some r => retry_after r
  | None => None
  end.

(** The retry sentence of the specification, as it is written, for one
    failed attempt that is followed by another: a retryable failure without
    a server hint waits [base * 2 ^ (attempt - 1)]. *)
Definition backoff_without_hint_as_specified : Prop :=
  forall (operation : nat -> JsError + unit) (maxRetries : nat) (baseDelay : Q)
         (k : nat) (e : JsError) (d : Q),
    operation k = inl e ->
    retryable (mapError e) = true ->
    header_of e = None ->
    waitsBetween (fst (retryWithBackoff operation maxRetries baseDelay)) k d ->
    d == baseDelay * 2 ^ (Z.of_nat k - 1).

(** ** Event logs *)

Definition generateCalls (evs : list Event) : list (ImageProvider * option JsError) :=
  flat_map (fun ev => match ev with EvGenerate p f => [(p, f)] | _ => [] end) evs.

Definition scoredProviders (evs : list Event) : list ImageProvider :=
  flat_map (fun ev => match ev with EvScore p => [p] | _ => [] end) evs.

Definition recordedMetrics (evs : list Event) : list (Metrics * bool) :=
  flat_map (fun ev => match ev with EvCacheSet _ v _ stored => [(v, stored)] | _ => [] end) evs.

Definition failuresOf (calls : list (ImageProvider * option JsError)) : list JsError :=
  flat_map (fun c => match snd c with Some e => [e] | None => [] end) calls.

Definition freshWorld (t0 : Z) (redis : bool) : World :=
  {| log := []; now := t0; redisUp := redis |}.

Definition is_returned {A} (o : Outcome A) : bool :=
  match o with Returned _ => true | Thrown _ => false end.

(** ** Selection *)

(** The candidates of a request, in evaluation order: the registered
    adapters that are available and whose validation passes. *)
Definition candidatesOf (m : ProviderManager) (params : UnifiedImageParams)
    : list Manager.Candidate :=
  flat_map
    (fun entry : ImageProvider * BaseImageProvider =>
       if isProviderAvailable m (fst entry) && validateParams (snd entry) params
       then [Manager.candidateFor m params (fst entry) (snd entry)]
       else [])
    (providers m).

(** The score the manager computes for an adapter under a health map. *)
Definition scoreUnder (hs : HealthStatus) (config : ProviderConfig)
    (a : BaseImageProvider) (params : UnifiedImageParams) : Q :=
  calculateProviderScore hs params (fromAdapter (getCapabilities a))
    (estimateCost a params) config.


(** ** Fallback *)

(** The fallbacks that are asked to generate: those of the fallback order
    that are registered, available and pass validation. *)
Definition eligibleFallbacks (m : ProviderManager) (params : UnifiedImageParams)
    (tried : ImageProvider) : list (ImageProvider * BaseImageProvider) :=
  flat_map
    (fun p =>
       match providers_get (providers m) p with
       | Some a =>
           if isProviderAvailable m p && validateParams a params then [(p, a)] else []
       | None => []
       end)
    (Manager.getFallbackProviders m tried).

(** The calls made when a list of adapters is tried in order until one
    succeeds. *)
Fixpoint attemptsUntilSuccess (params : UnifiedImageParams)
    (l : list (ImageProvider * BaseImageProvider))
    : list (ImageProvider * option JsError) :=
  match l with
  | [] => []
  | (p, a) :: rest =>
      match generateImage a params with
      | inr _ => [(p, None)]
      | inl e => (p, Some e) :: attemptsUntilSuccess params rest
      end
  end.

Fixpoint firstSuccess (params : UnifiedImageParams)
    (l : list (ImageProvider * BaseImageProvider)) : option ImageResult :=
  match l with
  | [] => None
  | (_, a) :: rest =>
      match generateImage a params with
      | inr r => Some r
      | inl _ => firstSuccess params rest
      end
  end.

(** ** Metrics *)

(** The metrics sentence of the specification, as it is written: every
    adapter attempt in the log has a metric event with its provider and its
    success flag. *)
Definition everyAttemptRecorded (evs : list Event) : Prop :=
  forall p failure,
    In (p, failure) (generateCalls evs) ->
    exists v stored,
      In (v, stored) (recordedMetrics evs)
      /\ m_provider v = ImageProvider_to_string p
      /\ m_success v = match failure with None => true | Some _ => false end.

(** Events of a phase in which no adapter generates and nothing is
    recorded. *)
Definition quiet (evs : list Event) : Prop :=
  generateCalls evs = [] /\ recordedMetrics evs = [].

(** ** The request as a function

    What the manager computes for a request, without the effects: the
    selection, then the result of the first adapter that answers. *)

(** [w'] is [w] after the events [evs] and [dt] milliseconds. *)
Definition extends (w w' : World) (evs : list Event) (dt : Z) : Prop :=
  log w' = log w ++ evs /\ now w' = (now w + dt)%Z /\ redisUp w' = redisUp w.

Definition explicitChoice (m : ProviderManager) (params : UnifiedImageParams)
    : option Manager.ProviderSelection :=
  match provider params with
  | Some name =>
      if isProviderAvailable m name then
        match providers_get (providers m) name with
        | Some a =>
            if validateParams a params then
              Some {| Manager.sel_provider := name;
                      Manager.sel_reason := "User specified";
                      Manager.estimatedCost := totalCost (estimateCost a params);
                      Manager.confidence := 1.0 |}
            else None
        | None => None
        end
      else None
  | None => None
  end.

Definition bestCandidate (first : Manager.Candidate) (candidates : list Manager.Candidate)
    : Manager.Candidate :=
  List.hd first (sort (fun a b => Manager.score b - Manager.score a) candidates).

Definition selectionOf (m : ProviderManager) (params : UnifiedImageParams)
    : Outcome Manager.ProviderSelection :=
  match explicitChoice m params with
  | Some selection => Returned selection
  | None =>
      match candidatesOf m params with
      | [] => Thrown (Error "No suitable providers available")
      | first :: _ =>
          let best := bestCandidate first (candidatesOf m params) in
          Returned {| Manager.sel_provider := Manager.c_provider best;
                      Manager.sel_reason := Manager.reason best;
                      Manager.estimatedCost := Manager.c_estimatedCost best;
                      Manager.confidence := Manager.score best |}
      end
  end.

(** The error thrown when the primary adapter failed with [e] and the
    fallbacks [l] were tried without success. *)
Definition allFailed (params : UnifiedImageParams) (e : JsError)
    (l : list (ImageProvider * BaseImageProvider)) : JsError :=
  Error ("All providers failed. Last error: "
         ++ Manager.message_text (List.last (failuresOf (attemptsUntilSuccess params l)) e)).

Definition fallbackOutcome (params : UnifiedImageParams) (e : JsError)
    (l : list (ImageProvider * BaseImageProvider)) : Outcome ImageResult :=
  match firstSuccess params l with
  | Some r => Returned r
  | None => Thrown (allFailed params e l)
  end.

Definition withFallbackOutcome (m : ProviderManager) (primary : BaseImageProvider)
    (params : UnifiedImageParams) : Outcome ImageResult :=
  match generateImage primary params with
  | inr r => Returned r
  | inl e => fallbackOutcome params e (eligibleFallbacks m params (getName primary))
  end.

Definition withFallbackCalls (m : ProviderManager) (primary : BaseImageProvider)
    (params : UnifiedImageParams) : list (ImageProvider * option JsError) :=
  match generateImage primary params with
  | inr _ => [(getName primary, None)]
  | inl e =>
      (getName primary, Some e)
      :: attemptsUntilSuccess params (eligibleFallbacks m params (getName primary))
  end.

Definition requestOutcome (m : ProviderManager) (params : UnifiedImageParams)
    : Outcome ImageResult :=
  match selectionOf m params with
  | Thrown e => Thrown e
  | Returned selection =>
      match providers_get (providers m) (Manager.sel_provider selection) with
      | None =>
          Thrown (Error ("Provider "
                         ++ ImageProvider_to_string (Manager.sel_provider selection)
                         ++ " not available"))
      | Some primary => withFallbackOutcome m primary params
      end
  end.

Definition requestCalls (m : ProviderManager) (params : UnifiedImageParams)
    : list (ImageProvider * option JsError) :=
  match selectionOf m params with
  | Thrown _ => []
  | Returned selection =>
      match providers_get (providers m) (Manager.sel_provider selection) with
      | None => []
      | Some primary => withFallbackCalls m primary params
      end
  end.

(** The provider label of a failure record: [params.provider || 'unknown']. *)
Definition requestedProvider (params : UnifiedImageParams) : string :=
  match provider params with
  | Some p => ImageProvider_to_string p
  | None => "unknown"
  end.

(** The record written by a request: its success flag, its cost and its
    provider label. *)
Definition metricMatches (m : ProviderManager) (params : UnifiedImageParams)
    (v : Metrics) : Prop :=
  m_success v = is_returned (requestOutcome m params)
  /\ m_cost v = match requestOutcome m params with
                | Returned r => Some (meta_cost r)
                | Thrown _ => None
                end
  /\ m_provider v = match requestOutcome m params, selectionOf m params with
                    | Returned _, Returned selection =>
                        ImageProvider_to_string (Manager.sel_provider selection)
                    | _, _ => requestedProvider params
                    end.

(** ** Sample data *)

Definition sampleParams : UnifiedImageParams :=
  {| prompt := "a red fox"; negativePrompt := None;
     p_width := None; p_height := None; quality := None; style := None;
     count := None; seed := None; provider := None |}.

Definition sampleParamsHD : UnifiedImageParams :=
  {| prompt := "a red fox"; negativePrompt := None;
     p_width := None; p_height := None; quality := Some hd; style := None;
     count := None; seed := None; provider := None |}.


Definition namedStableDiffusionCapabilities : AnyCapabilities :=
  {| name := Some stableDiffusion; caps := StableDiffusion.getCapabilities |}.

Definition sampleResult (p : ImageProvider) (cost : Q) : ImageResult :=
  {| id := "req"; imageUrl := "https://images.example/1.png";
     meta_provider := p; meta_generationTime := 1200; meta_cost := cost |}.

Definition serverError : JsError :=
  {| message := Some "Request failed with status code 503"%string;
     response := Some {| status := 503; retry_after := None;
                         data_error_message := None |} |}.

Definition rateLimited (header : option string) : JsError :=
  {| message := Some "Request failed with status code 429"%string;
     response := Some {| status := 429; retry_after := header;
                         data_error_message := None |} |}.

Definition badRequest : JsError :=
  {| message := Some "Request failed with status code 400"%string;
     response := Some {| status := 400; retry_after := None;
                         data_error_message := None |} |}.

Definition failingStableDiffusion : BaseImageProvider :=
  StableDiffusionProvider (fun _ => inl serverError) 4000 true.

Definition answeringImagen : BaseImageProvider :=
  ImagenProvider true (fun _ => inr (sampleResult imagen4 0.03)) 900 true.

Definition emptyManager : ProviderManager :=
  {| providers := []; config := initializeDefaultConfig;
     healthStatus := fun _ => None |}.

(** Stable Diffusion (priority 3) fails at the vendor, Imagen (priority 1)
    answers; DALL-E has no key and is not registered. *)
Definition sdFailsImagenAnswers : ProviderManager :=
  match newProviderManager None (Some answeringImagen) (Some failingStableDiffusion) with
  | Some m => m
  | None => emptyManager
  end.

(** The same request, naming Imagen. *)
Definition explicitImagenParams : UnifiedImageParams :=
  {| prompt := "a red fox"; negativePrompt := None;
     p_width := None; p_height := None; quality := None; style := None;
     count := None; seed := None; provider := Some imagen4 |}.


(** * Further code of the adapters and of the manager *)

From Stdlib Require Import Qabs.
From Stdlib Require DecimalNat.

(** ** DalleProvider: the request sent to the vendor *)

Module DalleRequest.

Record SizeOption : Set := { w : Q; h : Q; size : string }.

Definition sizes : list SizeOption :=
  [ {| w := 1024; h := 1024; size := "1024x1024" |};
    {| w := 1024; h := 1792; size := "1024x1792" |};
    {| w := 1792; h := 1024; size := "1792x1024" |} ].

Definition distance (width height : Q) (s : SizeOption) : Q :=
  Qabs (width - w s) + Qabs (height - h s).

(** The [for] loop of [mapToValidSize]: the closest size so far and its
    distance. *)
Fixpoint closestLoop (width height : Q) (l : list SizeOption)
    (closestSize : SizeOption) (minDistance : Q) : SizeOption :=
  match l with
  | [] => closestSize
  | s :: rest =>
      if Qlt_bool (distance width height s) minDistance
      then closestLoop width height rest s (distance width height s)
      else closestLoop width height rest closestSize minDistance
  end.

Definition sizes0 : SizeOption := {| w := 1024; h := 1024; size := "1024x1024" |}.

Definition mapToValidSize (width height : Q) : string :=
  size (closestLoop width height sizes sizes0 (distance width height sizes0)).

Inductive DalleStyle : Set := natural | vivid.

(** [OpenAI.Images.ImageGenerateParams] as [generateImage] fills it in. *)
Record ImageGenerateParams : Set := {
  model : string;
  dp_prompt : string;
  n : Q;
  dp_size : string;
  dp_quality : Quality;
  dp_style : DalleStyle;
  response_format : string
}.

Definition dalleParams (params : UnifiedImageParams) : ImageGenerateParams :=
  let sz := standardizeImageSize (p_width params) (p_height params) in
  {| model := "dall-e-3";
     dp_prompt := truncatePrompt (prompt params) 4000;
     n := 1;
     dp_size := mapToValidSize (width sz) (height sz);
     dp_quality := if Dalle.is_hd (quality params) then hd else standard;
     dp_style :=
       match style params with
       | Some s => if String.eqb s "natural" then natural else vivid
       | None => vivid
       end;
     response_format := "url" |}.

Definition calculateActualCost (p : ImageGenerateParams) : Q :=
  let isHD := match dp_quality p with hd => true | standard => false end in
  let isLargeSize := negb (String.eqb (dp_size p) "1024x1024") in
  if isHD && negb isLargeSize then 0.08
  else if isLargeSize then (if isHD then 0.12 else 0.08)
  else 0.04.

End DalleRequest.

(** ** StableDiffusionProvider: the request sent to the vendor *)

Module StableDiffusionRequest.


(** The fields of [StabilityRequest] that are numbers; the text prompts and
    the style preset, which the cost does not read, are left out. *)
Record StabilityRequest : Set := {
  cfg_scale : Q;
  sr_height : Q;
  sr_width : Q;
  samples : Q;
  steps : Q;
  sr_seed : Q
}.


Definition calculateActualCost (params : StabilityRequest) : Q :=
  let pixelCount := orQ (Some (sr_width params)) 512 * orQ (Some (sr_height params)) 512 in
  let baseCredits := 10 in
  let credits := inject_Z (Math_ceil (baseCredits * (pixelCount / (512 * 512)))) in
  let samples := orQ (Some (samples params)) 1 in
  credits * samples * 0.002.

End StableDiffusionRequest.

(** ** ImagenProvider: the request sent to the vendor *)

Module ImagenRequest.

Definition mapToValidAspectRatio (width height : Q) : string :=
  let ratio := width / height in
  if Qlt_bool (Qabs (ratio - 1)) 0.1 then "1:1"
  else if Qlt_bool (Qabs (ratio - 16 / 9)) 0.2 then "16:9"
  else if Qlt_bool (Qabs (ratio - 9 / 16)) 0.2 then "9:16"
  else if Qlt_bool (Qabs (ratio - 4 / 3)) 0.2 then "4:3"
  else if Qlt_bool (Qabs (ratio - 3 / 4)) 0.2 then "3:4"
  else "1:1".

(** [requestBody.instances[0]] *)
Record Instance : Set := {
  in_prompt : string;
  in_negativePrompt : string;
  imageCount : Q;
  aspectRatio : string;
  personGeneration : string;
  safetyFilterLevel : string;
  addWatermark : bool
}.

Definition instance (params : UnifiedImageParams) : Instance :=
  let sz := standardizeImageSize (p_width params) (p_height params) in
  {| in_prompt := truncatePrompt (prompt params) 2048;
     in_negativePrompt := orString (negativePrompt params) EmptyString;
     imageCount := Qmin (orQ (count params) 1) 4;
     aspectRatio := mapToValidAspectRatio (width sz) (height sz);
     personGeneration := "allow";
     safetyFilterLevel := "block_some";
     addWatermark := false |}.

(** [(params.prompt?.length || 0) + (params.negativePrompt?.length || 0)]:
    both fields are strings here, and an empty string has length 0. *)
Definition calculateActualCost (params : Instance) : Q :=
  let baseImageCost := 0.03 in
  let characterCost :=
    (strlen (in_prompt params) + strlen (in_negativePrompt params)) / 1000 * 0.0008 in
  baseImageCost + characterCost.

End ImagenRequest.

(** ** Vocabulary for the adapters' requests *)

(** The multiples of 64 that [standardizeImageSize] can return, as
    multipliers: 4 (256) to 32 (2048). *)
Definition multipliers64 : list Z := map Z.of_nat (seq 4 29).

Definition sizeStringOf (width height : Q) : string :=
  (number_to_string width ++ "x" ++ number_to_string height)%string.

(** For one pair of multipliers: when DALL-E accepts the size, the pair is
    one of (16,16), (16,28), (28,16) and [mapToValidSize] returns the size
    unchanged. *)
Definition dalleSizeAccepted (k k' : Z) : bool :=
  existsb (String.eqb (sizeStringOf (inject_Z k * 64) (inject_Z k' * 64))) Dalle.validSizes.

Definition dalleSizeChecked (k k' : Z) : bool :=
  implb (dalleSizeAccepted k k')
    (((k =? 16)%Z && (k' =? 16)%Z || (k =? 16)%Z && (k' =? 28)%Z
      || (k =? 28)%Z && (k' =? 16)%Z)
     && String.eqb (DalleRequest.mapToValidSize (inject_Z k * 64) (inject_Z k' * 64))
          (sizeStringOf (inject_Z k * 64) (inject_Z k' * 64))).

(** ** ProviderManager: management methods *)

Module ManagerApi.

(** The loop of [estimateCost].  The keys of [this.providers] are distinct,
    so each assignment [estimates[providerName] = ...] adds a property; the
    object is the list of its properties in insertion order. *)
Fixpoint estimateCostLoop (m : ProviderManager) (params : UnifiedImageParams)
    (entries : list (ImageProvider * BaseImageProvider))
    (estimates : list (ImageProvider * CostEstimate))
    : M (list (ImageProvider * CostEstimate)) :=
  match entries with
  | [] => ret estimates
  | (providerName, provider) :: rest =>
      if isProviderAvailable m providerName then
        valid <- call_validateParams provider providerName params ;;
        if valid
        then estimateCostLoop m params rest
               (estimates ++ [(providerName, estimateCost provider params)])
        else estimateCostLoop m params rest estimates
      else estimateCostLoop m params rest estimates
  end.

Definition estimateCost (m : ProviderManager) (params : UnifiedImageParams)
    : M (list (ImageProvider * CostEstimate)) :=
  estimateCostLoop m params (providers m) [].

End ManagerApi.

(** ** ProviderManager: the periodic health sweep *)

Module HealthMonitor.

(** The manager together with its fourth map, [lastHealthCheck]. *)
Record State : Type := {
  manager : ProviderManager;
  lastHealthCheck : ImageProvider -> option Z
}.

(** [this.lastHealthCheck.get(providerName) || 0] *)
Definition lastCheckOf (last : ImageProvider -> option Z) (p : ImageProvider) : Z :=
  match last p with
  | Some t => t
  | None => 0
  end.

Definition setHealth (st : State) (p : ImageProvider) (isHealthy : bool) (now : Z) : State :=
  {| manager :=
       {| providers := providers (manager st);
          config := config (manager st);
          healthStatus := fun q =>
            if ImageProvider_eqb q p then Some isHealthy
            else healthStatus (manager st) q |};
     lastHealthCheck := fun q =>
       if ImageProvider_eqb q p then Some now else lastHealthCheck st q |}.

(** The loop of [performHealthChecks] over [this.providers.entries()].  The
    clock is read at each adapter; the time the checks themselves take is
    not modelled, so one sweep sees one time [now].  [checkHealth] answers
    [false] where the adapter's own check fails. *)
Fixpoint sweep (now : Z) (entries : list (ImageProvider * BaseImageProvider))
    (st : State) : State :=
  match entries with
  | [] => st
  | (providerName, provider) :: rest =>
      let config := config (manager st) providerName in
      let lastCheck := lastCheckOf (lastHealthCheck st) providerName in
      if Qlt_bool (inject_Z (now - lastCheck)) (healthCheckInterval config)
      then sweep now rest st
      else sweep now rest (setHealth st providerName (checkHealth provider) now)
  end.

Definition performHealthChecks (now : Z) (st : State) : State :=
  sweep now (providers (manager st)) st.

End HealthMonitor.

(** ** Vocabulary for the manager *)

(** Every adapter is registered under its own name, as [initializeProviders]
    does. *)
Definition namesConsistent (m : ProviderManager) : Prop :=
  forall k a, providers_get (providers m) k = Some a -> getName a = k.

(** The priorities are those of [initializeDefaultConfig]; [enableProvider]
    and [disableProvider] keep them. *)
Definition defaultPriorities (m : ProviderManager) : Prop :=
  forall p, priority (config m p) = priority (initializeDefaultConfig p).

(** The configuration is the default one, up to the [enabled] flags. *)
Definition defaultWeights (m : ProviderManager) : Prop :=
  forall p, exists b, config m p = set_enabled b (initializeDefaultConfig p).

Definition unhealthyImagen : BaseImageProvider :=
  ImagenProvider true (fun _ => inr (sampleResult imagen4 0.03)) 900 false.

(** Imagen alone is configured and its health check fails. *)
Definition onlyUnhealthyImagen : ProviderManager :=
  match newProviderManager None (Some unhealthyImagen) None with
  | Some m => m
  | None => emptyManager
  end.

(** An adapter is due for a check at [now] when the time since its last
    check is not below its [healthCheckInterval]. *)
Definition checkDue (now : Z) (st : HealthMonitor.State) (p : ImageProvider) : bool :=
  negb (Qlt_bool
          (inject_Z (now - HealthMonitor.lastCheckOf (HealthMonitor.lastHealthCheck st) p))
          (healthCheckInterval (config (HealthMonitor.manager st) p))).

(** A manager on which no sweep has run yet. *)
Definition neverChecked (m : ProviderManager) : HealthMonitor.State :=
  {| HealthMonitor.manager := m; HealthMonitor.lastHealthCheck := fun _ => None |}.

(** The adapter given to the constructor for a name. *)
Definition configuredAdapter (dalle imagen sd : option BaseImageProvider)
    (p : ImageProvider) : option BaseImageProvider :=
  match p with
  | dalleE3 => dalle
  | imagen4 => imagen
  | stableDiffusion => sd
  end.

(** ** Redis: the reconnect strategy of [setupRedis] *)

Module Redis.

(** The function given to the client as [socket.reconnectStrategy]: an error
    ends the reconnection, a number is the wait in milliseconds. *)
Definition reconnectStrategy (retries : Q) : JsError + Q :=
  if Qlt_bool 10 retries then inl (Error "Redis connection failed")
  else inr (Qmin (retries * 50) 1000).

End Redis.

(** ** BaseImageProvider: the rate-limit tracker *)

Module RateLimit.




End RateLimit.

(** ** ImagenProvider.generateMultipleImages *)

Module ImagenBatches.

(** [{ ...params, count: c }] *)
Definition withCount (params : UnifiedImageParams) (c : Q) : UnifiedImageParams :=
  {| prompt := prompt params; negativePrompt := negativePrompt params;
     p_width := p_width params; p_height := p_height params;
     quality := quality params; style := style params;
     count := Some c; seed := seed params; provider := provider params |}.

(** The [for] loop, from the index [i] on.  The index grows by [batchSize]
    at every turn; [fuel] bounds the number of turns. *)
Fixpoint batchLoop (fuel : nat) (generateImage : UnifiedImageParams -> JsError + ImageResult)
    (params : UnifiedImageParams) (count batchSize i : Q) (results : list ImageResult)
    : JsError + list ImageResult :=
  match fuel with
  | O => inr results
  | S fuel' =>
      if Qlt_bool i count then
        let currentBatchSize := Qmin batchSize (count - i) in
        let batchParams := withCount params currentBatchSize in
        match generateImage batchParams with
        | inl error => inl error
        | inr result =>
            batchLoop fuel' generateImage params count batchSize (i + batchSize)
              (results ++ [result])
        end
      else inr results
  end.

(** The batch size is above 1 when the loop is entered, so the index passes
    [count] within [ceil count] turns. *)
Definition generateMultipleImages
    (generateImage : UnifiedImageParams -> JsError + ImageResult)
    (params : UnifiedImageParams) : JsError + list ImageResult :=
  let single :=
    match generateImage params with
    | inl error => inl error
    | inr result => inr [result]
    end in
  match count params with
  | None => single
  | Some count =>
      if negb (truthyQ (Some count)) || Qle_bool count 1 then single
      else
        let batchSize := Qmin count 4 in
        batchLoop (Z.to_nat (Math_ceil count)) generateImage params count batchSize 0 []
  end.

End ImagenBatches.

(** The sizes of the batches the loop asks for, from the index [i] on. *)
Fixpoint batchCounts (fuel : nat) (count batchSize i : Q) : list Q :=
  match fuel with
  | O => []
  | S fuel' =>
      if Qlt_bool i count
      then Qmin batchSize (count - i) :: batchCounts fuel' count batchSize (i + batchSize)
      else []
  end.

Definition batchesOf (count : Q) : list Q :=
  batchCounts (Z.to_nat (Math_ceil count)) count (Qmin count 4) 0.

Definition Qsum (l : list Q) : Q := fold_right Qplus 0 l.

(** Calls in order, stopping at the first that throws. *)
Fixpoint callInOrder (generateImage : UnifiedImageParams -> JsError + ImageResult)
    (requests : list UnifiedImageParams) (results : list ImageResult)
    : JsError + list ImageResult :=
  match requests with
  | [] => inr results
  | request :: rest =>
      match generateImage request with
      | inl error => inl error
      | inr result => callInOrder generateImage rest (results ++ [result])
      end
  end.

Definition elevenImages : UnifiedImageParams :=
  {| prompt := "a red fox"; negativePrompt := None;
     p_width := None; p_height := None; quality := None; style := None;
     count := Some 11; seed := None; provider := None |}.

(** ** PromptTemplateService: the usage ranking *)

Module Templates.

(** [PromptTemplate], with the fields the ranking reads. *)
Record PromptTemplate : Set := {
  t_id : string;
  t_name : string;
  isPublic : bool;
  usageCount : Q
}.

(** [this.templates], a [Map] in insertion order. *)
Definition Store : Set := list (string * PromptTemplate).

(** [Array.from(this.templates.values())] *)
Definition values (templates : Store) : list PromptTemplate := map snd templates.

Definition getAllTemplates (templates : Store) : list PromptTemplate := values templates.

Definition getPublicTemplates (templates : Store) : list PromptTemplate :=
  filter isPublic (values templates).

(** [array.slice(0, end)] for an integer [end]: a negative [end] counts from
    the end of the array. *)
Definition slice0 {A} (l : list A) (end_ : Z) : list A :=
  if (end_ <? 0)%Z
  then firstn (Z.to_nat (Z.max (Z.of_nat (List.length l) + end_) 0)) l
  else firstn (Z.to_nat end_) l.

Definition getPopularTemplates (templates : Store) (limit : option Z) : list PromptTemplate :=
  let limit := match limit with Some n => n | None => 10%Z end in
  slice0
    (sort (fun a b => usageCount b - usageCount a)
       (filter isPublic (values templates)))
    limit.

End Templates.

Definition sampleTemplates : Templates.Store :=
  [("portrait-professional"%string,
    {| Templates.t_id := "portrait-professional"; Templates.t_name := "Professional Portrait";
       Templates.isPublic := true; Templates.usageCount := 2 |});
   ("landscape-natural"%string,
    {| Templates.t_id := "landscape-natural"; Templates.t_name := "Natural Landscape";
       Templates.isPublic := true; Templates.usageCount := 5 |});
   ("draft"%string,
    {| Templates.t_id := "draft"; Templates.t_name := "Draft";
       Templates.isPublic := false; Templates.usageCount := 9 |})].

(** * Properties *)

(** ** Size standardisation *)

Lemma clamp_within (v : Q) : 256 <= Qmax 256 (Qmin 2048 v) /\ Qmax 256 (Qmin 2048 v) <= 2048.
Proof.
  split.
  - apply Q.le_max_l.
  - apply Q.max_lub; [ discriminate | apply Q.le_min_l ].
Qed.

Lemma Math_round_bounds (c : Q) :
  256 <= c -> c <= 2048 -> (4 <= Math_round (c / 64) <= 32)%Z.
Proof.
  intros Hlo Hhi. unfold Math_round.
  change (c / 64) with (c * (1 # 64)). split.
  - change 4%Z with (Qfloor (inject_Z 4)). apply Qfloor_resp_le.
    change (inject_Z 4) with 4. lra.
  - change 32%Z with (Qfloor (32 + (1 # 2))). apply Qfloor_resp_le. lra.
Qed.

Lemma roundTo64_spec (c : Q) :
  256 <= c -> c <= 2048 -> multipleOf64 (roundTo64 c) /\ withinFixedRange (roundTo64 c).
Proof.
  intros Hlo Hhi.
  destruct (Math_round_bounds c Hlo Hhi) as [H4 H32].
  unfold roundTo64. set (k := Math_round (c / 64)) in *.
  split.
  - exists k. rewrite inject_Z_mult. change (inject_Z 64) with 64. ring.
  - rewrite Zle_Qle in H4, H32.
    change (inject_Z 4) with 4 in H4. change (inject_Z 32) with 32 in H32.
    unfold withinFixedRange. split; lra.
Qed.

Lemma defaultSize_spec : multipleOf64 defaultSize /\ withinFixedRange defaultSize.
Proof.
  split.
  - exists 16%Z. reflexivity.
  - unfold withinFixedRange, defaultSize. split; discriminate.
Qed.

Lemma standardizeDimension_spec (d : option Q) :
  multipleOf64 (standardizeDimension d) /\ withinFixedRange (standardizeDimension d).
Proof.
  destruct d as [v|]; simpl.
  - destruct (Qeq_bool v 0).
    + apply defaultSize_spec.
    + destruct (clamp_within v). now apply roundTo64_spec.
  - apply defaultSize_spec.
Qed.

(** The rounding moves a dimension by at most half a step. *)
Lemma roundTo64_nearest (c : Q) : c - 32 <= roundTo64 c /\ roundTo64 c <= c + 32.
Proof.
  unfold roundTo64, Math_round.
  pose proof (Qfloor_le (c / 64 + (1 # 2))) as Hle.
  pose proof (Qlt_floor (c / 64 + (1 # 2))) as Hlt.
  rewrite inject_Z_plus in Hlt. change (inject_Z 1) with 1 in Hlt.
  change (c / 64) with (c * (1 # 64)) in *.
  split; lra.
Qed.

(** C10. For every input, absent dimensions included, [standardizeImageSize]
    returns a width and a height that are multiples of 64 within 256..2048;
    an absent dimension becomes 1024; 900x900 becomes 896x896, whatever the
    adapter. *)
Theorem standardizeImageSize_multiple_of_64_in_range :
  (forall w h : option Q,
      let r := standardizeImageSize w h in
      multipleOf64 (width r) /\ withinFixedRange (width r)
      /\ multipleOf64 (height r) /\ withinFixedRange (height r))
  /\ (forall h : option Q, width (standardizeImageSize None h) = 1024)
  /\ (forall w : option Q, height (standardizeImageSize w None) = 1024)
  /\ standardizeImageSize None None = {| width := 1024; height := 1024 |}
  /\ standardizeImageSize (Some 900) (Some 900) = {| width := 896; height := 896 |}.
Proof.
  repeat split; try reflexivity;
    try (apply (standardizeDimension_spec w));
    try (apply (standardizeDimension_spec h)).
Qed.

(** ** Selection scorer *)

Lemma div_maxCost (x : Q) : x / maxCost == x * 5.
Proof. unfold maxCost. field. Qed.

Lemma costScore_antitone (c1 c2 : CostEstimate) :
  costPerImage c1 <= costPerImage c2 -> costScore c2 <= costScore c1.
Proof.
  intros H. unfold costScore.
  apply Q.max_le_compat_l. rewrite !div_maxCost. unfold maxCost. lra.
Qed.

Lemma weightedScore_antitone (capabilities : AnyCapabilities) (c1 c2 : CostEstimate)
    (config : ProviderConfig) :
  0 <= costWeight config ->
  costPerImage c1 <= costPerImage c2 ->
  weightedScore capabilities c2 config <= weightedScore capabilities c1 config.
Proof.
  intros Hw Hc. unfold weightedScore.
  pose proof (Qmult_le_compat_r _ _ _ (costScore_antitone c1 c2 Hc) Hw) as Hm.
  lra.
Qed.

(** The configured weights are positive, so the scorer is used with a
    non-negative cost weight only. *)
Lemma default_costWeight_nonneg (p : ImageProvider) (b : bool) :
  0 <= costWeight (set_enabled b (initializeDefaultConfig p)).
Proof. destruct p; simpl; discriminate. Qed.

(** C7. Lowering a candidate's per-image cost, everything else fixed, never
    lowers its final score: this holds for every configuration whose cost
    weight is not negative, and every configuration the manager installs,
    enabled or disabled, is one. *)
Theorem score_monotone_in_cost :
  (forall (hs : HealthStatus) (params : UnifiedImageParams)
          (capabilities : AnyCapabilities) (cheaper dearer : CostEstimate)
          (config : ProviderConfig),
      0 <= costWeight config ->
      costPerImage cheaper <= costPerImage dearer ->
      calculateProviderScore hs params capabilities dearer config
      <= calculateProviderScore hs params capabilities cheaper config)
  /\ (forall (p : ImageProvider) (b : bool),
         0 <= costWeight (set_enabled b (initializeDefaultConfig p))).
Proof.
  split; [ | apply default_costWeight_nonneg ].
  intros hs params capabilities cheaper dearer config Hw Hc.
  pose proof (weightedScore_antitone capabilities cheaper dearer config Hw Hc) as Hs.
  unfold calculateProviderScore.
  destruct (negb (truthyB (healthStatus_get hs (name capabilities))));
    apply Q.min_le_compat_r; lra.
Qed.

Lemma score_monotone_in_cost_witness :
  0 <= costWeight (initializeDefaultConfig stableDiffusion)
  /\ costPerImage (StableDiffusion.estimateCost sampleParams)
     <= costPerImage (Dalle.estimateCost sampleParamsHD)
  /\ calculateProviderScore (fun _ => Some true) sampleParams
       (fromAdapter StableDiffusion.getCapabilities)
       (Dalle.estimateCost sampleParamsHD)
       (initializeDefaultConfig stableDiffusion)
     <= calculateProviderScore (fun _ => Some true) sampleParams
          (fromAdapter StableDiffusion.getCapabilities)
          (StableDiffusion.estimateCost sampleParams)
          (initializeDefaultConfig stableDiffusion).
Proof.
  assert (Hw : 0 <= costWeight (initializeDefaultConfig stableDiffusion))
    by (vm_compute; discriminate).
  assert (Hc : costPerImage (StableDiffusion.estimateCost sampleParams)
               <= costPerImage (Dalle.estimateCost sampleParamsHD))
    by (vm_compute; discriminate).
  split; [ exact Hw | split; [ exact Hc | ] ].
  apply (proj1 score_monotone_in_cost _ _ _ _ _ _ Hw Hc).
Defined.



Lemma candidates_are_available (m : ProviderManager) (params : UnifiedImageParams)
    (c : Manager.Candidate) :
  In c (candidatesOf m params) -> isProviderAvailable m (Manager.c_provider c) = true.
Proof.
  unfold candidatesOf. intros H. apply in_flat_map in H.
  destruct H as ([n a] & _ & Hin). simpl in Hin.
  destruct (isProviderAvailable m n) eqn:Eav; [ | contradiction ].
  destruct (validateParams a params); [ | contradiction ].
  destruct Hin as [<- | []]. exact Eav.
Qed.



(** The capabilities the adapters return carry no name, so on the manager's
    own path the health lookup misses and the weighted score is always
    halved, whatever the cached health. *)
Lemma manager_score_ignores_health (hs : HealthStatus) (config : ProviderConfig)
    (a : BaseImageProvider) (params : UnifiedImageParams) :
  scoreUnder hs config a params
  = Qmin (weightedScore (fromAdapter (getCapabilities a)) (estimateCost a params) config * 0.5) 1.0.
Proof. reflexivity. Qed.

(** Even with a working health lookup the halving is not exact above the
    clamp: with Stable Diffusion's capabilities under its own name the
    weighted score is 1.02, the healthy score 1 and the unhealthy score
    0.51. *)
Lemma clamp_breaks_halving_example :
  calculateProviderScore (fun _ => Some true) sampleParams
    namedStableDiffusionCapabilities (StableDiffusion.estimateCost sampleParams)
    (initializeDefaultConfig stableDiffusion) == 1
  /\ calculateProviderScore (fun _ => Some false) sampleParams
       namedStableDiffusionCapabilities (StableDiffusion.estimateCost sampleParams)
       (initializeDefaultConfig stableDiffusion) == 0.51.
Proof. split; vm_compute; reflexivity. Qed.


(** ** Prompt truncation *)

Lemma length_substring_0 (s : string) : forall n,
  String.length (substring 0 n s) = Nat.min n (String.length s).
Proof.
  induction s as [|c s IH]; intros [|n]; simpl; try reflexivity.
  now rewrite IH.
Qed.

Lemma get_substring_0 (s : string) : forall n j,
  get j (substring 0 n s) = if (j <? n)%nat then get j s else None.
Proof.
  induction s as [|c s IH]; intros [|n] j; simpl.
  - now destruct (j <? 0)%nat.
  - now destruct (j <? S n)%nat.
  - reflexivity.
  - destruct j as [|j]; [ reflexivity | ].
    rewrite IH. reflexivity.
Qed.

Lemma prefix_substring_0 (s : string) : forall n, prefix (substring 0 n s) s = true.
Proof.
  induction s as [|c s IH]; intros [|n]; simpl; try reflexivity.
  destruct (ascii_dec c c) as [_|Hne]; [ apply IH | now elim Hne ].
Qed.

Lemma substring_0_twice (s : string) : forall i n,
  (i <= n)%nat -> substring 0 i (substring 0 n s) = substring 0 i s.
Proof.
  induction s as [|c s IH]; intros [|i] [|n] Hle; simpl; try reflexivity; try lia.
  f_equal. apply IH. lia.
Qed.

Lemma substring_0_all (s : string) : forall n,
  (String.length s <= n)%nat -> substring 0 n s = s.
Proof.
  induction s as [|c s IH]; intros [|n] Hle; simpl in *; try reflexivity; try lia.
  f_equal. apply IH. lia.
Qed.

Lemma get_beyond (s : string) : forall j, (String.length s <= j)%nat -> get j s = None.
Proof.
  induction s as [|c s IH]; intros j Hle; simpl in *; [ reflexivity | ].
  destruct j as [|j]; [ lia | apply IH; lia ].
Qed.

(** [lastIndexOf] is [-1] when the character is absent, and otherwise the
    index of its last occurrence. *)
Lemma lastIndexOf_spec (c : ascii) (s : string) :
  (lastIndexOf c s = (-1)%Z /\ forall j, get j s <> Some c)
  \/ ((0 <= lastIndexOf c s)%Z
      /\ (Z.to_nat (lastIndexOf c s) < String.length s)%nat
      /\ get (Z.to_nat (lastIndexOf c s)) s = Some c
      /\ forall j, (Z.to_nat (lastIndexOf c s) < j)%nat -> get j s <> Some c).
Proof.
  induction s as [|a s IH]; simpl.
  - left. split; [ reflexivity | intros j; discriminate ].
  - destruct IH as [[Hk Hnone] | (Hk & Hlt & Hget & Hlast)].
    + rewrite Hk. simpl.
      destruct (Ascii.eqb_spec a c) as [->|Hne].
      * right. simpl. repeat split; try lia.
        intros [|j] Hj; [ lia | apply Hnone ].
      * left. split; [ reflexivity | ].
        intros [|j]; [ congruence | apply Hnone ].
    + destruct (Z.leb_spec 0 (lastIndexOf c s)) as [_|Hneg]; [ | lia ].
      right.
      replace (Z.to_nat (lastIndexOf c s + 1)) with (S (Z.to_nat (lastIndexOf c s)))
        by lia.
      repeat split; try lia; try assumption.
      intros [|j] Hj; [ lia | apply Hlast; lia ].
Qed.

(** C8, as amended. A prompt at or under the limit is returned unchanged.
    A longer prompt yields a prefix of at most [maxLength] characters: when
    the first [maxLength] characters hold a space at a positive index, the
    prefix ends just before the last such space (so no word is split);
    otherwise it is the first [maxLength] characters, whatever they cut. *)
Theorem truncatePrompt_cuts_at_last_inner_space :
  forall (prompt : string) (maxLength : nat),
    let r := truncatePrompt prompt maxLength in
    ((String.length prompt <= maxLength)%nat -> r = prompt)
    /\ ((maxLength < String.length prompt)%nat ->
        prefix r prompt = true
        /\ (String.length r <= maxLength)%nat
        /\ ((exists i,
                (0 < i < maxLength)%nat
                /\ get i prompt = Some space
                /\ (forall j, (i < j < maxLength)%nat -> get j prompt <> Some space)
                /\ r = substring 0 i prompt
                /\ String.length r = i
                /\ cutsMidWord prompt (String.length r) = false)
            \/ ((forall j, (0 < j < maxLength)%nat -> get j prompt <> Some space)
                /\ r = substring 0 maxLength prompt))).
Proof.
  intros prompt maxLength r. subst r. unfold truncatePrompt.
  destruct (Nat.leb_spec (String.length prompt) maxLength) as [Hle|Hgt].
  - split; [ reflexivity | lia ].
  - split; [ lia | intros _ ].
    set (truncated := substring 0 maxLength prompt).
    assert (Hlen : String.length truncated = maxLength)
      by (unfold truncated; rewrite length_substring_0; lia).
    destruct (lastIndexOf_spec space truncated)
      as [[Hk Hnone] | (Hk & Hlt & Hget & Hlast)].
    + rewrite Hk. simpl. repeat split.
      * apply prefix_substring_0.
      * lia.
      * right. split; [ | reflexivity ].
        intros j Hj Hs. apply (Hnone j). unfold truncated.
        rewrite get_substring_0.
        destruct (Nat.ltb_spec j maxLength); [ assumption | lia ].
    + set (k := lastIndexOf space truncated) in *.
      assert (Hgetp : forall j, (j < maxLength)%nat -> get j truncated = get j prompt).
      { intros j Hj. unfold truncated. rewrite get_substring_0.
        destruct (Nat.ltb_spec j maxLength); [ reflexivity | lia ]. }
      destruct (Z.ltb_spec 0 k) as [Hpos|Hzero].
      * assert (Hr : substring 0 (Z.to_nat k) truncated = substring 0 (Z.to_nat k) prompt)
          by (apply substring_0_twice; lia).
        assert (Hrl : String.length (substring 0 (Z.to_nat k) truncated) = Z.to_nat k)
          by (rewrite length_substring_0; lia).
        repeat split.
        -- rewrite Hr. apply prefix_substring_0.
        -- lia.
        -- left. exists (Z.to_nat k). repeat split; try lia; try assumption.
           ++ rewrite <- Hgetp by lia. assumption.
           ++ intros j Hj. rewrite <- Hgetp by lia. apply Hlast. lia.
           ++ rewrite Hrl. unfold cutsMidWord.
              destruct (Z.to_nat k) as [|k'] eqn:Ek; [ reflexivity | ].
              rewrite <- (Hgetp (S k')) by lia. rewrite Hget.
              destruct (get k' prompt); [ | reflexivity ].
              rewrite Ascii.eqb_refl. simpl. apply andb_false_r.
      * assert (Hk0 : Z.to_nat k = 0%nat) by lia.
        repeat split.
        -- apply prefix_substring_0.
        -- lia.
        -- right. split; [ | reflexivity ].
           intros j Hj. rewrite <- Hgetp by lia. apply Hlast. lia.
Qed.

Lemma truncatePrompt_cuts_at_last_inner_space_witness :
  (11 < String.length "hello world foo")%nat
  /\ prefix (truncatePrompt "hello world foo" 11) "hello world foo" = true
  /\ (String.length (truncatePrompt "hello world foo" 11) <= 11)%nat.
Proof.
  assert (Hlong : (11 < String.length "hello world foo")%nat) by (simpl; lia).
  split; [ exact Hlong | ].
  destruct (truncatePrompt_cuts_at_last_inner_space "hello world foo" 11)
    as [_ Hcut].
  destruct (Hcut Hlong) as (Hp & Hl & _).
  split; [ exact Hp | exact Hl ].
Defined.

(** C8, counterexample. A prompt without a space among its first characters
    is cut inside a word: ["abcdefgh"] with limit 4 becomes ["abcd"]. *)
Lemma truncatePrompt_splits_word_counterexample : ~ truncation_as_specified.
Proof.
  intros H.
  destruct (H "abcdefgh"%string 4%nat) as (_ & _ & Hmid).
  - simpl. lia.
  - vm_compute in Hmid. discriminate Hmid.
Qed.

(** ** Error classification and retry *)

Lemma status_400_only (e : JsError) :
  status_is e 400 = true -> status_is e 429 = false /\ status_ge e 500 = false.
Proof.
  unfold status_is, status_ge. destruct (response_status e) as [s|]; [ | discriminate ].
  intros H. apply Z.eqb_eq in H. subst s. split; reflexivity.
Qed.

Lemma mapError_400_not_retryable (e : JsError) :
  status_is e 400 = true -> retryable (mapError e) = false.
Proof.
  intros H. destruct (status_400_only e H) as [H429 H500].
  unfold mapError. rewrite H429, H500, H. reflexivity.
Qed.

Lemma mapError_429 (e : JsError) :
  status_is e 429 = true ->
  retryAfter (mapError e) = Some (parseInt (orString (header_of e) "60")).
Proof. intros H. unfold mapError. rewrite H. reflexivity. Qed.

Lemma mapError_retryable_other (e : JsError) :
  status_is e 429 = false -> retryable (mapError e) = true ->
  retryAfter (mapError e) = None.
Proof.
  unfold mapError. intros ->.
  destruct (status_ge e 500); [ reflexivity | ].
  destruct (status_is e 400); [ discriminate | ].
  destruct (status_is e 401); discriminate.
Qed.

Lemma exponential_nonneg (baseDelay : Q) (k : nat) :
  0 <= baseDelay -> 0 <= baseDelay * 2 ^ (Z.of_nat k - 1).
Proof.
  intros H. apply Qmult_le_0_compat; [ assumption | ].
  apply Qpower_0_le. discriminate.
Qed.

Lemma delay_honours_hint (e : JsError) (baseDelay : Q) (k : nat) (s : string) (N : Z) :
  0 <= baseDelay ->
  status_is e 429 = true -> header_of e = Some s -> s <> EmptyString ->
  parseInt s = IsInt N ->
  inject_Z N * 1000 <= backoffDelay (mapError e) baseDelay k.
Proof.
  intros Hb H429 Hh Hs HN. unfold backoffDelay.
  rewrite (mapError_429 e H429), Hh.
  destruct s as [|c s]; [ now elim Hs | ]. simpl orString. rewrite HN.
  destruct (Z.eqb_spec N 0) as [->|_].
  - pose proof (exponential_nonneg baseDelay k Hb). change (inject_Z 0) with 0. lra.
  - apply Qle_refl.
Qed.

Lemma delay_default_sixty (e : JsError) (baseDelay : Q) (k : nat) :
  status_is e 429 = true -> header_of e = None ->
  backoffDelay (mapError e) baseDelay k == 60000.
Proof.
  intros H429 Hh. unfold backoffDelay. rewrite (mapError_429 e H429), Hh.
  vm_compute. reflexivity.
Qed.

Lemma delay_exponential (e : JsError) (baseDelay : Q) (k : nat) :
  status_is e 429 = false -> retryable (mapError e) = true ->
  backoffDelay (mapError e) baseDelay k = baseDelay * 2 ^ (Z.of_nat k - 1).
Proof.
  intros H429 Hr. unfold backoffDelay.
  now rewrite (mapError_retryable_other e H429 Hr).
Qed.

Section RetryFacts.

Variable T : Type.
Variable operation : nat -> JsError + T.
Variable maxRetries : nat.
Variable baseDelay : Q.

Local Abbreviation run := (retryLoop operation maxRetries baseDelay).

Lemma retryLoop_unfold (remaining a : nat) :
  run (S remaining) a
  = match operation a with
    | inr v => ([Attempt a], inr v)
    | inl error =>
        if negb (retryable (mapError error)) || (a =? maxRetries)%nat
        then ([Attempt a], inl error)
        else
          let '(evs, r) := run remaining (S a) in
          (Attempt a :: Wait (backoffDelay (mapError error) baseDelay a) :: evs, r)
    end.
Proof. reflexivity. Qed.

Lemma retryLoop_starts (remaining a : nat) :
  exists tl, fst (run (S remaining) a) = Attempt a :: tl.
Proof.
  simpl.
  destruct (operation a) as [e|v]; [ | now exists [] ].
  destruct (negb (retryable (mapError e)) || (a =? maxRetries)%nat); [ now exists [] | ].
  destruct (retryLoop operation maxRetries baseDelay remaining (S a)) as [evs r].
  now eexists.
Qed.

Lemma retryLoop_range : forall remaining a k,
  attempted (fst (run remaining a)) k -> (a <= k < a + remaining)%nat.
Proof.
  unfold attempted.
  induction remaining as [|remaining IH]; intros a k; simpl; [ tauto | ].
  destruct (operation a) as [e|v].
  - destruct (negb (retryable (mapError e)) || (a =? maxRetries)%nat).
    + simpl. intros [H|[]]. injection H as <-. lia.
    + specialize (IH (S a) k).
      destruct (retryLoop operation maxRetries baseDelay remaining (S a)) as [evs r].
      simpl in *. intros [H|[H|H]]; [ injection H as <-; lia | discriminate | ].
      apply IH in H. lia.
  - simpl. intros [H|[]]. injection H as <-. lia.
Qed.

Lemma retryLoop_wait_before_retry : forall remaining a k,
  (a <= k)%nat ->
  attempted (fst (run remaining a)) (S k) ->
  exists e,
    operation k = inl e
    /\ retryable (mapError e) = true
    /\ waitsBetween (fst (run remaining a)) k (backoffDelay (mapError e) baseDelay k).
Proof.
  unfold attempted.
  induction remaining as [|remaining IH]; intros a k Hak; [ simpl; tauto | ].
  intros Hin.
  pose proof (retryLoop_range (S remaining) a (S k) Hin) as Hrange.
  revert Hin. simpl.
  destruct (operation a) as [e|v] eqn:Eop.
  - destruct (negb (retryable (mapError e)) || (a =? maxRetries)%nat) eqn:Estop.
    + simpl. intros [H|[]]. injection H as ->. lia.
    + apply orb_false_elim in Estop. destruct Estop as [Hretry _].
      apply negb_false_iff in Hretry.
      pose proof (IH (S a) k) as IHk.
      pose proof (retryLoop_range remaining (S a)) as Hr.
      destruct remaining as [|remaining'].
      { simpl. intros [H|[H|[]]]; [ injection H as ->; lia | discriminate ]. }
      destruct (retryLoop_starts remaining' (S a)) as [tl Htl].
      destruct (retryLoop operation maxRetries baseDelay (S remaining') (S a)) as [evs r].
      simpl in *. subst evs.
      intros [H|[H|H]]; [ injection H as ->; lia | discriminate | ].
      destruct (Nat.eq_dec k a) as [->|Hne].
      * exists e. repeat split; try assumption.
        exists [], tl. reflexivity.
      * destruct IHk as (e' & He' & Hre' & pre & post & Hw); [ lia | assumption | ].
        exists e'. repeat split; try assumption.
        exists (Attempt a :: Wait (backoffDelay (mapError e) baseDelay a) :: pre), post.
        simpl. now rewrite Hw.
  - simpl. intros [H|[]]. injection H as ->. lia.
Qed.

Lemma retryLoop_stops_when_not_retryable : forall remaining a k e,
  attempted (fst (run remaining a)) k ->
  operation k = inl e ->
  retryable (mapError e) = false ->
  snd (run remaining a) = inl e
  /\ forall j, attempted (fst (run remaining a)) j -> (j <= k)%nat.
Proof.
  unfold attempted.
  induction remaining as [|remaining IH]; intros a k e; [ simpl; tauto | ].
  intros Hin Hop Hnr.
  pose proof (retryLoop_range (S remaining) a k Hin) as Hrange.
  revert Hin. simpl.
  destruct (operation a) as [e0|v] eqn:Eop.
  - destruct (negb (retryable (mapError e0)) || (a =? maxRetries)%nat) eqn:Estop.
    + simpl. intros [H|[]]. injection H as <-.
      rewrite Eop in Hop. injection Hop as <-.
      split; [ reflexivity | ].
      intros j [Hj|[]]. injection Hj as <-. lia.
    + apply orb_false_elim in Estop. destruct Estop as [Hretry _].
      apply negb_false_iff in Hretry.
      pose proof (IH (S a) k e) as IHk.
      destruct (retryLoop operation maxRetries baseDelay remaining (S a)) as [evs r].
      simpl in *.
      intros [H|[H|H]]; [ | discriminate | ].
      * injection H as <-. rewrite Eop in Hop. injection Hop as <-. congruence.
      * destruct (IHk H Hop Hnr) as [Hres Hlast].
        split; [ assumption | ].
        intros j [Hj|[Hj|Hj]]; [ injection Hj as <-; lia | discriminate | now apply Hlast ].
  - simpl. intros [H|[]]. injection H as <-. rewrite Eop in Hop. discriminate.
Qed.

Lemma retryLoop_exhausted : forall remaining a,
  (a + S remaining = maxRetries + 1)%nat ->
  (forall k, (a <= k <= maxRetries)%nat ->
             exists e, operation k = inl e /\ retryable (mapError e) = true) ->
  exists e,
    operation maxRetries = inl e
    /\ snd (run (S remaining) a) = inl e
    /\ attempted (fst (run (S remaining) a)) maxRetries.
Proof.
  unfold attempted.
  induction remaining as [|remaining IH]; intros a Hsum Hall.
  - assert (a = maxRetries) by lia. subst a.
    destruct (Hall maxRetries) as (e & He & Hr); [ lia | ].
    exists e. simpl. rewrite He, Nat.eqb_refl, orb_true_r. simpl.
    repeat split; auto.
  - destruct (Hall a) as (e & He & Hr); [ lia | ].
    destruct (IH (S a)) as (e' & He' & Hres & Hin); [ lia | intros k Hk; apply Hall; lia | ].
    exists e'. split; [ assumption | ].
    rewrite retryLoop_unfold, He, Hr.
    destruct (Nat.eqb_spec a maxRetries) as [->|_]; [ lia | ]. simpl negb. simpl orb.
    destruct (run (S remaining) (S a)) as [evs r].
    simpl in *. split; [ assumption | tauto ].
Qed.

End RetryFacts.

(** C5, as amended. Under the retry policy, with a budget of at least one
    attempt and a non-negative base delay:
    - an attempt is repeated only after a retryable failure and a wait; after
      HTTP 429 with a [retry-after] header that parses to [N] the wait is at
      least [N] seconds; after HTTP 429 without the header it is 60 seconds;
      after any other retryable failure it is [base * 2 ^ (attempt - 1)];
    - a failure with HTTP 400 is rethrown at once and no attempt follows;
    - when every attempt of the budget fails with a retryable error, the
      error of the last attempt is the one thrown. *)
Theorem retry_policy :
  forall (T : Type) (operation : nat -> JsError + T) (maxRetries : nat) (baseDelay : Q),
    (1 <= maxRetries)%nat ->
    0 <= baseDelay ->
    (forall k,
        (1 <= k)%nat ->
        attempted (fst (retryWithBackoff operation maxRetries baseDelay)) (S k) ->
        exists e d,
          operation k = inl e
          /\ retryable (mapError e) = true
          /\ waitsBetween (fst (retryWithBackoff operation maxRetries baseDelay)) k d
          /\ (forall s N,
                 status_is e 429 = true -> header_of e = Some s -> s <> EmptyString ->
                 parseInt s = IsInt N -> inject_Z N * 1000 <= d)
          /\ (status_is e 429 = true -> header_of e = None -> d == 60000)
          /\ (status_is e 429 = false -> d = baseDelay * 2 ^ (Z.of_nat k - 1)))
    /\ (forall k e,
           attempted (fst (retryWithBackoff operation maxRetries baseDelay)) k ->
           operation k = inl e ->
           status_is e 400 = true ->
           snd (retryWithBackoff operation maxRetries baseDelay) = inl e
           /\ forall j,
               attempted (fst (retryWithBackoff operation maxRetries baseDelay)) j ->
               (j <= k)%nat)
    /\ ((forall k, (1 <= k <= maxRetries)%nat ->
                   exists e, operation k = inl e /\ retryable (mapError e) = true) ->
        exists e,
          operation maxRetries = inl e
          /\ snd (retryWithBackoff operation maxRetries baseDelay) = inl e
          /\ attempted (fst (retryWithBackoff operation maxRetries baseDelay)) maxRetries
          /\ forall j,
              attempted (fst (retryWithBackoff operation maxRetries baseDelay)) j ->
              (j <= maxRetries)%nat).
Proof.
  intros T operation maxRetries baseDelay Hbudget Hbase.
  unfold retryWithBackoff. split; [ | split ].
  - intros k Hk Hin.
    destruct (retryLoop_wait_before_retry T operation maxRetries baseDelay
                maxRetries 1 k Hk Hin) as (e & He & Hr & Hw).
    exists e, (backoffDelay (mapError e) baseDelay k).
    split; [ exact He | split; [ exact Hr | split; [ exact Hw | ] ] ].
    split; [ | split ].
    + intros s N H429 Hh Hs HN. now apply (delay_honours_hint e baseDelay k s N).
    + intros H429 Hh. now apply delay_default_sixty.
    + intros H429. now apply delay_exponential.
  - intros k e Hin Hop H400.
    apply (retryLoop_stops_when_not_retryable T operation maxRetries baseDelay
             maxRetries 1 k e Hin Hop (mapError_400_not_retryable e H400)).
  - intros Hall.
    destruct maxRetries as [|remaining]; [ lia | ].
    destruct (retryLoop_exhausted T operation (S remaining) baseDelay remaining 1)
      as (e & He & Hres & Hin); [ lia | assumption | ].
    exists e.
    split; [ exact He | split; [ exact Hres | split; [ exact Hin | ] ] ].
    intros j Hj.
    pose proof (retryLoop_range T operation (S remaining) baseDelay _ _ _ Hj). lia.
Qed.

(** Three attempts, each answered 429 with [retry-after: 5]: the second
    attempt comes after a wait of at least five seconds, and the last error
    is the one thrown. *)
Lemma retry_policy_witness :
  (1 <= 3)%nat
  /\ 0 <= 1000
  /\ attempted (fst (retryWithBackoff (T:=unit) (fun _ => inl (rateLimited (Some "5"%string))) 3 1000)) 2
  /\ exists e d,
       waitsBetween
         (fst (retryWithBackoff (T:=unit) (fun _ => inl (rateLimited (Some "5"%string))) 3 1000))
         1 d
       /\ (forall s N,
              status_is e 429 = true -> header_of e = Some s -> s <> EmptyString ->
              parseInt s = IsInt N -> inject_Z N * 1000 <= d).
Proof.
  assert (Hbudget : (1 <= 3)%nat) by lia.
  assert (Hbase : 0 <= 1000) by discriminate.
  assert (Hin : attempted
                  (fst (retryWithBackoff (T:=unit)
                          (fun _ => inl (rateLimited (Some "5"%string))) 3 1000)) 2)
    by (vm_compute; tauto).
  split; [ exact Hbudget | split; [ exact Hbase | split; [ exact Hin | ] ] ].
  destruct (retry_policy unit (fun _ => inl (rateLimited (Some "5"%string))) 3 1000
              Hbudget Hbase) as [Hwait _].
  destruct (Hwait 1%nat (le_n 1) Hin) as (e & d & _ & _ & Hw & Hhint & _).
  exists e, d. split; [ exact Hw | exact Hhint ].
Defined.

(** C5, counterexample. HTTP 429 without a [retry-after] header is a
    retryable failure without a server hint, yet the wait after the first
    attempt is 60000 ms, not [1000 * 2 ^ 0]. *)
Lemma backoff_without_hint_counterexample : ~ backoff_without_hint_as_specified.
Proof.
  intros H.
  specialize (H (fun _ => inl (rateLimited None)) 3%nat 1000 1%nat
                (rateLimited None) 60000 eq_refl eq_refl eq_refl).
  assert (Hw : waitsBetween
                 (fst (retryWithBackoff (T:=unit) (fun _ => inl (rateLimited None)) 3 1000))
                 1 60000).
  { exists [], [Wait 60000; Attempt 3]. reflexivity. }
  specialize (H Hw). vm_compute in H. discriminate H.
Qed.

(** ** The orchestrator's monad *)

Lemma extends_refl (w : World) : extends w w [] 0.
Proof. unfold extends. rewrite app_nil_r, Z.add_0_r. auto. Qed.

Lemma extends_trans (w1 w2 w3 : World) (e1 e2 : list Event) (d1 d2 : Z) :
  extends w1 w2 e1 d1 -> extends w2 w3 e2 d2 -> extends w1 w3 (e1 ++ e2) (d1 + d2).
Proof.
  unfold extends. intros (L1 & N1 & R1) (L2 & N2 & R2).
  rewrite L2, L1, N2, N1, R2, R1, app_assoc, Z.add_assoc. auto.
Qed.

Lemma bind_returned {A B} (c : M A) (k : A -> M B) (w w' : World) (a : A) :
  c w = (Returned a, w') -> bind c k w = k a w'.
Proof. unfold bind. now intros ->. Qed.

Lemma bind_thrown {A B} (c : M A) (k : A -> M B) (w w' : World) (e : JsError) :
  c w = (Thrown e, w') -> bind c k w = (Thrown e, w').
Proof. unfold bind. now intros ->. Qed.

Lemma tryCatch_returned {A} (c : M A) (h : JsError -> M A) (w w' : World) (a : A) :
  c w = (Returned a, w') -> tryCatch c h w = (Returned a, w').
Proof. unfold tryCatch. now intros ->. Qed.

Lemma tryCatch_thrown {A} (c : M A) (h : JsError -> M A) (w w' : World) (e : JsError) :
  c w = (Thrown e, w') -> tryCatch c h w = h e w'.
Proof. unfold tryCatch. now intros ->. Qed.

Lemma generateCalls_app (a b : list Event) :
  generateCalls (a ++ b) = generateCalls a ++ generateCalls b.
Proof. apply flat_map_app. Qed.

Lemma scoredProviders_app (a b : list Event) :
  scoredProviders (a ++ b) = scoredProviders a ++ scoredProviders b.
Proof. apply flat_map_app. Qed.

Lemma recordedMetrics_app (a b : list Event) :
  recordedMetrics (a ++ b) = recordedMetrics a ++ recordedMetrics b.
Proof. apply flat_map_app. Qed.

Lemma quiet_nil : quiet [].
Proof. split; reflexivity. Qed.

Lemma quiet_app (a b : list Event) : quiet a -> quiet b -> quiet (a ++ b).
Proof.
  intros [Ga Ra] [Gb Rb]. split.
  - now rewrite generateCalls_app, Ga, Gb.
  - now rewrite recordedMetrics_app, Ra, Rb.
Qed.

Lemma call_validateParams_spec (a : BaseImageProvider) (n : ImageProvider)
    (params : UnifiedImageParams) (w : World) :
  exists w',
    call_validateParams a n params w = (Returned (validateParams a params), w')
    /\ extends w w' [EvValidate n] 0.
Proof.
  eexists. split; [ reflexivity | ].
  unfold extends. simpl. rewrite Z.add_0_r. auto.
Qed.

Lemma call_generateImage_spec (a : BaseImageProvider) (n : ImageProvider)
    (params : UnifiedImageParams) (w : World) :
  exists w',
    call_generateImage a n params w
    = (match generateImage a params with
       | inr r => Returned r
       | inl e => Thrown e
       end, w')
    /\ extends w w'
         [EvGenerate n (match generateImage a params with
                        | inr _ => None
                        | inl e => Some e
                        end)]
         (latency a).
Proof.
  unfold call_generateImage.
  destruct (generateImage a params) as [e|r];
    (eexists; split; [ reflexivity | unfold extends; simpl; auto ]).
Qed.

Lemma cache_set_spec (key : string) (value : Metrics) (ttl : Z) (w : World) :
  exists w',
    cache_set key value ttl w = (Returned (redisUp w), w')
    /\ extends w w' [EvCacheSet key value ttl (redisUp w)] 0.
Proof.
  unfold cache_set, tryCatch, bind, redis_setEx_ok.
  destruct (redisUp w) eqn:Eup;
    (eexists; split; [ reflexivity | unfold extends; simpl; rewrite Z.add_0_r; auto ]).
Qed.

(** ** Selection *)

(** Splits a conjunction of four without unfolding its members. *)
Ltac split4 := split; [ | split; [ | split ] ].

Ltac nothing_happened :=
  split4; [ try reflexivity | apply extends_refl | apply quiet_nil | reflexivity ].

Section Selection.

Variable m : ProviderManager.
Variable params : UnifiedImageParams.

Local Abbreviation candidateOfEntry :=
  (fun entry : ImageProvider * BaseImageProvider =>
     if isProviderAvailable m (fst entry) && validateParams (snd entry) params
     then [Manager.candidateFor m params (fst entry) (snd entry)]
     else []).

Lemma emit_extends (w : World) (ev : Event) :
  extends w {| log := log w ++ [ev]; now := now w; redisUp := redisUp w |} [ev] 0.
Proof. unfold extends. simpl. rewrite Z.add_0_r. auto. Qed.

Lemma evaluateLoop_spec : forall entries candidates w,
  exists w' evs,
    Manager.evaluateLoop m params entries candidates w
    = (Returned (candidates ++ flat_map candidateOfEntry entries), w')
    /\ extends w w' evs 0
    /\ quiet evs
    /\ scoredProviders evs
       = map Manager.c_provider (flat_map candidateOfEntry entries).
Proof.
  induction entries as [|[n a] entries IH]; intros candidates w.
  - exists w, []. simpl. rewrite app_nil_r. nothing_happened.
  - simpl Manager.evaluateLoop. simpl flat_map.
    destruct (isProviderAvailable m n) eqn:Eav; simpl.
    + destruct (call_validateParams_spec a n params w) as (w1 & Hrun & Hext).
      rewrite (bind_returned _ _ _ _ _ Hrun).
      destruct (validateParams a params) eqn:Eval; simpl.
      * unfold bind at 1, emit. cbv beta iota.
        match goal with
        | |- context [Manager.evaluateLoop m params entries ?c ?w2] =>
            destruct (IH c w2) as (w' & evs & Hloop & Hext' & Hq & Hs)
        end.
        exists w', ([EvValidate n] ++ [EvScore n] ++ evs).
        rewrite Hloop, <- app_assoc. simpl app at 3.
        split4.
        -- reflexivity.
        -- change 0%Z with (0 + (0 + 0))%Z.
           eapply extends_trans; [ exact Hext | ].
           eapply extends_trans; [ apply emit_extends | exact Hext' ].
        -- apply (quiet_app [EvValidate n; EvScore n] evs); [ apply quiet_nil | exact Hq ].
        -- simpl. now rewrite Hs.
      * destruct (IH candidates w1) as (w' & evs & Hloop & Hext' & Hq & Hs).
        exists w', ([EvValidate n] ++ evs). rewrite Hloop.
        split4.
        -- reflexivity.
        -- change 0%Z with (0 + 0)%Z. eapply extends_trans; eassumption.
        -- apply (quiet_app [EvValidate n] evs); [ apply quiet_nil | exact Hq ].
        -- assumption.
    + destruct (IH candidates w) as (w' & evs & Hloop & Hext' & Hq & Hs).
      exists w', evs. rewrite Hloop. auto.
Qed.

Lemma evaluateProviders_spec (w : World) :
  exists w' evs,
    Manager.evaluateProviders m params w = (Returned (candidatesOf m params), w')
    /\ extends w w' evs 0
    /\ quiet evs
    /\ scoredProviders evs = map Manager.c_provider (candidatesOf m params).
Proof. apply (evaluateLoop_spec (providers m) [] w). Qed.

Lemma selectExplicit_spec (w : World) :
  exists w' evs,
    Manager.selectExplicit m params w = (Returned (explicitChoice m params), w')
    /\ extends w w' evs 0
    /\ quiet evs
    /\ scoredProviders evs = [].
Proof.
  unfold Manager.selectExplicit, explicitChoice.
  destruct (provider params) as [n|]; [ | exists w, []; nothing_happened ].
  destruct (isProviderAvailable m n); [ | exists w, []; nothing_happened ].
  destruct (providers_get (providers m) n) as [a|]; [ | exists w, []; nothing_happened ].
  destruct (call_validateParams_spec a n params w) as (w1 & Hrun & Hext).
  rewrite (bind_returned _ _ _ _ _ Hrun).
  exists w1, [EvValidate n].
  destruct (validateParams a params);
    (split4; [ reflexivity | exact Hext | apply quiet_nil | reflexivity ]).
Qed.

Lemma selectProvider_spec (w : World) :
  exists w' evs,
    Manager.selectProvider m params w = (selectionOf m params, w')
    /\ extends w w' evs 0
    /\ quiet evs
    /\ scoredProviders evs
       = match explicitChoice m params with
         | Some _ => []
         | None => map Manager.c_provider (candidatesOf m params)
         end.
Proof.
  unfold Manager.selectProvider, selectionOf.
  destruct (selectExplicit_spec w) as (w1 & evs1 & Hrun1 & Hext1 & Hq1 & Hs1).
  rewrite (bind_returned _ _ _ _ _ Hrun1).
  destruct (explicitChoice m params) as [selection|].
  - exists w1, evs1. auto.
  - destruct (evaluateProviders_spec w1) as (w2 & evs2 & Hrun2 & Hext2 & Hq2 & Hs2).
    rewrite (bind_returned _ _ _ _ _ Hrun2).
    exists w2, (evs1 ++ evs2).
    assert (Hext : extends w w2 (evs1 ++ evs2) 0)
      by (change 0%Z with (0 + 0)%Z; eapply extends_trans; eassumption).
    assert (Hs : scoredProviders (evs1 ++ evs2)
                 = map Manager.c_provider (candidatesOf m params))
      by (now rewrite scoredProviders_app, Hs1, Hs2).
    assert (Hq : quiet (evs1 ++ evs2)) by (now apply quiet_app).
    destruct (candidatesOf m params) as [|first rest];
      (split4; [ reflexivity | exact Hext | exact Hq | exact Hs ]).
Qed.

End Selection.

(** ** Sorting by a numeric key, largest first *)

Section SortFacts.

Variable A : Type.
Variable key : A -> Q.

Local Abbreviation byKeyDescending := (fun a b : A => key b - key a).
Local Abbreviation notBelow := (fun a b : A => key b <= key a).

Lemma sort_insert_perm (compareFn : A -> A -> Q) (x : A) (l : list A) :
  Permutation (sort_insert compareFn x l) (x :: l).
Proof.
  induction l as [|y l IH]; simpl; [ reflexivity | ].
  destruct (Qle_bool (compareFn x y) 0); [ reflexivity | ].
  rewrite IH. apply perm_swap.
Qed.

Lemma sort_perm (compareFn : A -> A -> Q) (l : list A) :
  Permutation (sort compareFn l) l.
Proof.
  induction l as [|x l IH]; simpl; [ reflexivity | ].
  rewrite sort_insert_perm. now constructor.
Qed.

Lemma insert_decision (x y : A) :
  (Qle_bool (key y - key x) 0 = true /\ key y <= key x)
  \/ (Qle_bool (key y - key x) 0 = false /\ key x < key y).
Proof.
  destruct (Qle_bool (key y - key x) 0) eqn:E.
  - left. split; [ reflexivity | ]. apply Qle_bool_iff in E. lra.
  - right. split; [ reflexivity | ].
    apply Qnot_le_lt. intros Hle.
    assert (Ht : Qle_bool (key y - key x) 0 = true) by (apply Qle_bool_iff; lra).
    congruence.
Qed.

Lemma sort_insert_sorted (x : A) (l : list A) :
  StronglySorted notBelow l -> StronglySorted notBelow (sort_insert byKeyDescending x l).
Proof.
  induction l as [|y l IH]; intros Hs; simpl.
  - repeat constructor.
  - inversion Hs as [|? ? Hsl Hall]; subst.
    destruct (insert_decision x y) as [[-> Hle] | [-> Hlt]].
    + constructor; [ assumption | ].
      constructor; [ assumption | ].
      eapply Forall_impl; [ | exact Hall ]. cbv beta. intros z Hz. lra.
    + constructor; [ now apply IH | ].
      eapply Permutation_Forall.
      * symmetry. apply sort_insert_perm.
      * constructor; [ lra | assumption ].
Qed.

Lemma sort_sorted (l : list A) : StronglySorted notBelow (sort byKeyDescending l).
Proof.
  induction l as [|x l IH]; simpl; [ constructor | now apply sort_insert_sorted ].
Qed.

(** Stability at the head: the first element of the sorted array is the
    first of the original array that has the greatest key. *)
Lemma sort_head_is_first_maximum : forall (l : list A) (d : A),
  l <> [] ->
  exists pre post,
    l = pre ++ List.hd d (sort byKeyDescending l) :: post
    /\ Forall (fun c => key c < key (List.hd d (sort byKeyDescending l))) pre
    /\ Forall (fun c => key c <= key (List.hd d (sort byKeyDescending l))) post.
Proof.
  induction l as [|x l IH]; intros d Hne; [ congruence | ].
  destruct l as [|y l'].
  - exists [], []. simpl. auto.
  - destruct (IH d) as (pre & post & Hl & Hpre & Hpost); [ discriminate | ].
    set (rest := y :: l') in *.
    change (sort byKeyDescending (x :: rest))
      with (sort_insert byKeyDescending x (sort byKeyDescending rest)).
    destruct (sort byKeyDescending rest) as [|b tl] eqn:Es.
    { pose proof (sort_perm byKeyDescending rest) as Hp. rewrite Es in Hp.
      apply Permutation_nil in Hp. discriminate. }
    simpl List.hd in Hl, Hpre, Hpost. simpl sort_insert.
    destruct (insert_decision x b) as [[-> Hle] | [-> Hlt]]; simpl List.hd.
    + exists [], rest. split; [ reflexivity | split; [ constructor | ] ].
      rewrite Hl. apply Forall_app. split.
      * eapply Forall_impl; [ | exact Hpre ]. cbv beta. intros z Hz. lra.
      * constructor; [ assumption | ].
        eapply Forall_impl; [ | exact Hpost ]. cbv beta. intros z Hz. lra.
    + exists (x :: pre), post. split; [ | split ].
      * simpl. now rewrite <- Hl.
      * constructor; assumption.
      * assumption.
Qed.

End SortFacts.



(** ** Fallback *)

Section Fallback.

Variable m : ProviderManager.
Variable params : UnifiedImageParams.

Local Abbreviation eligibleOne :=
  (fun p : ImageProvider =>
     match providers_get (providers m) p with
     | Some a =>
         if isProviderAvailable m p && validateParams a params then [(p, a)] else []
     | None => []
     end).

Ltac no_call :=
  split4; [ reflexivity | apply extends_refl | reflexivity | split; reflexivity ].

(** One iteration of the fallback loop: a fallback that is not registered,
    not available or not valid is passed over without a call; otherwise its
    [generateImage] is called once. *)
Lemma tryFallback_spec (n : ImageProvider) (w : World) :
  exists w' evs dt,
    extends w w' evs dt
    /\ scoredProviders evs = []
    /\ recordedMetrics evs = []
    /\ match eligibleOne n with
       | [] =>
           Manager.tryFallback m params n w = (Returned Manager.Continue, w')
           /\ generateCalls evs = []
       | (_, a) :: _ =>
           match generateImage a params with
           | inr r =>
               Manager.tryFallback m params n w = (Returned (Manager.Return r), w')
               /\ generateCalls evs = [(n, None)]
           | inl e =>
               Manager.tryFallback m params n w = (Returned (Manager.Caught e), w')
               /\ generateCalls evs = [(n, Some e)]
           end
       end.
Proof.
  unfold Manager.tryFallback.
  destruct (providers_get (providers m) n) as [a|];
    [ | exists w, [], 0%Z; split4; auto using extends_refl ].
  destruct (isProviderAvailable m n); simpl;
    [ | exists w, [], 0%Z; split4; auto using extends_refl ].
  destruct (call_validateParams_spec a n params w) as (w1 & Hval & Hext1).
  destruct (validateParams a params) eqn:Ev; simpl.
  - destruct (call_generateImage_spec a n params w1) as (w2 & Hgen & Hext2).
    pose proof (extends_trans _ _ _ _ _ _ _ Hext1 Hext2) as Hext.
    destruct (generateImage a params) as [e|r].
    + exists w2, ([EvValidate n] ++ [EvGenerate n (Some e)]), (0 + latency a)%Z.
      split4; try reflexivity; try assumption.
      split; [ | reflexivity ].
      unfold tryCatch. rewrite (bind_returned _ _ _ _ _ Hval). cbn [negb].
      now rewrite (bind_thrown _ _ _ _ _ Hgen).
    + exists w2, ([EvValidate n] ++ [EvGenerate n None]), (0 + latency a)%Z.
      split4; try reflexivity; try assumption.
      split; [ | reflexivity ].
      unfold tryCatch. rewrite (bind_returned _ _ _ _ _ Hval). cbn [negb].
      now rewrite (bind_returned _ _ _ _ _ Hgen).
  - exists w1, [EvValidate n], 0%Z.
    split4; try reflexivity; try assumption.
    split; [ | reflexivity ].
    unfold tryCatch. now rewrite (bind_returned _ _ _ _ _ Hval).
Qed.

Lemma last_cons_default {X} (x d : X) (l : list X) : List.last (x :: l) d = List.last l x.
Proof.
  revert x d. induction l as [|y l IH]; intros x d; [ reflexivity | ].
  change (List.last (x :: y :: l) d) with (List.last (y :: l) d).
  now rewrite !IH.
Qed.

Lemma fallbackLoop_spec : forall (names : list ImageProvider) (lastError : JsError) (w : World),
  exists w' evs dt,
    Manager.fallbackLoop m params names lastError w
    = (fallbackOutcome params lastError (flat_map eligibleOne names), w')
    /\ extends w w' evs dt
    /\ generateCalls evs = attemptsUntilSuccess params (flat_map eligibleOne names)
    /\ scoredProviders evs = []
    /\ recordedMetrics evs = [].
Proof.
  induction names as [|n names IH]; intros lastError w.
  - exists w, [], 0%Z. simpl. repeat split; auto using extends_refl.
    + unfold extends. now rewrite app_nil_r.
    + unfold extends. now rewrite Z.add_0_r.
  - destruct (tryFallback_spec n w) as (w1 & evs1 & dt1 & Hext1 & Hs1 & Hm1 & Hit).
    simpl Manager.fallbackLoop. simpl flat_map.
    destruct (eligibleOne n) as [|[p a] tl] eqn:Eone.
    + destruct Hit as [Hrun Hc1].
      rewrite (bind_returned _ _ _ _ _ Hrun).
      destruct (IH lastError w1) as (w' & evs & dt & Hloop & Hext & Hc & Hs & Hm).
      exists w', (evs1 ++ evs), (dt1 + dt)%Z. rewrite Hloop. simpl app.
      split; [ reflexivity | ].
      split; [ eapply extends_trans; eassumption | ].
      rewrite generateCalls_app, scoredProviders_app, recordedMetrics_app.
      rewrite Hc1, Hs1, Hm1, Hc, Hs, Hm. auto.
    + assert (Htl : tl = [] /\ p = n).
      { destruct (providers_get (providers m) n) as [a0|]; [ | discriminate ].
        destruct (isProviderAvailable m n && validateParams a0 params);
          [ | discriminate ].
        injection Eone as <- _ <-. auto. }
      destruct Htl as [-> ->]. simpl app.
      unfold fallbackOutcome, allFailed. simpl attemptsUntilSuccess. simpl firstSuccess.
      destruct (generateImage a params) as [e|r] eqn:Egen.
      * destruct Hit as [Hrun Hc1].
        rewrite (bind_returned _ _ _ _ _ Hrun).
        destruct (IH e w1) as (w' & evs & dt & Hloop & Hext & Hc & Hs & Hm).
        exists w', (evs1 ++ evs), (dt1 + dt)%Z. rewrite Hloop.
        split.
        { unfold fallbackOutcome, allFailed.
          destruct (firstSuccess params (flat_map eligibleOne names));
            [ reflexivity | ].
          simpl failuresOf. now rewrite last_cons_default. }
        split; [ eapply extends_trans; eassumption | ].
        rewrite generateCalls_app, scoredProviders_app, recordedMetrics_app.
        rewrite Hc1, Hs1, Hm1, Hc, Hs, Hm. auto.
      * destruct Hit as [Hrun Hc1].
        rewrite (bind_returned _ _ _ _ _ Hrun).
        exists w1, evs1, dt1. auto.
Qed.

Lemma generateWithFallback_spec (primary : BaseImageProvider) (w : World) :
  exists w' evs dt,
    Manager.generateWithFallback m primary params w
    = (withFallbackOutcome m primary params, w')
    /\ extends w w' evs dt
    /\ generateCalls evs = withFallbackCalls m primary params
    /\ scoredProviders evs = []
    /\ recordedMetrics evs = [].
Proof.
  unfold Manager.generateWithFallback, withFallbackOutcome, withFallbackCalls.
  destruct (call_generateImage_spec primary (getName primary) params w)
    as (w1 & Hgen & Hext1).
  destruct (generateImage primary params) as [e|r].
  - destruct (fallbackLoop_spec (Manager.getFallbackProviders m (getName primary)) e w1)
      as (w' & evs & dt & Hloop & Hext & Hc & Hs & Hm).
    exists w', ([EvGenerate (getName primary) (Some e)] ++ evs), (latency primary + dt)%Z.
    split.
    { erewrite bind_returned;
        [ | erewrite tryCatch_thrown;
            [ reflexivity | erewrite bind_thrown; [ reflexivity | exact Hgen ] ] ].
      exact Hloop. }
    split; [ eapply extends_trans; eassumption | ].
    rewrite generateCalls_app, scoredProviders_app, recordedMetrics_app, Hc, Hs, Hm.
    auto.
  - exists w1, [EvGenerate (getName primary) None], (latency primary).
    split.
    { erewrite bind_returned;
        [ | erewrite tryCatch_returned;
            [ reflexivity | erewrite bind_returned; [ reflexivity | exact Hgen ] ] ].
      reflexivity. }
    auto.
Qed.

End Fallback.

(** ** Metrics and the entry point *)

Lemma recordSuccess_spec (p : ImageProvider) (duration : Z) (cost : Q) (w : World) :
  exists w',
    Manager.recordSuccess p duration cost w = (Returned tt, w')
    /\ extends w w'
         [EvCacheSet (Manager.metricsKey (ImageProvider_to_string p) (now w))
            {| m_provider := ImageProvider_to_string p; m_success := true;
               m_duration := duration; m_cost := Some cost;
               m_timestamp := now w |}
            86400 (redisUp w)] 0.
Proof.
  unfold Manager.recordSuccess. unfold bind at 1. unfold Date_now. cbv beta iota.
  match goal with
  | |- context [cache_set ?k ?v ?t] =>
      destruct (cache_set_spec k v t w) as (w' & Hrun & Hext)
  end.
  exists w'. rewrite (bind_returned _ _ _ _ _ Hrun). auto.
Qed.

Lemma recordFailure_spec (p : string) (duration : Z) (w : World) :
  exists w',
    Manager.recordFailure p duration w = (Returned tt, w')
    /\ extends w w'
         [EvCacheSet (Manager.metricsKey p (now w))
            {| m_provider := p; m_success := false;
               m_duration := duration; m_cost := None;
               m_timestamp := now w |}
            86400 (redisUp w)] 0.
Proof.
  unfold Manager.recordFailure. unfold bind at 1. unfold Date_now. cbv beta iota.
  match goal with
  | |- context [cache_set ?k ?v ?t] =>
      destruct (cache_set_spec k v t w) as (w' & Hrun & Hext)
  end.
  exists w'. rewrite (bind_returned _ _ _ _ _ Hrun). auto.
Qed.

Section Request.

Variable m : ProviderManager.
Variable params : UnifiedImageParams.

(** The [catch] block of [generateImage]: one failure metric, then the
    error is rethrown as it is. *)
Lemma catch_block_spec (startTime : Z) (error : JsError) (w : World) :
  exists w',
    (t <- Date_now ;;
     Manager.recordFailure (requestedProvider params) (t - startTime) ;;;
     (throw error : M ImageResult)) w
    = (Thrown error, w')
    /\ extends w w'
         [EvCacheSet (Manager.metricsKey (requestedProvider params) (now w))
            {| m_provider := (requestedProvider params); m_success := false;
               m_duration := now w - startTime; m_cost := None;
               m_timestamp := now w |}
            86400 (redisUp w)] 0.
Proof.
  unfold bind at 1. unfold Date_now. cbv beta iota.
  destruct (recordFailure_spec (requestedProvider params) (now w - startTime) w)
    as (w' & Hrun & Hext).
  exists w'. rewrite (bind_returned _ _ _ _ _ Hrun). auto.
Qed.

(** [generateImage] computes [requestOutcome]; its adapter calls are
    [requestCalls]; and it writes one metrics record, last. *)
Lemma generateImage_spec (w : World) :
  exists w' evs dt key v,
    Manager.generateImage m params w = (requestOutcome m params, w')
    /\ extends w w' (evs ++ [EvCacheSet key v 86400 (redisUp w)]) dt
    /\ generateCalls evs = requestCalls m params
    /\ recordedMetrics evs = []
    /\ scoredProviders evs
       = match explicitChoice m params with
         | Some _ => []
         | None => map Manager.c_provider (candidatesOf m params)
         end
    /\ m_duration v = dt
    /\ metricMatches m params v.
Proof.
  unfold Manager.generateImage. unfold bind at 1. unfold Date_now at 1. cbv beta iota.
  destruct (selectProvider_spec m params w) as (w1 & evs1 & Hsel & Hext1 & [Hc1 Hm1] & Hs1).
  assert (Hup1 : redisUp w1 = redisUp w) by apply Hext1.
  assert (Hnow1 : now w1 = (now w + 0)%Z) by apply Hext1.
  unfold metricMatches, requestOutcome, requestCalls.
  destruct (selectionOf m params) as [selection|e0] eqn:Eselection.
  - destruct (providers_get (providers m) (Manager.sel_provider selection))
      as [primary|] eqn:Eprimary.
    + destruct (generateWithFallback_spec m params primary w1)
        as (w2 & evs2 & dt2 & Hgwf & Hext2 & Hc2 & Hs2 & Hm2).
      assert (Hup2 : redisUp w2 = redisUp w) by (rewrite <- Hup1; apply Hext2).
      assert (Hnow2 : now w2 = (now w + dt2)%Z)
        by (destruct Hext2 as (_ & -> & _); rewrite Hnow1; lia).
      pose proof (extends_trans _ _ _ _ _ _ _ Hext1 Hext2) as Hext12.
      destruct (withFallbackOutcome m primary params) as [r|e] eqn:Eout.
      * destruct (recordSuccess_spec (Manager.sel_provider selection)
                    (now w2 - now w) (meta_cost r) w2) as (w3 & Hrec & Hext3).
        pose proof (extends_trans _ _ _ _ _ _ _ Hext12 Hext3) as Hext.
        rewrite Hup2 in Hext.
        eexists w3, (evs1 ++ evs2), (0 + dt2 + 0)%Z, _, _.
        split.
        { erewrite tryCatch_returned; [ reflexivity | ].
          rewrite (bind_returned _ _ _ _ _ Hsel), Eprimary.
          rewrite (bind_returned _ _ _ _ _ Hgwf).
          unfold bind at 1. unfold Date_now at 1. cbv beta iota.
          now rewrite (bind_returned _ _ _ _ _ Hrec). }
        split; [ exact Hext | ].
        rewrite generateCalls_app, recordedMetrics_app, scoredProviders_app.
        rewrite Hc1, Hm1, Hs1, Hc2, Hm2, Hs2, ?app_nil_r. simpl.
        repeat split; auto. lia.
      * destruct (catch_block_spec (now w) e w2) as (w3 & Hrec & Hext3).
        pose proof (extends_trans _ _ _ _ _ _ _ Hext12 Hext3) as Hext.
        rewrite Hup2 in Hext.
        eexists w3, (evs1 ++ evs2), (0 + dt2 + 0)%Z, _, _.
        split.
        { erewrite tryCatch_thrown; [ exact Hrec | ].
          rewrite (bind_returned _ _ _ _ _ Hsel), Eprimary.
          now rewrite (bind_thrown _ _ _ _ _ Hgwf). }
        split; [ exact Hext | ].
        rewrite generateCalls_app, recordedMetrics_app, scoredProviders_app.
        rewrite Hc1, Hm1, Hs1, Hc2, Hm2, Hs2, ?app_nil_r. simpl.
        repeat split; auto. lia.
    + destruct (catch_block_spec (now w)
                  (Error ("Provider "
                          ++ ImageProvider_to_string (Manager.sel_provider selection)
                          ++ " not available")) w1) as (w3 & Hrec & Hext3).
      pose proof (extends_trans _ _ _ _ _ _ _ Hext1 Hext3) as Hext.
      rewrite Hup1 in Hext.
      eexists w3, evs1, (0 + 0)%Z, _, _.
      split.
      { erewrite tryCatch_thrown; [ exact Hrec | ].
        now rewrite (bind_returned _ _ _ _ _ Hsel), Eprimary. }
      split; [ exact Hext | ].
      rewrite Hc1, Hm1, Hs1. simpl. repeat split; auto. lia.
  - destruct (catch_block_spec (now w) e0 w1) as (w3 & Hrec & Hext3).
    pose proof (extends_trans _ _ _ _ _ _ _ Hext1 Hext3) as Hext.
    rewrite Hup1 in Hext.
    eexists w3, evs1, (0 + 0)%Z, _, _.
    split.
    { erewrite tryCatch_thrown; [ exact Hrec | ].
      now rewrite (bind_thrown _ _ _ _ _ Hsel). }
    split; [ exact Hext | ].
    rewrite Hc1, Hm1, Hs1. simpl. repeat split; auto. lia.
Qed.

End Request.

(** ** Fallback order and outcome *)

Lemma available_registered (m : ProviderManager) (n : ImageProvider) :
  isProviderAvailable m n = true ->
  exists a, providers_get (providers m) n = Some a.
Proof.
  unfold isProviderAvailable, providers_has.
  destruct (providers_get (providers m) n) as [a|]; [ now exists a | discriminate ].
Qed.

(** C2. When the primary adapter's call fails, the fallback order is the
    registered adapters other than the one tried, by descending configured
    priority; those of it that are available and validate are called in
    that order until one succeeds (the others are passed over without a call
    and without an error); the first success is the result returned, and the
    request that selected this primary returns it and records a success. *)
Theorem fallback_in_priority_order :
  forall (m : ProviderManager) (primary : BaseImageProvider)
         (params : UnifiedImageParams) (w : World) (e : JsError),
    generateImage primary params = inl e ->
    Permutation (Manager.getFallbackProviders m (getName primary))
      (filter (fun p => negb (ImageProvider_eqb p (getName primary))
                        && providers_has (providers m) p)
              Manager.allProviders)
    /\ StronglySorted (fun a b => priority (config m b) <= priority (config m a))
         (Manager.getFallbackProviders m (getName primary))
    /\ (exists w' evs dt,
           Manager.generateWithFallback m primary params w
           = (fallbackOutcome params e (eligibleFallbacks m params (getName primary)), w')
           /\ extends w w' evs dt
           /\ generateCalls evs
              = (getName primary, Some e)
                :: attemptsUntilSuccess params
                     (eligibleFallbacks m params (getName primary))
           /\ forall r,
               firstSuccess params (eligibleFallbacks m params (getName primary)) = Some r ->
               Manager.generateWithFallback m primary params w = (Returned r, w'))
    /\ (forall (t0 : Z) (redis : bool) (selection : Manager.ProviderSelection)
               (r : ImageResult),
           fst (Manager.selectProvider m params (freshWorld t0 redis)) = Returned selection ->
           providers_get (providers m) (Manager.sel_provider selection) = Some primary ->
           firstSuccess params (eligibleFallbacks m params (getName primary)) = Some r ->
           exists w' v,
             Manager.generateImage m params (freshWorld t0 redis) = (Returned r, w')
             /\ recordedMetrics (log w') = [(v, redis)]
             /\ m_success v = true).
Proof.
  intros m primary params w e Hfail.
  split; [ apply sort_perm | ].
  split; [ apply (sort_sorted _ (fun p => priority (config m p))) | ].
  split.
  - destruct (generateWithFallback_spec m params primary w)
      as (w' & evs & dt & Hrun & Hext & Hcalls & _).
    unfold withFallbackOutcome, withFallbackCalls in *. rewrite Hfail in *.
    exists w', evs, dt. split4; try assumption.
    intros r Hfirst. rewrite Hrun. unfold fallbackOutcome. now rewrite Hfirst.
  - intros t0 redis selection r Hsel Hreg Hfirst.
    destruct (selectProvider_spec m params (freshWorld t0 redis)) as (w1 & evs1 & Hs & _).
    rewrite Hs in Hsel. simpl in Hsel.
    assert (Hout : requestOutcome m params = Returned r).
    { unfold requestOutcome. rewrite Hsel, Hreg.
      unfold withFallbackOutcome, fallbackOutcome. now rewrite Hfail, Hfirst. }
    destruct (generateImage_spec m params (freshWorld t0 redis))
      as (w' & evs & dt & key & v & Hrun & (Hlog & _) & _ & Hm & _ & _ & (Hflag & _)).
    simpl in Hlog.
    exists w', v. rewrite Hrun, Hout, Hlog, recordedMetrics_app, Hm, Hflag, Hout.
    auto.
Qed.

(** Stable Diffusion (priority 3) is selected and fails; Imagen (priority 1)
    is tried next and its result is the result of the request. *)
Lemma fallback_in_priority_order_witness :
  generateImage failingStableDiffusion sampleParams = inl serverError
  /\ (exists w' evs dt,
         Manager.generateWithFallback sdFailsImagenAnswers failingStableDiffusion
           sampleParams (freshWorld 0 true)
         = (Returned (sampleResult imagen4 0.03), w')
         /\ extends (freshWorld 0 true) w' evs dt
         /\ generateCalls evs = [(stableDiffusion, Some serverError); (imagen4, None)])
  /\ exists w' v,
       Manager.generateImage sdFailsImagenAnswers sampleParams (freshWorld 0 true)
       = (Returned (sampleResult imagen4 0.03), w')
       /\ recordedMetrics (log w') = [(v, true)]
       /\ m_success v = true.
Proof.
  assert (Hfail : generateImage failingStableDiffusion sampleParams = inl serverError)
    by reflexivity.
  split; [ exact Hfail | ].
  destruct (fallback_in_priority_order sdFailsImagenAnswers failingStableDiffusion
              sampleParams (freshWorld 0 true) serverError Hfail)
    as (_ & _ & (w' & evs & dt & _ & Hext & Hcalls & Hfirst) & Hrequest).
  split.
  - exists w', evs, dt.
    split; [ apply Hfirst; reflexivity | split; [ exact Hext | exact Hcalls ] ].
  - eapply (Hrequest 0%Z true); reflexivity.
Defined.

(** ** The all-fail error *)





(** ** Explicit provider *)

Lemma explicitChoice_none_cases (m : ProviderManager) (params : UnifiedImageParams) :
  explicitChoice m params = None ->
  provider params = None
  \/ exists name,
       provider params = Some name
       /\ (isProviderAvailable m name = false
           \/ exists a, providers_get (providers m) name = Some a
                        /\ validateParams a params = false).
Proof.
  unfold explicitChoice.
  destruct (provider params) as [name|]; [ | now left ].
  intros H. right. exists name. split; [ reflexivity | ].
  destruct (isProviderAvailable m name) eqn:Eav; [ | now left ].
  destruct (available_registered m name Eav) as [a Ha]. rewrite Ha in H.
  destruct (validateParams a params) eqn:Ev; [ discriminate | ].
  right. now exists a.
Qed.

(** C3. A request that names a provider which is available and whose
    validation passes is given that provider with confidence 1.0 and the
    scorer does not run; when that adapter's call succeeds it is the only
    adapter call of the request and its result is returned.  Conversely the
    scorer runs only when no provider is named, or the named one is
    unavailable or does not validate. *)
Theorem explicit_provider_selected_outright :
  forall (m : ProviderManager) (params : UnifiedImageParams) (t0 : Z) (redis : bool),
    (forall (name : ImageProvider) (a : BaseImageProvider),
        provider params = Some name ->
        isProviderAvailable m name = true ->
        providers_get (providers m) name = Some a ->
        validateParams a params = true ->
        (exists w',
            Manager.selectProvider m params (freshWorld t0 redis)
            = (Returned {| Manager.sel_provider := name;
                           Manager.sel_reason := "User specified";
                           Manager.estimatedCost := totalCost (estimateCost a params);
                           Manager.confidence := 1.0 |}, w')
            /\ scoredProviders (log w') = [])
        /\ (forall r,
               generateImage a params = inr r ->
               exists w',
                 Manager.generateImage m params (freshWorld t0 redis) = (Returned r, w')
                 /\ generateCalls (log w') = [(getName a, None)]
                 /\ scoredProviders (log w') = []))
    /\ (forall out w',
           Manager.selectProvider m params (freshWorld t0 redis) = (out, w') ->
           scoredProviders (log w') <> [] ->
           provider params = None
           \/ exists name,
                provider params = Some name
                /\ (isProviderAvailable m name = false
                    \/ exists a, providers_get (providers m) name = Some a
                                 /\ validateParams a params = false)).
Proof.
  intros m params t0 redis. split.
  - intros name a Hname Hav Hreg Hval.
    assert (Hchoice : explicitChoice m params
                      = Some {| Manager.sel_provider := name;
                                Manager.sel_reason := "User specified";
                                Manager.estimatedCost := totalCost (estimateCost a params);
                                Manager.confidence := 1.0 |})
      by (unfold explicitChoice; now rewrite Hname, Hav, Hreg, Hval).
    assert (Hsel : selectionOf m params
                   = Returned {| Manager.sel_provider := name;
                                 Manager.sel_reason := "User specified";
                                 Manager.estimatedCost := totalCost (estimateCost a params);
                                 Manager.confidence := 1.0 |})
      by (unfold selectionOf; now rewrite Hchoice).
    split.
    + destruct (selectProvider_spec m params (freshWorld t0 redis))
        as (w' & evs & Hrun & (Hlog & _) & _ & Hs).
      exists w'. rewrite Hrun, Hsel, Hlog, Hchoice in *. auto.
    + intros r Hr.
      destruct (generateImage_spec m params (freshWorld t0 redis))
        as (w' & evs & dt & key & v & Hrun & (Hlog & _) & Hcalls & _ & Hs & _).
      exists w'. rewrite Hrun, Hlog. simpl.
      rewrite generateCalls_app, scoredProviders_app, Hcalls, Hs, Hchoice.
      unfold requestOutcome, requestCalls. rewrite Hsel. simpl. rewrite Hreg.
      unfold withFallbackOutcome, withFallbackCalls. rewrite Hr. auto.
  - intros out w' Hrun Hscored.
    apply explicitChoice_none_cases.
    destruct (selectProvider_spec m params (freshWorld t0 redis))
      as (w2 & evs & Hspec & (Hlog & _) & _ & Hs).
    rewrite Hspec in Hrun. injection Hrun as _ <-.
    simpl in Hlog. rewrite Hlog, Hs in Hscored.
    destruct (explicitChoice m params); [ now elim Hscored | reflexivity ].
Qed.

Lemma explicit_provider_selected_outright_witness :
  provider explicitImagenParams = Some imagen4
  /\ isProviderAvailable sdFailsImagenAnswers imagen4 = true
  /\ providers_get (providers sdFailsImagenAnswers) imagen4 = Some answeringImagen
  /\ validateParams answeringImagen explicitImagenParams = true
  /\ generateImage answeringImagen explicitImagenParams = inr (sampleResult imagen4 0.03)
  /\ exists w',
       Manager.generateImage sdFailsImagenAnswers explicitImagenParams (freshWorld 0 true)
       = (Returned (sampleResult imagen4 0.03), w')
       /\ generateCalls (log w') = [(imagen4, None)]
       /\ scoredProviders (log w') = [].
Proof.
  assert (H1 : provider explicitImagenParams = Some imagen4) by reflexivity.
  assert (H2 : isProviderAvailable sdFailsImagenAnswers imagen4 = true) by reflexivity.
  assert (H3 : providers_get (providers sdFailsImagenAnswers) imagen4
               = Some answeringImagen) by reflexivity.
  assert (H4 : validateParams answeringImagen explicitImagenParams = true)
    by reflexivity.
  assert (H5 : generateImage answeringImagen explicitImagenParams
               = inr (sampleResult imagen4 0.03)) by reflexivity.
  repeat (split; [ assumption | ]).
  destruct (explicit_provider_selected_outright sdFailsImagenAnswers
              explicitImagenParams 0 true) as [Hexplicit _].
  destruct (Hexplicit imagen4 answeringImagen H1 H2 H3 H4) as [_ Hone].
  exact (Hone _ H5).
Defined.

(** ** Metrics *)

(** C9, as amended. A request writes exactly one metrics record, whatever
    the number of adapter calls: its success flag is the outcome of the
    request, its duration is the time the request took, and its cost is the
    cost of the returned result (absent on failure).  The write uses a
    24-hour expiry, and whether Redis accepts it does not change the
    outcome of the request. *)
Theorem one_metric_per_request :
  forall (m : ProviderManager) (params : UnifiedImageParams) (t0 : Z) (redis : bool),
    (exists w' v,
        Manager.generateImage m params (freshWorld t0 redis)
        = (requestOutcome m params, w')
        /\ recordedMetrics (log w') = [(v, redis)]
        /\ m_success v = is_returned (requestOutcome m params)
        /\ m_duration v = (now w' - t0)%Z
        /\ m_cost v = match requestOutcome m params with
                      | Returned r => Some (meta_cost r)
                      | Thrown _ => None
                      end)
    /\ fst (Manager.generateImage m params (freshWorld t0 true))
       = fst (Manager.generateImage m params (freshWorld t0 false)).
Proof.
  intros m params t0 redis. split.
  - destruct (generateImage_spec m params (freshWorld t0 redis))
      as (w' & evs & dt & key & v & Hrun & (Hlog & Hnow & _) & _ & Hm & _ & Hd & Hv).
    exists w', v. simpl in Hlog, Hnow.
    rewrite Hrun, Hlog, recordedMetrics_app, Hm, Hnow, Hd.
    destruct Hv as (Hs & Hc & _).
    repeat split; auto. lia.
  - destruct (generateImage_spec m params (freshWorld t0 true)) as (w1 & ? & ? & ? & ? & H1 & _).
    destruct (generateImage_spec m params (freshWorld t0 false)) as (w2 & ? & ? & ? & ? & H2 & _).
    now rewrite H1, H2.
Qed.

(** C9, counterexample. Stable Diffusion fails and Imagen answers: two
    adapter calls, one metrics record, and none for the failed call. *)
Lemma attempts_not_recorded_counterexample :
  ~ everyAttemptRecorded
      (log (snd (Manager.generateImage sdFailsImagenAnswers sampleParams
                   (freshWorld 1000 true)))).
Proof.
  intros H.
  destruct (H stableDiffusion (Some serverError)) as (v & stored & Hin & _ & Hflag).
  - vm_compute. auto.
  - vm_compute in Hin. destruct Hin as [Hin|[]].
    injection Hin as <- _. discriminate Hflag.
Qed.

(** * Further properties *)

(** ** What [standardizeImageSize] returns, as a multiplier of 64 *)


Lemma standardizeDimension_multiplier (d : option Q) :
  exists k, (4 <= k <= 32)%Z /\ standardizeDimension d = inject_Z k * 64.
Proof.
  destruct d as [v|]; simpl.
  - destruct (Qeq_bool v 0).
    + exists 16%Z. split; [ lia | reflexivity ].
    + destruct (clamp_within v) as [Hlo Hhi].
      exists (Math_round (Qmax 256 (Qmin 2048 v) / 64)).
      split; [ now apply Math_round_bounds | reflexivity ].
  - exists 16%Z. split; [ lia | reflexivity ].
Qed.

Lemma multiplier_listed (k : Z) : (4 <= k <= 32)%Z -> In k multipliers64.
Proof.
  intros Hk. unfold multipliers64.
  replace k with (Z.of_nat (Z.to_nat k)) by lia.
  apply in_map, in_seq. lia.
Qed.

Lemma Qlt_bool_true (a b : Q) : Qlt_bool a b = true -> a < b.
Proof.
  unfold Qlt_bool. intros H. apply negb_true_iff in H.
  apply Qnot_le_lt. intros Hle. apply Qle_bool_iff in Hle. congruence.
Qed.

Lemma Qlt_bool_false (a b : Q) : Qlt_bool a b = false -> b <= a.
Proof.
  unfold Qlt_bool. intros H. apply negb_false_iff in H. now apply Qle_bool_iff.
Qed.

Lemma Qlt_bool_false_intro (a b : Q) : b <= a -> Qlt_bool a b = false.
Proof.
  intros H. unfold Qlt_bool. apply negb_false_iff. now apply Qle_bool_iff.
Qed.

Lemma Qlt_bool_true_intro (a b : Q) : a < b -> Qlt_bool a b = true.
Proof.
  intros H. destruct (Qlt_bool a b) eqn:E; [ reflexivity | ].
  apply Qlt_bool_false in E. lra.
Qed.

(** ** DALL-E: size mapping, prompt and cost of a validated request *)

Lemma closestLoop_spec (width height : Q) :
  forall (l : list DalleRequest.SizeOption) (c : DalleRequest.SizeOption) (d : Q),
    d = DalleRequest.distance width height c ->
    In (DalleRequest.closestLoop width height l c d) (c :: l)
    /\ DalleRequest.distance width height (DalleRequest.closestLoop width height l c d) <= d
    /\ forall s, In s l ->
         DalleRequest.distance width height (DalleRequest.closestLoop width height l c d)
         <= DalleRequest.distance width height s.
Proof.
  induction l as [|s l IH]; intros c d Hd; simpl.
  - split; [ now left | split; [ subst d; apply Qle_refl | tauto ] ].
  - destruct (Qlt_bool (DalleRequest.distance width height s) d) eqn:E.
    + apply Qlt_bool_true in E.
      destruct (IH s _ eq_refl) as (Hin & Hle & Hall).
      split; [ right; exact Hin | split; [ lra | ] ].
      intros s' [<- | Hs']; [ exact Hle | now apply Hall ].
    + apply Qlt_bool_false in E.
      destruct (IH c d Hd) as (Hin & Hle & Hall).
      split; [ destruct Hin as [Hin|Hin]; [ now left | right; now right ] | ].
      split; [ exact Hle | ].
      intros s' [<- | Hs']; [ lra | now apply Hall ].
Qed.

(** X1. [mapToValidSize] always answers one of the three sizes DALL-E
    declares as supported, and none of the three is nearer (in the sum of
    the absolute differences of width and height) to the size asked for. *)
Theorem mapToValidSize_nearest_supported :
  forall width height : Q,
    exists s,
      In s DalleRequest.sizes
      /\ DalleRequest.mapToValidSize width height = DalleRequest.size s
      /\ In (DalleRequest.mapToValidSize width height)
            (supportedSizes Dalle.getCapabilities)
      /\ forall s', In s' DalleRequest.sizes ->
           DalleRequest.distance width height s <= DalleRequest.distance width height s'.
Proof.
  intros width height. unfold DalleRequest.mapToValidSize.
  destruct (closestLoop_spec width height DalleRequest.sizes DalleRequest.sizes0 _ eq_refl)
    as (Hin & _ & Hall).
  set (r := DalleRequest.closestLoop width height DalleRequest.sizes DalleRequest.sizes0
              (DalleRequest.distance width height DalleRequest.sizes0)) in *.
  assert (Hr : In r DalleRequest.sizes)
    by (destruct Hin as [<- | Hin]; [ now left | exact Hin ]).
  exists r. split; [ exact Hr | split; [ reflexivity | split; [ | exact Hall ] ] ].
  simpl in Hr. destruct Hr as [<- | [<- | [<- | []]]]; simpl; auto.
Qed.

Lemma dalle_sizes_checked :
  forallb (fun k => forallb (dalleSizeChecked k) multipliers64) multipliers64 = true.
Proof. vm_compute. reflexivity. Qed.

Lemma dalle_accepted_size (k k' : Z) :
  (4 <= k <= 32)%Z -> (4 <= k' <= 32)%Z ->
  dalleSizeAccepted k k' = true ->
  ((k = 16 /\ k' = 16) \/ (k = 16 /\ k' = 28) \/ (k = 28 /\ k' = 16))%Z
  /\ DalleRequest.mapToValidSize (inject_Z k * 64) (inject_Z k' * 64)
     = sizeStringOf (inject_Z k * 64) (inject_Z k' * 64).
Proof.
  intros Hk Hk' Hacc.
  pose proof dalle_sizes_checked as Hall.
  rewrite forallb_forall in Hall. specialize (Hall k (multiplier_listed k Hk)).
  rewrite forallb_forall in Hall. specialize (Hall k' (multiplier_listed k' Hk')).
  unfold dalleSizeChecked in Hall. rewrite Hacc in Hall. simpl in Hall.
  apply andb_true_iff in Hall. destruct Hall as [Hpair Heq].
  split; [ | now apply String.eqb_eq ].
  repeat rewrite orb_true_iff in Hpair. repeat rewrite andb_true_iff in Hpair.
  repeat rewrite Z.eqb_eq in Hpair. tauto.
Qed.

Lemma pushIf_nil (cond : bool) (msg : string) : pushIf cond msg = [] -> cond = false.
Proof. destruct cond; [ discriminate | reflexivity ]. Qed.

Lemma length_zero_nil {X} (l : list X) : (List.length l =? 0)%nat = true -> l = [].
Proof. destruct l; [ reflexivity | discriminate ]. Qed.

Lemma truncatePrompt_short (s : string) (limit : nat) :
  (limit <? String.length s)%nat = false -> truncatePrompt s limit = s.
Proof.
  intros H. unfold truncatePrompt.
  apply Nat.ltb_ge in H. apply Nat.leb_le in H. now rewrite H.
Qed.

(** X2. For a request that passes DALL-E's validation, the later steps of
    [generateImage] change nothing: the prompt sent is the prompt given (the
    truncation at 4000 cannot fire), the size sent is the standardised size
    (the nearest-size mapping cannot move it), and the cost charged per
    image is the cost estimated per image. *)
Theorem dalle_validated_request_unchanged :
  forall params : UnifiedImageParams,
    Dalle.validateParams params = true ->
    DalleRequest.dp_prompt (DalleRequest.dalleParams params) = prompt params
    /\ DalleRequest.dp_size (DalleRequest.dalleParams params)
       = sizeStringOf
           (width (standardizeImageSize (p_width params) (p_height params)))
           (height (standardizeImageSize (p_width params) (p_height params)))
    /\ In (DalleRequest.dp_size (DalleRequest.dalleParams params)) Dalle.validSizes
    /\ DalleRequest.calculateActualCost (DalleRequest.dalleParams params)
       == costPerImage (Dalle.estimateCost params).
Proof.
  intros params Hvalid.
  unfold Dalle.validateParams in Hvalid. apply length_zero_nil in Hvalid.
  unfold Dalle.validationErrors in Hvalid.
  repeat (apply app_eq_nil in Hvalid; destruct Hvalid as [? Hvalid]).
  match goal with H : pushIf (4000 <? _)%nat _ = [] |- _ => apply pushIf_nil in H; rename H into Hlen end.
  match goal with H : pushIf (negb _) _ = [] |- _ => apply pushIf_nil in H; rename H into Hsize end.
  apply negb_false_iff in Hsize.
  destruct (standardizeDimension_multiplier (p_width params)) as (k & Hk & Ew).
  destruct (standardizeDimension_multiplier (p_height params)) as (k' & Hk' & Eh).
  unfold DalleRequest.calculateActualCost, DalleRequest.dalleParams, Dalle.estimateCost.
  cbn [standardizeImageSize width height DalleRequest.dp_prompt DalleRequest.dp_size
       DalleRequest.dp_quality costPerImage] in *.
  rewrite Ew, Eh in *.
  fold (sizeStringOf (inject_Z k * 64) (inject_Z k' * 64)) in Hsize.
  destruct (dalle_accepted_size k k' Hk Hk' Hsize) as [Hpair Hmap].
  split; [ now apply truncatePrompt_short | ].
  split; [ exact Hmap | ].
  rewrite Hmap.
  split.
  - apply existsb_exists in Hsize. destruct Hsize as (x & Hin & Heq).
    apply String.eqb_eq in Heq. now subst x.
  - destruct Hpair as [[-> ->] | [[-> ->] | [-> ->]]];
      destruct (Dalle.is_hd (quality params)); vm_compute; reflexivity.
Qed.

Lemma dalle_validated_request_unchanged_witness :
  Dalle.validateParams sampleParamsHD = true
  /\ DalleRequest.dp_size (DalleRequest.dalleParams sampleParamsHD) = "1024x1024"%string
  /\ DalleRequest.calculateActualCost (DalleRequest.dalleParams sampleParamsHD)
     == costPerImage (Dalle.estimateCost sampleParamsHD).
Proof.
  assert (Hvalid : Dalle.validateParams sampleParamsHD = true) by reflexivity.
  split; [ exact Hvalid | ].
  destruct (dalle_validated_request_unchanged sampleParamsHD Hvalid)
    as (_ & Hsize & _ & Hcost).
  split; [ rewrite Hsize; reflexivity | exact Hcost ].
Defined.

(** ** Stable Diffusion: validation, second rounding and cost *)


Lemma multiple_bounds (k : Z) :
  (4 <= k <= 32)%Z -> 256 <= inject_Z k * 64 /\ inject_Z k * 64 <= 2048.
Proof.
  intros [H4 H32]. rewrite Zle_Qle in H4, H32.
  change (inject_Z 4) with 4 in H4. change (inject_Z 32) with 32 in H32.
  split; lra.
Qed.

Lemma multiple_divisible (k : Z) : notDivisibleBy64 (inject_Z k * 64) = false.
Proof.
  unfold notDivisibleBy64. apply negb_false_iff. apply Qeq_bool_iff.
  assert (E : inject_Z k * 64 / 64 == inject_Z k) by field.
  rewrite (Qfloor_comp _ _ E), Qfloor_Z. reflexivity.
Qed.

(** X3. Stable Diffusion's validation never rejects a request for its size:
    the three size checks run on the standardised size, which is always a
    multiple of 64 between 256 and 2048, so the errors are exactly those of
    the prompt, the negative prompt and the count. *)
Theorem stableDiffusion_validation_ignores_size :
  forall params : UnifiedImageParams,
    StableDiffusion.validationErrors params
    = pushIf (isBlank (prompt params)) "Prompt is required"
      ++ pushIf (2000 <? String.length (prompt params))%nat
           "Prompt exceeds maximum length of 2000 characters"
      ++ pushIf (match negativePrompt params with
                 | Some n => (2000 <? String.length n)%nat
                 | None => false
                 end)
           "Negative prompt exceeds maximum length of 2000 characters"
      ++ pushIf (truthyQ (count params) && Qlt_bool 10 (orQ (count params) 0))
           "Stability AI supports maximum 10 images per request".
Proof.
  intros params. unfold StableDiffusion.validationErrors.
  cbn [standardizeImageSize width height].
  destruct (standardizeDimension_multiplier (p_width params)) as (k & Hk & ->).
  destruct (standardizeDimension_multiplier (p_height params)) as (k' & Hk' & ->).
  destruct (multiple_bounds k Hk) as [Hlo Hhi].
  destruct (multiple_bounds k' Hk') as [Hlo' Hhi'].
  rewrite !multiple_divisible.
  rewrite (Qlt_bool_false_intro (inject_Z k * 64) 128) by lra.
  rewrite (Qlt_bool_false_intro (inject_Z k' * 64) 128) by lra.
  rewrite (Qlt_bool_false_intro 2048 (inject_Z k * 64)) by lra.
  rewrite (Qlt_bool_false_intro 2048 (inject_Z k' * 64)) by lra.
  simpl. now rewrite !app_nil_r.
Qed.









(** ** Imagen: aspect ratio and cost *)

Lemma far_from (x c t v : Q) : Qabs (x - c) == v -> t <= v -> Qlt_bool (Qabs (x - c)) t = false.
Proof. intros E H. apply Qlt_bool_false_intro. rewrite E. exact H. Qed.

Lemma near_to (x c t v : Q) : Qabs (x - c) == v -> v < t -> Qlt_bool (Qabs (x - c)) t = true.
Proof. intros E H. apply Qlt_bool_true_intro. rewrite E. exact H. Qed.

Lemma abs_at (x r c v : Q) : x == r -> Qabs (r - c) == v -> Qabs (x - c) == v.
Proof. intros Hx Hv. now rewrite Hx. Qed.

(** X5. [mapToValidAspectRatio] always answers one of the five ratios Imagen
    declares as supported.  A square is sent as 1:1, 16:9 as 16:9, 9:16 as
    9:16 and 4:3 as 4:3; but a size of ratio exactly 3:4 is sent as 9:16,
    because 0.75 is within 0.2 of 0.5625 and that test comes first. *)
Theorem imagen_aspect_ratio_mapping :
  forall width height : Q,
    In (ImagenRequest.mapToValidAspectRatio width height)
       (supportedSizes Imagen.getCapabilities)
    /\ (width / height == 1 ->
        ImagenRequest.mapToValidAspectRatio width height = "1:1"%string)
    /\ (width / height == 16 / 9 ->
        ImagenRequest.mapToValidAspectRatio width height = "16:9"%string)
    /\ (width / height == 9 / 16 ->
        ImagenRequest.mapToValidAspectRatio width height = "9:16"%string)
    /\ (width / height == 4 / 3 ->
        ImagenRequest.mapToValidAspectRatio width height = "4:3"%string)
    /\ (width / height == 3 / 4 ->
        ImagenRequest.mapToValidAspectRatio width height = "9:16"%string).
Proof.
  intros width height. unfold ImagenRequest.mapToValidAspectRatio.
  split; [ | split; [ | split; [ | split; [ | split ] ] ] ].
  - repeat match goal with
           | |- context [if ?b then _ else _] => destruct b
           end; simpl; auto 10.
  - intros H.
    rewrite (near_to _ 1 0.1 0); [ reflexivity | | reflexivity ].
    apply (abs_at _ 1); [ exact H | reflexivity ].
  - intros H.
    rewrite (far_from _ 1 0.1 (7 # 9)); [ | | discriminate ].
    + rewrite (near_to _ (16 / 9) 0.2 0); [ reflexivity | | reflexivity ].
      apply (abs_at _ (16 / 9)); [ exact H | reflexivity ].
    + apply (abs_at _ (16 / 9)); [ exact H | reflexivity ].
  - intros H.
    rewrite (far_from _ 1 0.1 (7 # 16)); [ | | discriminate ].
    + rewrite (far_from _ (16 / 9) 0.2 (175 # 144)); [ | | discriminate ].
      * rewrite (near_to _ (9 / 16) 0.2 0); [ reflexivity | | reflexivity ].
        apply (abs_at _ (9 / 16)); [ exact H | reflexivity ].
      * apply (abs_at _ (9 / 16)); [ exact H | reflexivity ].
    + apply (abs_at _ (9 / 16)); [ exact H | reflexivity ].
  - intros H.
    rewrite (far_from _ 1 0.1 (1 # 3)); [ | | discriminate ].
    + rewrite (far_from _ (16 / 9) 0.2 (4 # 9)); [ | | discriminate ].
      * rewrite (far_from _ (9 / 16) 0.2 (37 # 48)); [ | | discriminate ].
        -- rewrite (near_to _ (4 / 3) 0.2 0); [ reflexivity | | reflexivity ].
           apply (abs_at _ (4 / 3)); [ exact H | reflexivity ].
        -- apply (abs_at _ (4 / 3)); [ exact H | reflexivity ].
      * apply (abs_at _ (4 / 3)); [ exact H | reflexivity ].
    + apply (abs_at _ (4 / 3)); [ exact H | reflexivity ].
  - intros H.
    rewrite (far_from _ 1 0.1 (1 # 4)); [ | | discriminate ].
    + rewrite (far_from _ (16 / 9) 0.2 (37 # 36)); [ | | discriminate ].
      * rewrite (near_to _ (9 / 16) 0.2 (3 # 16)); [ reflexivity | | reflexivity ].
        apply (abs_at _ (3 / 4)); [ exact H | reflexivity ].
      * apply (abs_at _ (3 / 4)); [ exact H | reflexivity ].
    + apply (abs_at _ (3 / 4)); [ exact H | reflexivity ].
Qed.

(** A portrait request of 768 x 1024 is standardised to 768 x 1024 and sent
    as 9:16. *)
Lemma imagen_aspect_ratio_mapping_witness :
  768 / 1024 == 3 / 4
  /\ ImagenRequest.mapToValidAspectRatio 768 1024 = "9:16"%string.
Proof.
  assert (H : 768 / 1024 == 3 / 4) by reflexivity.
  split; [ exact H | ].
  now apply (imagen_aspect_ratio_mapping 768 1024).
Defined.

Lemma strlen_orString (x : option string) :
  strlen (orString x EmptyString)
  = match x with Some s => strlen s | None => 0 end.
Proof. destruct x as [[|c s]|]; reflexivity. Qed.

(** X6. For a request that passes Imagen's validation the prompt is sent as
    given (the truncation at 2048 cannot fire), and the cost recorded for
    the result does not depend on the number of images: it is the estimated
    total less 0.03 for every image after the first, so the two agree only
    for a single image. *)
Theorem imagen_actual_cost_ignores_count :
  forall (authConfigured : bool) (params : UnifiedImageParams),
    Imagen.validateParams authConfigured params = true ->
    ImagenRequest.in_prompt (ImagenRequest.instance params) = prompt params
    /\ ImagenRequest.calculateActualCost (ImagenRequest.instance params)
       == totalCost (Imagen.estimateCost params)
          - 0.03 * (Qmin (orQ (count params) 1) 4 - 1).
Proof.
  intros authConfigured params Hvalid.
  unfold Imagen.validateParams in Hvalid. apply length_zero_nil in Hvalid.
  unfold Imagen.validationErrors in Hvalid.
  repeat (apply app_eq_nil in Hvalid; destruct Hvalid as [? Hvalid]).
  match goal with
  | H : pushIf (2048 <? String.length (prompt params))%nat _ = [] |- _ =>
      apply pushIf_nil in H; rename H into Hlen
  end.
  assert (Hprompt : truncatePrompt (prompt params) 2048 = prompt params)
    by (now apply truncatePrompt_short).
  split; [ exact Hprompt | ].
  unfold ImagenRequest.calculateActualCost, ImagenRequest.instance, Imagen.estimateCost.
  cbn [ImagenRequest.in_prompt ImagenRequest.in_negativePrompt totalCost].
  rewrite Hprompt, strlen_orString.
  set (chars := strlen (prompt params)
                + match negativePrompt params with Some n => strlen n | None => 0 end).
  change (chars / 1000) with (chars * / 1000).
  ring.
Qed.

Lemma imagen_actual_cost_ignores_count_witness :
  Imagen.validateParams true sampleParams = true
  /\ ImagenRequest.calculateActualCost (ImagenRequest.instance sampleParams)
     == totalCost (Imagen.estimateCost sampleParams)
        - 0.03 * (Qmin (orQ (count sampleParams) 1) 4 - 1).
Proof.
  assert (Hvalid : Imagen.validateParams true sampleParams = true) by reflexivity.
  split; [ exact Hvalid | ].
  exact (proj2 (imagen_actual_cost_ignores_count true sampleParams Hvalid)).
Defined.

(** ** Error classification *)

(** X7. An error is retried exactly when it carries an HTTP response whose
    status is 429 or at least 500.  An error without a response (a network
    failure, a timeout) is classified UNKNOWN_ERROR, keeps its own message
    and is not retryable. *)
Theorem mapError_retryable_iff :
  (forall e : JsError,
      retryable (mapError e) = true
      <-> exists s, response_status e = Some s /\ (s = 429 \/ 500 <= s)%Z)
  /\ (forall e : JsError,
         response e = None ->
         mapError e
         = {| code := "UNKNOWN_ERROR";
              pe_message := orString (message e) "Unknown error occurred";
              retryable := false;
              retryAfter := None |}).
Proof.
  split.
  - intros e. unfold mapError, status_is, status_ge.
    destruct (response_status e) as [s|]; simpl.
    + destruct (Z.eqb_spec s 429) as [->|H429]; simpl.
      * split; [ intros _; exists 429%Z; auto | reflexivity ].
      * destruct (Z.leb_spec 500 s) as [H500|H500]; simpl.
        -- split; [ intros _; exists s; auto | reflexivity ].
        -- split.
           ++ destruct (s =? 400)%Z; [ discriminate | ].
              destruct (s =? 401)%Z; discriminate.
           ++ intros (s' & Hs' & Hcase). injection Hs' as <-. lia.
    + split; [ discriminate | intros (s & Hs & _); discriminate ].
  - intros e He. unfold mapError, status_is, status_ge, response_status.
    rewrite He. reflexivity.
Qed.

Lemma mapError_retryable_iff_witness :
  response (Error "socket hang up") = None
  /\ retryable (mapError (Error "socket hang up")) = false.
Proof.
  split; [ reflexivity | ].
  rewrite (proj2 mapError_retryable_iff (Error "socket hang up") eq_refl). reflexivity.
Defined.

(** ** The retry-after header as decimal text *)

Lemma parseDigits_uint : forall (d : Decimal.uint) (a : nat),
  parseDigits 10 (NilEmpty.string_of_uint d) (Some (Z.of_nat a))
  = Some (Z.of_nat (Nat.of_uint_acc d a)).
Proof.
  induction d as [|d IH|d IH|d IH|d IH|d IH|d IH|d IH|d IH|d IH|d IH]; intros a;
    [ reflexivity | .. ];
    cbn [NilEmpty.string_of_uint parseDigits Nat.of_uint_acc];
    match goal with
    | |- context [digitValue 10 ?c] =>
        let v := eval vm_compute in (digitValue 10 c) in
        change (digitValue 10 c) with v
    end;
    cbv beta iota; rewrite <- IH; do 2 f_equal;
    rewrite Nat.tail_mul_spec; lia.
Qed.

Lemma parseDigits_first_digit (s : string) (c : ascii) (v : Z) :
  digitValue 10 c = Some v ->
  parseDigits 10 (String c s) None = parseDigits 10 (String c s) (Some 0%Z).
Proof. intros H. simpl. now rewrite H. Qed.

Lemma parseInt_decimal (d : Decimal.uint) :
  parseInt (NilZero.string_of_uint d) = IsInt (Z.of_nat (Nat.of_uint d)).
Proof.
  assert (Hgen : forall d',
             d' <> Decimal.Nil ->
             parseInt (NilEmpty.string_of_uint d')
             = IsInt (Z.of_nat (Nat.of_uint d'))).
  { intros d' Hd'.
    pose proof (parseDigits_uint d' 0) as Hp. change (Z.of_nat 0) with 0%Z in Hp.
    unfold Nat.of_uint.
    destruct d' as [|d1|d1|d1|d1|d1|d1|d1|d1|d1|d1]; [ congruence | .. ];
      (destruct d1 as [|d2|d2|d2|d2|d2|d2|d2|d2|d2|d2];
       unfold parseInt;
       cbn [NilEmpty.string_of_uint skipWhiteSpace] in *;
       match goal with
       | |- context [isWhiteSpace ?c] =>
           let v := eval vm_compute in (isWhiteSpace c) in
           change (isWhiteSpace c) with v
       end;
       cbv beta iota;
       erewrite parseDigits_first_digit by (vm_compute; reflexivity);
       rewrite Hp; destruct (Nat.of_uint_acc _ 0); reflexivity). }
  destruct d as [|d1|d1|d1|d1|d1|d1|d1|d1|d1|d1];
    [ reflexivity | .. ]; apply Hgen; discriminate.
Qed.

(** X8. When the server answers 429 with a retry-after header that is the
    decimal text of a number of seconds N, the wait before the next attempt
    is exactly N seconds for N > 0, whatever the attempt and the base delay;
    for N = 0 the exponential delay is used. *)
Theorem retry_after_decimal_honoured :
  forall (e : JsError) (N : nat) (baseDelay : Q) (attempt : nat),
    status_is e 429 = true ->
    header_of e = Some (NilZero.string_of_uint (Nat.to_uint N)) ->
    backoffDelay (mapError e) baseDelay attempt
    = match N with
      | O => baseDelay * 2 ^ (Z.of_nat attempt - 1)
      | S _ => inject_Z (Z.of_nat N) * 1000
      end.
Proof.
  intros e N baseDelay attempt H429 Hh.
  unfold backoffDelay. rewrite (mapError_429 e H429), Hh.
  assert (Hs : orString (Some (NilZero.string_of_uint (Nat.to_uint N))) "60"
               = NilZero.string_of_uint (Nat.to_uint N)).
  { destruct (Nat.to_uint N) as [|d|d|d|d|d|d|d|d|d|d]; reflexivity. }
  rewrite Hs, parseInt_decimal, DecimalNat.Unsigned.of_to.
  destruct N as [|N]; [ reflexivity | ].
  destruct (Z.eqb_spec (Z.of_nat (S N)) 0) as [H0|_]; [ lia | reflexivity ].
Qed.

Lemma retry_after_decimal_honoured_witness :
  status_is (rateLimited (Some "30"%string)) 429 = true
  /\ header_of (rateLimited (Some "30"%string))
     = Some (NilZero.string_of_uint (Nat.to_uint 30))
  /\ backoffDelay (mapError (rateLimited (Some "30"%string))) 1000 2
     = inject_Z (Z.of_nat 30) * 1000.
Proof.
  assert (H1 : status_is (rateLimited (Some "30"%string)) 429 = true) by reflexivity.
  assert (H2 : header_of (rateLimited (Some "30"%string))
               = Some (NilZero.string_of_uint (Nat.to_uint 30))) by reflexivity.
  split; [ exact H1 | split; [ exact H2 | ] ].
  exact (retry_after_decimal_honoured (rateLimited (Some "30"%string)) 30 1000 2 H1 H2).
Defined.

(** ** The retry loop: successes and the last attempt *)

Section RetryOutcome.

Variable T : Type.
Variable operation : nat -> JsError + T.
Variable maxRetries : nat.
Variable baseDelay : Q.

Local Abbreviation run := (retryLoop operation maxRetries baseDelay).

Lemma retryLoop_first_success : forall remaining a k v,
  (a <= k < a + remaining)%nat ->
  (k <= maxRetries)%nat ->
  (forall j, (a <= j < k)%nat ->
             exists e, operation j = inl e /\ retryable (mapError e) = true) ->
  operation k = inr v ->
  snd (run remaining a) = inr v
  /\ forall j, attempted (fst (run remaining a)) j <-> (a <= j <= k)%nat.
Proof.
  unfold attempted.
  induction remaining as [|remaining IH]; intros a k v Hrange Hmax Hfail Hok; [ lia | ].
  rewrite retryLoop_unfold.
  destruct (Nat.eq_dec a k) as [->|Hne].
  - rewrite Hok. simpl. split; [ reflexivity | ].
    intros j. split.
    + intros [H|[]]. injection H as <-. lia.
    + intros Hj. left. f_equal. lia.
  - destruct (Hfail a) as (e & He & Hr); [ lia | ].
    rewrite He, Hr.
    destruct (Nat.eqb_spec a maxRetries) as [->|_]; [ lia | ]. simpl negb. simpl orb.
    destruct (IH (S a) k v) as [Hres Hatt]; try assumption; try lia.
    { intros j Hj. apply Hfail. lia. }
    destruct (run remaining (S a)) as [evs r]. simpl in *.
    split; [ exact Hres | ].
    intros j. split.
    + intros [H|[H|H]]; [ injection H as <-; lia | discriminate | ].
      apply Hatt in H. lia.
    + intros Hj. destruct (Nat.eq_dec j a) as [->|Hja]; [ now left | ].
      right. right. apply Hatt. lia.
Qed.

Lemma retryLoop_last_attempt : forall remaining a,
  (a + S remaining = maxRetries + 1)%nat ->
  exists n,
    (a <= n <= maxRetries)%nat
    /\ (forall j, attempted (fst (run (S remaining) a)) j <-> (a <= j <= n)%nat)
    /\ snd (run (S remaining) a) = operation n.
Proof.
  unfold attempted.
  induction remaining as [|remaining IH]; intros a Hsum.
  - assert (a = maxRetries) by lia. subst a.
    exists maxRetries. rewrite retryLoop_unfold.
    destruct (operation maxRetries) as [e|v] eqn:Eop.
    + rewrite Nat.eqb_refl, orb_true_r. simpl.
      split; [ lia | split; [ | reflexivity ] ].
      intros j. split; [ intros [H|[]]; injection H as <-; lia | intros Hj; left; f_equal; lia ].
    + simpl. split; [ lia | split; [ | reflexivity ] ].
      intros j. split; [ intros [H|[]]; injection H as <-; lia | intros Hj; left; f_equal; lia ].
  - rewrite retryLoop_unfold.
    destruct (operation a) as [e|v] eqn:Eop.
    + destruct (negb (retryable (mapError e)) || (a =? maxRetries)%nat) eqn:Estop.
      * exists a. simpl. split; [ lia | split; [ | now rewrite Eop ] ].
        intros j. split; [ intros [H|[]]; injection H as <-; lia | intros Hj; left; f_equal; lia ].
      * destruct (IH (S a)) as (n & Hn & Hatt & Hres); [ lia | ].
        exists n.
        destruct (run (S remaining) (S a)) as [evs r]. simpl in *.
        split; [ lia | split; [ | exact Hres ] ].
        intros j. split.
        -- intros [H|[H|H]]; [ injection H as <-; lia | discriminate | ].
           apply Hatt in H. lia.
        -- intros Hj. destruct (Nat.eq_dec j a) as [->|Hja]; [ now left | ].
           right. right. apply Hatt. lia.
    + exists a. simpl. split; [ lia | split; [ | now rewrite Eop ] ].
      intros j. split; [ intros [H|[]]; injection H as <-; lia | intros Hj; left; f_equal; lia ].
Qed.

End RetryOutcome.

(** X9. [retryWithBackoff] returns the value of the first attempt that
    succeeds: when the attempts before attempt k (k within the budget) fail
    with retryable errors and attempt k succeeds, the result is its value
    and the operation is invoked exactly k times. *)
Theorem retry_returns_first_success :
  forall (T : Type) (operation : nat -> JsError + T) (maxRetries : nat) (baseDelay : Q)
         (k : nat) (v : T),
    (1 <= k <= maxRetries)%nat ->
    (forall j, (1 <= j < k)%nat ->
               exists e, operation j = inl e /\ retryable (mapError e) = true) ->
    operation k = inr v ->
    snd (retryWithBackoff operation maxRetries baseDelay) = inr v
    /\ forall j,
         attempted (fst (retryWithBackoff operation maxRetries baseDelay)) j
         <-> (1 <= j <= k)%nat.
Proof.
  intros T operation maxRetries baseDelay k v Hk Hfail Hok.
  unfold retryWithBackoff.
  apply (retryLoop_first_success T operation maxRetries baseDelay maxRetries 1 k v);
    try assumption; lia.
Qed.

(** Two rate-limited attempts, then an answer. *)
Lemma retry_returns_first_success_witness :
  (1 <= 3 <= 3)%nat
  /\ snd (retryWithBackoff
            (fun n => if (n <? 3)%nat then inl (rateLimited None) else inr n) 3 1000)
     = inr 3%nat.
Proof.
  assert (Hk : (1 <= 3 <= 3)%nat) by lia.
  split; [ exact Hk | ].
  apply (retry_returns_first_success nat
           (fun n => if (n <? 3)%nat then inl (rateLimited None) else inr n) 3 1000 3 3%nat Hk).
  - intros j Hj. exists (rateLimited None).
    destruct (Nat.ltb_spec j 3) as [_|Hge]; [ split; reflexivity | lia ].
  - reflexivity.
Defined.

(** X10. With a budget of zero the operation is never invoked and the error
    is "Max retries exceeded".  With a budget of at least one, the attempts
    made are 1, 2, ..., n for some n within the budget, and the result is
    the outcome of attempt n: the value it returned or the error it threw,
    never "Max retries exceeded" from the loop itself. *)
Theorem retry_result_is_last_attempt :
  forall (T : Type) (operation : nat -> JsError + T) (maxRetries : nat) (baseDelay : Q),
    (maxRetries = 0%nat ->
     retryWithBackoff operation maxRetries baseDelay
     = ([], inl (Error "Max retries exceeded")))
    /\ ((1 <= maxRetries)%nat ->
        exists n,
          (1 <= n <= maxRetries)%nat
          /\ (forall j,
                 attempted (fst (retryWithBackoff operation maxRetries baseDelay)) j
                 <-> (1 <= j <= n)%nat)
          /\ snd (retryWithBackoff operation maxRetries baseDelay) = operation n).
Proof.
  intros T operation maxRetries baseDelay. split.
  - intros ->. reflexivity.
  - intros Hbudget. unfold retryWithBackoff.
    destruct maxRetries as [|remaining]; [ lia | ].
    apply (retryLoop_last_attempt T operation (S remaining) baseDelay remaining 1). lia.
Qed.

Lemma retry_result_is_last_attempt_witness :
  (1 <= 3)%nat
  /\ exists n,
       (1 <= n <= 3)%nat
       /\ snd (retryWithBackoff (T:=unit) (fun _ => inl badRequest) 3 1000)
          = inl badRequest.
Proof.
  assert (Hbudget : (1 <= 3)%nat) by lia.
  split; [ exact Hbudget | ].
  destruct (proj2 (retry_result_is_last_attempt unit (fun _ => inl badRequest) 3 1000)
              Hbudget) as (n & Hn & _ & Hres).
  exists n. split; [ exact Hn | exact Hres ].
Defined.

(** ** The adapters a request calls *)

Lemma generateCalls_of_request (m : ProviderManager) (params : UnifiedImageParams)
    (t0 : Z) (redis : bool) :
  generateCalls (log (snd (Manager.generateImage m params (freshWorld t0 redis))))
  = requestCalls m params.
Proof.
  destruct (generateImage_spec m params (freshWorld t0 redis))
    as (w' & evs & dt & key & v & Hrun & (Hlog & _) & Hcalls & _).
  rewrite Hrun. simpl in *. rewrite Hlog, generateCalls_app, Hcalls. simpl.
  apply app_nil_r.
Qed.

Lemma attempts_names_prefix (params : UnifiedImageParams) :
  forall l, exists rest,
    map fst l = map fst (attemptsUntilSuccess params l) ++ rest.
Proof.
  induction l as [|[p a] l [rest IH]]; simpl; [ now exists [] | ].
  destruct (generateImage a params) as [e|r]; simpl.
  - exists rest. now rewrite IH.
  - now exists (map fst l).
Qed.

Lemma eligible_names (m : ProviderManager) (params : UnifiedImageParams)
    (tried : ImageProvider) :
  map fst (eligibleFallbacks m params tried)
  = filter (fun p => match providers_get (providers m) p with
                     | Some a => isProviderAvailable m p && validateParams a params
                     | None => false
                     end)
      (Manager.getFallbackProviders m tried).
Proof.
  unfold eligibleFallbacks.
  induction (Manager.getFallbackProviders m tried) as [|p l IH]; simpl; [ reflexivity | ].
  rewrite map_app, IH.
  destruct (providers_get (providers m) p) as [a|]; [ | reflexivity ].
  destruct (isProviderAvailable m p && validateParams a params); reflexivity.
Qed.

Lemma ImageProvider_eqb_refl (p : ImageProvider) : ImageProvider_eqb p p = true.
Proof. destruct p; reflexivity. Qed.

Lemma ImageProvider_eqb_eq (p q : ImageProvider) : ImageProvider_eqb p q = true <-> p = q.
Proof. destruct p, q; simpl; split; congruence. Qed.

Lemma fallbacks_distinct (m : ProviderManager) (tried : ImageProvider) :
  NoDup (Manager.getFallbackProviders m tried)
  /\ ~ In tried (Manager.getFallbackProviders m tried).
Proof.
  unfold Manager.getFallbackProviders.
  set (kept := filter _ Manager.allProviders).
  assert (Hnd : NoDup kept).
  { apply NoDup_filter. unfold Manager.allProviders.
    repeat constructor; simpl; intuition discriminate. }
  assert (Hnot : ~ In tried kept).
  { unfold kept. rewrite filter_In. intros [_ H].
    now rewrite ImageProvider_eqb_refl in H. }
  split.
  - eapply Permutation_NoDup; [ symmetry; apply sort_perm | exact Hnd ].
  - intros Hin. apply Hnot. eapply Permutation_in; [ apply sort_perm | exact Hin ].
Qed.

Lemma called_fallbacks (m : ProviderManager) (params : UnifiedImageParams)
    (tried : ImageProvider) :
  exists rest,
    filter (fun p => match providers_get (providers m) p with
                     | Some a => isProviderAvailable m p && validateParams a params
                     | None => false
                     end)
      (Manager.getFallbackProviders m tried)
    = map fst (attemptsUntilSuccess params (eligibleFallbacks m params tried)) ++ rest.
Proof.
  destruct (attempts_names_prefix params (eligibleFallbacks m params tried)) as [rest H].
  exists rest. now rewrite <- eligible_names.
Qed.

Lemma three_names (l : list ImageProvider) : NoDup l -> (List.length l <= 3)%nat.
Proof.
  intros H. change 3%nat with (List.length Manager.allProviders).
  apply NoDup_incl_length; [ exact H | ].
  intros p _. destruct p; simpl; auto.
Qed.

(** X11. Within one request no adapter is asked to generate twice, so a
    request makes at most three adapter calls: the fallbacks exclude the
    adapter already tried and are distinct names. *)
Theorem no_adapter_called_twice :
  forall (m : ProviderManager) (params : UnifiedImageParams) (t0 : Z) (redis : bool),
    NoDup (map fst (generateCalls
                      (log (snd (Manager.generateImage m params (freshWorld t0 redis))))))
    /\ (List.length (generateCalls
                       (log (snd (Manager.generateImage m params (freshWorld t0 redis)))))
        <= 3)%nat.
Proof.
  intros m params t0 redis. rewrite generateCalls_of_request.
  assert (Hnd : NoDup (map fst (requestCalls m params))).
  { unfold requestCalls.
    destruct (selectionOf m params) as [selection|e]; [ | constructor ].
    destruct (providers_get (providers m) (Manager.sel_provider selection))
      as [primary|]; [ | constructor ].
    unfold withFallbackCalls.
    destruct (generateImage primary params) as [e|r]; simpl;
      [ | repeat constructor; simpl; tauto ].
    destruct (fallbacks_distinct m (getName primary)) as [Hnd Hnot].
    destruct (called_fallbacks m params (getName primary)) as [rest Hrest].
    set (called := map fst (attemptsUntilSuccess params
                              (eligibleFallbacks m params (getName primary)))) in *.
    assert (Hsub : forall p, In p called -> In p (Manager.getFallbackProviders m (getName primary))).
    { intros p Hp.
      assert (Hin : In p (called ++ rest)) by (apply in_or_app; now left).
      rewrite <- Hrest in Hin. now apply filter_In in Hin. }
    constructor.
    - intros Hin. apply Hnot. now apply Hsub.
    - apply (NoDup_app_remove_r called rest). rewrite <- Hrest.
      now apply NoDup_filter. }
  split; [ exact Hnd | ].
  rewrite <- (length_map fst). now apply three_names.
Qed.

Lemma explicitChoice_available (m : ProviderManager) (params : UnifiedImageParams)
    (selection : Manager.ProviderSelection) :
  explicitChoice m params = Some selection ->
  isProviderAvailable m (Manager.sel_provider selection) = true.
Proof.
  unfold explicitChoice.
  destruct (provider params) as [name|]; [ | discriminate ].
  destruct (isProviderAvailable m name) eqn:Eav; [ | discriminate ].
  destruct (providers_get (providers m) name) as [a|]; [ | discriminate ].
  destruct (validateParams a params); [ | discriminate ].
  intros H. injection H as <-. exact Eav.
Qed.

Lemma bestCandidate_in (first : Manager.Candidate) (rest : list Manager.Candidate) :
  In (bestCandidate first (first :: rest)) (first :: rest).
Proof.
  destruct (sort_head_is_first_maximum _ Manager.score (first :: rest) first)
    as (pre & post & Hl & _); [ discriminate | ].
  fold (bestCandidate first (first :: rest)) in Hl.
  rewrite Hl at 2. apply in_or_app. right. now left.
Qed.

Lemma selection_available (m : ProviderManager) (params : UnifiedImageParams)
    (selection : Manager.ProviderSelection) :
  selectionOf m params = Returned selection ->
  isProviderAvailable m (Manager.sel_provider selection) = true.
Proof.
  unfold selectionOf.
  destruct (explicitChoice m params) as [chosen|] eqn:Echoice.
  - intros H. injection H as <-. now apply explicitChoice_available with params.
  - destruct (candidatesOf m params) as [|first rest] eqn:Ec; [ discriminate | ].
    intros H. injection H as <-. simpl.
    apply (candidates_are_available m params). rewrite Ec. apply bestCandidate_in.
Qed.

Lemma attempts_in (params : UnifiedImageParams) :
  forall l p f, In (p, f) (attemptsUntilSuccess params l) -> In p (map fst l).
Proof.
  induction l as [|[q a] l IH]; simpl; [ tauto | ].
  intros p f. destruct (generateImage a params) as [e|r].
  - intros [H|H]; [ injection H as <- _; now left | right; now apply (IH p f) ].
  - intros [H|[]]. injection H as <- _. now left.
Qed.

Lemma requestCalls_available (m : ProviderManager) (params : UnifiedImageParams) :
  namesConsistent m ->
  forall p f, In (p, f) (requestCalls m params) -> isProviderAvailable m p = true.
Proof.
  intros Hnames p f. unfold requestCalls.
  destruct (selectionOf m params) as [selection|e] eqn:Esel; [ | intros [] ].
  destruct (providers_get (providers m) (Manager.sel_provider selection))
    as [primary|] eqn:Eprimary; [ | intros [] ].
  pose proof (selection_available m params selection Esel) as Hav.
  rewrite <- (Hnames _ _ Eprimary) in Hav.
  unfold withFallbackCalls.
  assert (Hfallback : forall q g,
             In (q, g) (attemptsUntilSuccess params
                          (eligibleFallbacks m params (getName primary))) ->
             isProviderAvailable m q = true).
  { intros q g Hin. apply attempts_in in Hin.
    rewrite eligible_names in Hin. apply filter_In in Hin. destruct Hin as [_ Hq].
    destruct (providers_get (providers m) q); [ | discriminate ].
    now apply andb_true_iff in Hq. }
  destruct (generateImage primary params) as [e|r].
  - intros [H|H]; [ injection H as <- _; exact Hav | now apply (Hfallback p f) ].
  - intros [H|[]]. injection H as <- _. exact Hav.
Qed.

Lemma disabled_unavailable (m : ProviderManager) (p : ImageProvider) :
  isProviderAvailable (disableProvider m p) p = false.
Proof.
  unfold isProviderAvailable, disableProvider, update_config. simpl.
  rewrite ImageProvider_eqb_refl. simpl.
  now rewrite andb_false_r.
Qed.

(** X12. When every adapter is registered under its own name, the manager
    asks only available adapters to generate: each adapter call of a request
    goes to a provider that is registered, enabled and cached healthy.  In
    particular, once a provider has been disabled no request calls it,
    neither as the selected provider nor as a fallback. *)
Theorem only_available_adapters_called :
  forall (m : ProviderManager) (params : UnifiedImageParams) (t0 : Z) (redis : bool),
    namesConsistent m ->
    (forall p f,
        In (p, f) (generateCalls
                     (log (snd (Manager.generateImage m params (freshWorld t0 redis))))) ->
        isProviderAvailable m p = true)
    /\ (forall q f,
           ~ In (q, f)
               (generateCalls
                  (log (snd (Manager.generateImage (disableProvider m q) params
                               (freshWorld t0 redis)))))).
Proof.
  intros m params t0 redis Hnames. split.
  - intros p f. rewrite generateCalls_of_request. now apply requestCalls_available.
  - intros q f Hin. rewrite generateCalls_of_request in Hin.
    apply requestCalls_available in Hin; [ | exact Hnames ].
    now rewrite disabled_unavailable in Hin.
Qed.

Lemma sample_names_consistent : namesConsistent sdFailsImagenAnswers.
Proof.
  intros k a. destruct k; simpl; intros H; try discriminate; injection H as <-; reflexivity.
Qed.

Lemma only_available_adapters_called_witness :
  namesConsistent sdFailsImagenAnswers
  /\ forall f,
       ~ In (imagen4, f)
           (generateCalls
              (log (snd (Manager.generateImage
                           (disableProvider sdFailsImagenAnswers imagen4)
                           sampleParams (freshWorld 0 true))))).
Proof.
  split; [ exact sample_names_consistent | ].
  intros f.
  exact (proj2 (only_available_adapters_called sdFailsImagenAnswers sampleParams 0 true
                  sample_names_consistent) imagen4 f).
Defined.

(** ** A request that no adapter can serve *)

Lemma providers_get_in (l : list (ImageProvider * BaseImageProvider)) (p : ImageProvider)
    (a : BaseImageProvider) :
  providers_get l p = Some a -> In (p, a) l.
Proof.
  induction l as [|[k v] l IH]; simpl; [ discriminate | ].
  destruct (ImageProvider_eqb k p) eqn:E.
  - intros H. injection H as <-. apply ImageProvider_eqb_eq in E. subst. now left.
  - intros H. right. now apply IH.
Qed.

Lemma no_candidate (m : ProviderManager) (params : UnifiedImageParams) :
  (forall entry, In entry (providers m) ->
                 isProviderAvailable m (fst entry) && validateParams (snd entry) params = false) ->
  selectionOf m params = Thrown (Error "No suitable providers available").
Proof.
  intros Hnone. unfold selectionOf.
  assert (Hexplicit : explicitChoice m params = None).
  { unfold explicitChoice.
    destruct (provider params) as [name|]; [ | reflexivity ].
    destruct (isProviderAvailable m name) eqn:Eav; [ | reflexivity ].
    destruct (providers_get (providers m) name) as [a|] eqn:Eget; [ | reflexivity ].
    apply providers_get_in in Eget. apply Hnone in Eget. simpl in Eget.
    rewrite Eav in Eget. simpl in Eget. now rewrite Eget. }
  rewrite Hexplicit.
  assert (Hcands : candidatesOf m params = []).
  { unfold candidatesOf. induction (providers m) as [|entry l IH]; [ reflexivity | ].
    simpl. rewrite (Hnone entry) by now left. simpl.
    apply IH. intros e He. apply Hnone. now right. }
  now rewrite Hcands.
Qed.

(** X13. When no registered adapter is both available and accepts the
    request, the request fails with "No suitable providers available": no
    adapter is asked to generate, and exactly one record is written, a
    failure labelled with the provider the request named (or "unknown") and
    carrying no cost. *)
Theorem no_suitable_provider_fails_without_calls :
  forall (m : ProviderManager) (params : UnifiedImageParams) (t0 : Z) (redis : bool),
    (forall entry, In entry (providers m) ->
                   isProviderAvailable m (fst entry) && validateParams (snd entry) params
                   = false) ->
    exists w' v,
      Manager.generateImage m params (freshWorld t0 redis)
      = (Thrown (Error "No suitable providers available"), w')
      /\ generateCalls (log w') = []
      /\ recordedMetrics (log w') = [(v, redis)]
      /\ m_success v = false
      /\ m_cost v = None
      /\ m_provider v = requestedProvider params.
Proof.
  intros m params t0 redis Hnone.
  pose proof (no_candidate m params Hnone) as Hsel.
  destruct (generateImage_spec m params (freshWorld t0 redis))
    as (w' & evs & dt & key & v & Hrun & (Hlog & _) & Hcalls & Hmetrics & _ & _ & Hv).
  unfold metricMatches, requestOutcome in Hv. unfold requestOutcome in Hrun.
  unfold requestCalls in Hcalls. rewrite Hsel in *.
  destruct Hv as (Hsuccess & Hcost & Hprovider).
  exists w', v. simpl in Hlog.
  split; [ exact Hrun | ].
  rewrite Hlog, generateCalls_app, recordedMetrics_app, Hcalls, Hmetrics.
  simpl. auto.
Qed.

Lemma no_suitable_provider_fails_without_calls_witness :
  exists w' v,
    Manager.generateImage onlyUnhealthyImagen explicitImagenParams (freshWorld 0 true)
    = (Thrown (Error "No suitable providers available"), w')
    /\ generateCalls (log w') = []
    /\ recordedMetrics (log w') = [(v, true)]
    /\ m_success v = false
    /\ m_cost v = None
    /\ m_provider v = "imagen4"%string.
Proof.
  apply (no_suitable_provider_fails_without_calls onlyUnhealthyImagen explicitImagenParams
           0 true).
  intros entry [<-|[]]. reflexivity.
Defined.

(** ** The fallback order of the default configuration *)

Lemma sort_ext {X} (f g : X -> X -> Q) (l : list X) :
  (forall a b, f a b = g a b) -> sort f l = sort g l.
Proof.
  intros Hfg. induction l as [|x l IH]; simpl; [ reflexivity | ].
  rewrite IH. clear IH.
  induction (sort g l) as [|y s IHs]; simpl; [ reflexivity | ].
  rewrite Hfg, IHs. reflexivity.
Qed.

(** X14. With the priorities of the default configuration (which enabling
    and disabling keep), the fallbacks of a failed adapter are the other
    registered adapters in the fixed order Stable Diffusion, DALL-E, Imagen:
    the adapter with the largest priority number is tried first. *)
Theorem default_fallback_order :
  forall (m : ProviderManager) (tried : ImageProvider),
    defaultPriorities m ->
    Manager.getFallbackProviders m tried
    = filter (fun p => negb (ImageProvider_eqb p tried) && providers_has (providers m) p)
        [stableDiffusion; dalleE3; imagen4].
Proof.
  intros m tried Hdefault. unfold Manager.getFallbackProviders.
  rewrite (sort_ext _ (fun a b => priority (initializeDefaultConfig b)
                                  - priority (initializeDefaultConfig a)))
    by (intros a b; now rewrite !Hdefault).
  unfold Manager.allProviders. simpl filter.
  destruct (providers_has (providers m) dalleE3),
           (providers_has (providers m) imagen4),
           (providers_has (providers m) stableDiffusion),
           tried; reflexivity.
Qed.

Lemma default_fallback_order_witness :
  defaultPriorities sdFailsImagenAnswers
  /\ Manager.getFallbackProviders sdFailsImagenAnswers stableDiffusion = [imagen4].
Proof.
  assert (H : defaultPriorities sdFailsImagenAnswers) by (intros p; reflexivity).
  split; [ exact H | ].
  rewrite (default_fallback_order sdFailsImagenAnswers stableDiffusion H). reflexivity.
Defined.

(** ** Scores under the default weights *)

Lemma costScore_range (cost : CostEstimate) :
  0 <= costPerImage cost -> 0 <= costScore cost /\ costScore cost <= 1.
Proof.
  intros Hc. unfold costScore. split; [ apply Q.le_max_l | ].
  apply Q.max_lub; [ discriminate | ].
  rewrite div_maxCost. unfold maxCost. lra.
Qed.

Lemma quality_range (c : ProviderCapabilities) :
  (1 # 2) <= Qmin (qualityScore c) 1.0 /\ Qmin (qualityScore c) 1.0 <= 1.
Proof.
  split.
  - apply Q.min_glb; [ | discriminate ].
    unfold qualityScore.
    destruct (Qle_bool 1024 (width (maxImageSize c))), (supportsNegativePrompts c),
             (supportsStylePresets c), (Qle_bool 2000 (maxPromptLength c));
      discriminate.
  - eapply Qle_trans; [ apply Q.le_min_r | discriminate ].
Qed.

Lemma default_weighted_range (capabilities : AnyCapabilities) (cost : CostEstimate)
    (p : ImageProvider) (b : bool) :
  name capabilities = None ->
  0 <= costPerImage cost ->
  (4 # 10) <= weightedScore capabilities cost (set_enabled b (initializeDefaultConfig p))
  /\ weightedScore capabilities cost (set_enabled b (initializeDefaultConfig p)) <= (125 # 100).
Proof.
  intros Hname Hc. unfold weightedScore, speedScore. rewrite Hname.
  destruct (costScore_range cost Hc) as [Hc0 Hc1].
  destruct (quality_range (caps capabilities)) as [Hq0 Hq1].
  set (x := costScore cost) in *.
  set (y := Qmin (qualityScore (caps capabilities)) 1.0) in *.
  destruct p; simpl; lra.
Qed.

(** X15. With the default weights (whatever the enabled flags) and a
    non-negative estimated cost per image, the score the manager gives a
    candidate is half its weighted score and lies between 0.2 and 0.625: the
    clamp to 1 never binds, an automatic selection never reports a
    confidence above 0.625, and the reason "Optimal cost/quality balance",
    which needs a score above 0.8, is never given. *)
Theorem default_candidate_score_bounded :
  forall (m : ProviderManager) (params : UnifiedImageParams)
         (p : ImageProvider) (a : BaseImageProvider),
    defaultWeights m ->
    0 <= costPerImage (estimateCost a params) ->
    Manager.score (Manager.candidateFor m params p a)
    == weightedScore (fromAdapter (getCapabilities a)) (estimateCost a params) (config m p)
       * (1 # 2)
    /\ (2 # 10) <= Manager.score (Manager.candidateFor m params p a)
    /\ Manager.score (Manager.candidateFor m params p a) <= (625 # 1000)
    /\ Manager.reason (Manager.candidateFor m params p a)
       <> "Optimal cost/quality balance"%string.
Proof.
  intros m params p a Hdefault Hcost.
  destruct (Hdefault p) as [b Hconfig].
  destruct (default_weighted_range (fromAdapter (getCapabilities a))
              (estimateCost a params) p b eq_refl Hcost) as [Hlow Hhigh].
  rewrite <- Hconfig in Hlow, Hhigh.
  assert (Hscore : Manager.score (Manager.candidateFor m params p a)
                   == weightedScore (fromAdapter (getCapabilities a))
                        (estimateCost a params) (config m p) * (1 # 2)).
  { simpl. unfold calculateProviderScore. simpl.
    set (s := weightedScore _ _ _) in *.
    rewrite Q.min_l; [ lra | ].
    assert (H1 : 1.0 == 1) by reflexivity. lra. }
  split; [ exact Hscore | ].
  set (s := weightedScore _ _ _) in *.
  split; [ rewrite Hscore; lra | ].
  split; [ rewrite Hscore; lra | ].
  unfold Manager.candidateFor. cbn [Manager.reason].
  unfold Manager.generateSelectionReason.
  rewrite Qlt_bool_false_intro.
  - destruct (Qlt_bool _ _); [ discriminate | ].
    destruct (Qle_bool _ _); discriminate.
  - change (Manager.score (Manager.candidateFor m params p a) <= 0.8).
    rewrite Hscore. lra.
Qed.

Lemma default_candidate_score_bounded_witness :
  Manager.score (Manager.candidateFor sdFailsImagenAnswers sampleParams
                   stableDiffusion failingStableDiffusion) <= (625 # 1000)
  /\ Manager.reason (Manager.candidateFor sdFailsImagenAnswers sampleParams
                       stableDiffusion failingStableDiffusion)
     <> "Optimal cost/quality balance"%string.
Proof.
  assert (Hdefault : defaultWeights sdFailsImagenAnswers)
    by (intros p; exists true; destruct p; reflexivity).
  assert (Hcost : 0 <= costPerImage (estimateCost failingStableDiffusion sampleParams))
    by (vm_compute; discriminate).
  destruct (default_candidate_score_bounded sdFailsImagenAnswers sampleParams
              stableDiffusion failingStableDiffusion Hdefault Hcost)
    as (_ & _ & Hhigh & Hreason).
  split; [ exact Hhigh | exact Hreason ].
Defined.

(** ** Cost quotes *)

Section Quotes.

Variable m : ProviderManager.
Variable params : UnifiedImageParams.

Local Abbreviation quoteOfEntry :=
  (fun entry : ImageProvider * BaseImageProvider =>
     if isProviderAvailable m (fst entry) && validateParams (snd entry) params
     then [(fst entry, estimateCost (snd entry) params)]
     else []).

Lemma estimateCostLoop_spec : forall entries estimates w,
  exists w' evs,
    ManagerApi.estimateCostLoop m params entries estimates w
    = (Returned (estimates ++ flat_map quoteOfEntry entries), w')
    /\ extends w w' evs 0
    /\ quiet evs
    /\ scoredProviders evs = [].
Proof.
  induction entries as [|[n a] entries IH]; intros estimates w.
  - exists w, []. simpl. rewrite app_nil_r. nothing_happened.
  - simpl ManagerApi.estimateCostLoop. simpl flat_map.
    destruct (isProviderAvailable m n) eqn:Eav; simpl.
    + destruct (call_validateParams_spec a n params w) as (w1 & Hrun & Hext).
      rewrite (bind_returned _ _ _ _ _ Hrun).
      destruct (validateParams a params) eqn:Eval; simpl.
      * destruct (IH (estimates ++ [(n, estimateCost a params)]) w1)
          as (w' & evs & Hloop & Hext' & Hq & Hs).
        exists w', ([EvValidate n] ++ evs). rewrite Hloop, <- app_assoc.
        split4.
        -- reflexivity.
        -- change 0%Z with (0 + 0)%Z. eapply extends_trans; eassumption.
        -- apply (quiet_app [EvValidate n] evs); [ apply quiet_nil | exact Hq ].
        -- rewrite scoredProviders_app, Hs. reflexivity.
      * destruct (IH estimates w1) as (w' & evs & Hloop & Hext' & Hq & Hs).
        exists w', ([EvValidate n] ++ evs). rewrite Hloop.
        split4.
        -- reflexivity.
        -- change 0%Z with (0 + 0)%Z. eapply extends_trans; eassumption.
        -- apply (quiet_app [EvValidate n] evs); [ apply quiet_nil | exact Hq ].
        -- rewrite scoredProviders_app, Hs. reflexivity.
    + destruct (IH estimates w) as (w' & evs & Hloop & Hext' & Hq & Hs).
      exists w', evs. rewrite Hloop. auto.
Qed.

Lemma quotes_match_candidates (entries : list (ImageProvider * BaseImageProvider)) :
  map (fun quote => (fst quote, totalCost (snd quote))) (flat_map quoteOfEntry entries)
  = map (fun c => (Manager.c_provider c, Manager.c_estimatedCost c))
      (flat_map (fun entry : ImageProvider * BaseImageProvider =>
                   if isProviderAvailable m (fst entry) && validateParams (snd entry) params
                   then [Manager.candidateFor m params (fst entry) (snd entry)]
                   else [])
                entries).
Proof.
  induction entries as [|[n a] entries IH]; [ reflexivity | ].
  simpl. rewrite !map_app, IH.
  destruct (isProviderAvailable m n && validateParams a params); reflexivity.
Qed.

End Quotes.

(** X16. [estimateCost] of the manager never throws and quotes exactly the
    providers that automatic selection would score for the same request, in
    the same order and with the same total cost; it asks no adapter to
    generate, writes no record, and takes no time of the clock. *)
Theorem estimateCost_quotes_the_candidates :
  forall (m : ProviderManager) (params : UnifiedImageParams) (w : World),
    exists w' estimates evs,
      ManagerApi.estimateCost m params w = (Returned estimates, w')
      /\ map (fun quote => (fst quote, totalCost (snd quote))) estimates
         = map (fun c => (Manager.c_provider c, Manager.c_estimatedCost c))
             (candidatesOf m params)
      /\ (forall p cost, In (p, cost) estimates -> isProviderAvailable m p = true)
      /\ extends w w' evs 0
      /\ generateCalls evs = []
      /\ recordedMetrics evs = [].
Proof.
  intros m params w.
  destruct (estimateCostLoop_spec m params (providers m) [] w)
    as (w' & evs & Hrun & Hext & [Hcalls Hmetrics] & _).
  simpl app in Hrun.
  eexists w', _, evs. split; [ exact Hrun | ].
  split; [ apply quotes_match_candidates | ].
  split.
  - intros p cost Hin. apply in_flat_map in Hin.
    destruct Hin as ([n a] & _ & Hin). simpl in Hin.
    destruct (isProviderAvailable m n) eqn:Eav; [ | contradiction ].
    destruct (validateParams a params); [ | contradiction ].
    destruct Hin as [H | []]. injection H as <- _. exact Eav.
  - auto.
Qed.

(** ** Enabling and disabling *)

Lemma available_after_update (m : ProviderManager) (p q : ImageProvider) (b : bool) :
  isProviderAvailable (update_config m p b) q
  = if ImageProvider_eqb q p
    then providers_has (providers m) q && b
         && match healthStatus m q with Some true => true | _ => false end
    else isProviderAvailable m q.
Proof.
  unfold isProviderAvailable, update_config. simpl.
  destruct (ImageProvider_eqb q p); [ | reflexivity ].
  simpl. now destruct b.
Qed.

(** X17. Disabling a provider removes it, and nothing else, from the list of
    available providers.  Enabling a provider makes it available exactly
    when it is registered and cached healthy, and changes the availability
    of no other provider. *)
Theorem enable_disable_availability :
  forall (m : ProviderManager) (p : ImageProvider),
    getAvailableProviders (disableProvider m p)
    = filter (fun q => negb (ImageProvider_eqb q p)) (getAvailableProviders m)
    /\ isProviderAvailable (enableProvider m p) p
       = providers_has (providers m) p
         && match healthStatus m p with Some true => true | _ => false end
    /\ (forall q, q <> p ->
                  isProviderAvailable (enableProvider m p) q = isProviderAvailable m q).
Proof.
  intros m p. split; [ | split ].
  - unfold getAvailableProviders, disableProvider. simpl.
    induction (map fst (providers m)) as [|q l IH]; [ reflexivity | ].
    simpl. rewrite available_after_update.
    destruct (ImageProvider_eqb q p) eqn:E.
    + rewrite andb_false_r. simpl.
      destruct (isProviderAvailable m q); simpl; rewrite ?E; exact IH.
    + destruct (isProviderAvailable m q); simpl; rewrite ?E; simpl; now rewrite IH.
  - unfold enableProvider. rewrite available_after_update, ImageProvider_eqb_refl.
    now rewrite andb_true_r.
  - intros q Hq. unfold enableProvider. rewrite available_after_update.
    destruct (ImageProvider_eqb q p) eqn:E; [ | reflexivity ].
    apply ImageProvider_eqb_eq in E. contradiction.
Qed.

Lemma enable_disable_availability_witness :
  isProviderAvailable (enableProvider onlyUnhealthyImagen stableDiffusion) imagen4
  = isProviderAvailable onlyUnhealthyImagen imagen4.
Proof.
  apply (proj2 (proj2 (enable_disable_availability onlyUnhealthyImagen stableDiffusion))).
  discriminate.
Defined.

(** ** Construction *)

(** X18. The constructor fails exactly when no adapter is configured.
    Otherwise the adapters are registered in the order DALL-E, Imagen, Stable
    Diffusion, each under its fixed name, with the default configuration;
    once the first health sweep has run, a provider is available exactly
    when it was configured and its own health check answered true. *)
Theorem constructed_manager :
  forall (dalle imagen sd : option BaseImageProvider),
    (newProviderManager dalle imagen sd = None
     <-> dalle = None /\ imagen = None /\ sd = None)
    /\ (forall m, newProviderManager dalle imagen sd = Some m ->
          config m = initializeDefaultConfig
          /\ map fst (providers m)
             = filter (fun p => match configuredAdapter dalle imagen sd p with
                                | Some _ => true
                                | None => false
                                end) [dalleE3; imagen4; stableDiffusion]
          /\ (forall p, providers_get (providers m) p = configuredAdapter dalle imagen sd p)
          /\ (forall p, isProviderAvailable m p
                        = match configuredAdapter dalle imagen sd p with
                          | Some a => checkHealth a
                          | None => false
                          end)).
Proof.
  intros dalle imagen sd. split.
  - destruct dalle, imagen, sd; simpl; split;
      try discriminate; try tauto; intros (A & B & C); discriminate.
  - intros m Hm.
    destruct dalle as [d|], imagen as [i|], sd as [s|]; simpl in Hm;
      try discriminate; injection Hm as <-;
      (split; [ reflexivity | split; [ reflexivity | split ] ]);
      intros p; destruct p; try reflexivity;
      unfold isProviderAvailable; simpl;
      match goal with |- context [checkHealth ?a] => now destruct (checkHealth a) end.
Qed.

Lemma constructed_manager_witness :
  getAvailableProviders sdFailsImagenAnswers = [imagen4; stableDiffusion]
  /\ isProviderAvailable onlyUnhealthyImagen imagen4 = false.
Proof.
  split.
  - reflexivity.
  - rewrite (proj2 (proj2 (proj2 (proj2 (constructed_manager None (Some unhealthyImagen) None)
                                     onlyUnhealthyImagen eq_refl)))).
    reflexivity.
Defined.

(** ** The health sweep *)

Lemma ImageProvider_eqb_sym (p q : ImageProvider) :
  ImageProvider_eqb p q = ImageProvider_eqb q p.
Proof. destruct p, q; reflexivity. Qed.

Lemma providers_get_absent (l : list (ImageProvider * BaseImageProvider)) (p : ImageProvider) :
  ~ In p (map fst l) -> providers_get l p = None.
Proof.
  induction l as [|[k v] l IH]; simpl; [ reflexivity | ].
  intros Hnot. destruct (ImageProvider_eqb k p) eqn:E.
  - apply ImageProvider_eqb_eq in E. tauto.
  - apply IH. tauto.
Qed.

Section Sweep.

Variable now : Z.

Local Abbreviation checked st entries p :=
  (match providers_get entries p with
   | Some a =>
       if checkDue now st p
       then (Some (checkHealth a), Some now)
       else (healthStatus (HealthMonitor.manager st) p, HealthMonitor.lastHealthCheck st p)
   | None => (healthStatus (HealthMonitor.manager st) p, HealthMonitor.lastHealthCheck st p)
   end).

Lemma sweep_spec : forall entries st,
  NoDup (map fst entries) ->
  providers (HealthMonitor.manager (HealthMonitor.sweep now entries st))
  = providers (HealthMonitor.manager st)
  /\ config (HealthMonitor.manager (HealthMonitor.sweep now entries st))
     = config (HealthMonitor.manager st)
  /\ forall p,
       (healthStatus (HealthMonitor.manager (HealthMonitor.sweep now entries st)) p,
        HealthMonitor.lastHealthCheck (HealthMonitor.sweep now entries st) p)
       = checked st entries p.
Proof.
  induction entries as [|[n a] entries IH]; intros st Hnd.
  - simpl. auto.
  - inversion Hnd as [|? ? Hnot Hnd']; subst.
    pose proof (providers_get_absent entries n Hnot) as Habsent.
    simpl HealthMonitor.sweep.
    destruct (Qlt_bool
                (inject_Z (now - HealthMonitor.lastCheckOf (HealthMonitor.lastHealthCheck st) n))
                (healthCheckInterval (config (HealthMonitor.manager st) n))) eqn:Esoon.
    + destruct (IH st Hnd') as (Hp & Hc & Hall).
      split; [ exact Hp | split; [ exact Hc | ] ].
      intros p. rewrite Hall. simpl providers_get.
      destruct (ImageProvider_eqb n p) eqn:E; [ | reflexivity ].
      apply ImageProvider_eqb_eq in E. subst p. rewrite Habsent.
      unfold checkDue. now rewrite Esoon.
    + destruct (IH (HealthMonitor.setHealth st n (checkHealth a) now) Hnd')
        as (Hp & Hc & Hall).
      split; [ exact Hp | split; [ exact Hc | ] ].
      intros p. rewrite Hall. simpl providers_get.
      destruct (ImageProvider_eqb n p) eqn:E.
      * apply ImageProvider_eqb_eq in E. subst p. rewrite Habsent.
        unfold checkDue. rewrite Esoon. simpl.
        now rewrite ImageProvider_eqb_refl.
      * assert (E' : ImageProvider_eqb p n = false)
          by (now rewrite ImageProvider_eqb_sym).
        unfold checkDue, HealthMonitor.lastCheckOf. simpl. rewrite E'. reflexivity.
Qed.

Lemma sweep_nothing_due : forall entries st,
  (forall entry, In entry entries -> checkDue now st (fst entry) = false) ->
  HealthMonitor.sweep now entries st = st.
Proof.
  induction entries as [|[n a] entries IH]; intros st Hnone; [ reflexivity | ].
  simpl. pose proof (Hnone (n, a) (or_introl eq_refl)) as Hn.
  unfold checkDue in Hn. simpl in Hn. apply negb_false_iff in Hn. rewrite Hn.
  apply IH. intros entry Hin. apply Hnone. now right.
Qed.

End Sweep.

(** X19. One health sweep, for a manager whose registered names are
    distinct: an adapter is consulted exactly when the time since its last
    check is not below its interval; then its cached health becomes the
    answer of its own check and its last-check time the time of the sweep.
    Every other name keeps its cached health and last-check time, and the
    registrations and the configuration are unchanged.  So while no adapter
    is due the sweep changes nothing, whatever the adapters would answer. *)
Theorem health_sweep_checks_only_due_adapters :
  forall (now : Z) (st : HealthMonitor.State),
    NoDup (map fst (providers (HealthMonitor.manager st))) ->
    providers (HealthMonitor.manager (HealthMonitor.performHealthChecks now st))
    = providers (HealthMonitor.manager st)
    /\ config (HealthMonitor.manager (HealthMonitor.performHealthChecks now st))
       = config (HealthMonitor.manager st)
    /\ (forall p a,
           providers_get (providers (HealthMonitor.manager st)) p = Some a ->
           checkDue now st p = true ->
           healthStatus (HealthMonitor.manager (HealthMonitor.performHealthChecks now st)) p
           = Some (checkHealth a)
           /\ HealthMonitor.lastHealthCheck (HealthMonitor.performHealthChecks now st) p
              = Some now)
    /\ (forall p,
           providers_get (providers (HealthMonitor.manager st)) p = None
           \/ checkDue now st p = false ->
           healthStatus (HealthMonitor.manager (HealthMonitor.performHealthChecks now st)) p
           = healthStatus (HealthMonitor.manager st) p
           /\ HealthMonitor.lastHealthCheck (HealthMonitor.performHealthChecks now st) p
              = HealthMonitor.lastHealthCheck st p)
    /\ ((forall entry, In entry (providers (HealthMonitor.manager st)) ->
                       checkDue now st (fst entry) = false) ->
        HealthMonitor.performHealthChecks now st = st).
Proof.
  intros now st Hnd. unfold HealthMonitor.performHealthChecks.
  destruct (sweep_spec now (providers (HealthMonitor.manager st)) st Hnd)
    as (Hp & Hc & Hall).
  split; [ exact Hp | split; [ exact Hc | split; [ | split ] ] ].
  - intros p a Hget Hdue. specialize (Hall p). rewrite Hget, Hdue in Hall.
    injection Hall as -> ->. auto.
  - intros p Hcase. specialize (Hall p).
    destruct (providers_get (providers (HealthMonitor.manager st)) p) as [a|].
    + destruct Hcase as [Hcase|Hcase]; [ discriminate | ].
      rewrite Hcase in Hall. injection Hall as -> ->. auto.
    + injection Hall as -> ->. auto.
  - apply sweep_nothing_due.
Qed.

Lemma sample_names_distinct : NoDup (map fst (providers sdFailsImagenAnswers)).
Proof. repeat constructor; simpl; intuition discriminate. Qed.

Lemma health_sweep_checks_only_due_adapters_witness :
  NoDup (map fst (providers (HealthMonitor.manager (neverChecked sdFailsImagenAnswers))))
  /\ healthStatus
       (HealthMonitor.manager
          (HealthMonitor.performHealthChecks 1700000000000
             (neverChecked sdFailsImagenAnswers))) imagen4
     = Some true
  /\ HealthMonitor.lastHealthCheck
       (HealthMonitor.performHealthChecks 1700000000000
          (neverChecked sdFailsImagenAnswers)) imagen4
     = Some 1700000000000%Z.
Proof.
  split; [ exact sample_names_distinct | ].
  apply (proj1 (proj2 (proj2 (health_sweep_checks_only_due_adapters 1700000000000
                                (neverChecked sdFailsImagenAnswers)
                                sample_names_distinct)))
           imagen4 answeringImagen); reflexivity.
Defined.

(** X20. The first sweep after construction, at a clock time not below the
    check intervals, consults every registered adapter: the cached health it
    leaves is the one of [performHealthChecks] on the bare manager, the
    answer of each registered adapter's own check.  A second sweep that
    comes before any interval has passed since the first changes nothing. *)
Theorem first_sweep_checks_every_adapter :
  forall (m : ProviderManager) (now later : Z),
    NoDup (map fst (providers m)) ->
    (forall p, healthCheckInterval (config m p) <= inject_Z now) ->
    (forall p, inject_Z (later - now) < healthCheckInterval (config m p)) ->
    (forall p,
        healthStatus (HealthMonitor.manager
                        (HealthMonitor.performHealthChecks now (neverChecked m))) p
        = healthStatus (performHealthChecks m) p)
    /\ HealthMonitor.performHealthChecks later
         (HealthMonitor.performHealthChecks now (neverChecked m))
       = HealthMonitor.performHealthChecks now (neverChecked m).
Proof.
  intros m now later Hnd Hdue Hsoon.
  assert (Hall : forall p, checkDue now (neverChecked m) p = true).
  { intros p. unfold checkDue, neverChecked, HealthMonitor.lastCheckOf. simpl.
    rewrite Z.sub_0_r. rewrite Qlt_bool_false_intro; [ reflexivity | apply Hdue ]. }
  destruct (sweep_spec now (providers m) (neverChecked m) Hnd) as (Hp & Hc & Hchecked).
  simpl in Hp, Hc.
  unfold HealthMonitor.performHealthChecks.
  change (providers (HealthMonitor.manager (neverChecked m))) with (providers m).
  split.
  - intros p. specialize (Hchecked p). rewrite Hall in Hchecked.
    simpl performHealthChecks. simpl healthStatus at 2.
    destruct (providers_get (providers m) p) as [a|]; now injection Hchecked as -> _.
  - apply sweep_nothing_due.
    intros [n a] Hin. simpl fst.
    rewrite Hp in Hin.
    assert (Hget : exists a', providers_get (providers m) n = Some a').
    { clear - Hin. induction (providers m) as [|[k v] l IH]; [ contradiction | ].
      simpl. destruct (ImageProvider_eqb k n) eqn:E; [ now exists v | ].
      destruct Hin as [Hin|Hin]; [ | now apply IH ].
      injection Hin as -> _. now rewrite ImageProvider_eqb_refl in E. }
    destruct Hget as [a' Hget].
    specialize (Hchecked n). rewrite Hget, Hall in Hchecked.
    unfold checkDue, HealthMonitor.lastCheckOf. rewrite Hc.
    injection Hchecked as _ ->.
    rewrite Qlt_bool_true_intro; [ reflexivity | apply Hsoon ].
Qed.

Lemma first_sweep_checks_every_adapter_witness :
  healthStatus (HealthMonitor.manager
                  (HealthMonitor.performHealthChecks 1700000000000
                     (neverChecked sdFailsImagenAnswers))) stableDiffusion
  = healthStatus (performHealthChecks sdFailsImagenAnswers) stableDiffusion
  /\ HealthMonitor.performHealthChecks 1700000060000
       (HealthMonitor.performHealthChecks 1700000000000 (neverChecked sdFailsImagenAnswers))
     = HealthMonitor.performHealthChecks 1700000000000 (neverChecked sdFailsImagenAnswers).
Proof.
  assert (Hdue : forall p, healthCheckInterval (config sdFailsImagenAnswers p)
                           <= inject_Z 1700000000000)
    by (intros p; destruct p; vm_compute; discriminate).
  assert (Hsoon : forall p, inject_Z (1700000060000 - 1700000000000)
                            < healthCheckInterval (config sdFailsImagenAnswers p))
    by (intros p; destruct p; vm_compute; reflexivity).
  destruct (first_sweep_checks_every_adapter sdFailsImagenAnswers
              1700000000000 1700000060000 sample_names_distinct Hdue Hsoon) as [Hfirst Hsecond].
  split; [ apply Hfirst | exact Hsecond ].
Defined.

(** ** Validation before every call *)

Lemma providers_get_of_entry (l : list (ImageProvider * BaseImageProvider))
    (n : ImageProvider) (a : BaseImageProvider) :
  NoDup (map fst l) -> In (n, a) l -> providers_get l n = Some a.
Proof.
  induction l as [|[k v] l IH]; simpl; [ contradiction | ].
  intros Hnd Hin. inversion Hnd as [|? ? Hnot Hnd']; subst.
  destruct Hin as [Hin|Hin].
  - injection Hin as -> ->. now rewrite ImageProvider_eqb_refl.
  - destruct (ImageProvider_eqb k n) eqn:E; [ | now apply IH ].
    apply ImageProvider_eqb_eq in E. subst k.
    exfalso. apply Hnot. change n with (fst (n, a)). now apply in_map.
Qed.

Lemma candidate_validated (m : ProviderManager) (params : UnifiedImageParams)
    (c : Manager.Candidate) :
  NoDup (map fst (providers m)) ->
  In c (candidatesOf m params) ->
  exists a, providers_get (providers m) (Manager.c_provider c) = Some a
            /\ validateParams a params = true.
Proof.
  intros Hnd Hin. unfold candidatesOf in Hin. apply in_flat_map in Hin.
  destruct Hin as ([n a] & Hentry & Hin). simpl in Hin.
  destruct (isProviderAvailable m n); [ | contradiction ].
  destruct (validateParams a params) eqn:Ev; [ | contradiction ].
  destruct Hin as [<- | []]. simpl.
  exists a. split; [ now apply providers_get_of_entry | exact Ev ].
Qed.

Lemma selection_validated (m : ProviderManager) (params : UnifiedImageParams)
    (selection : Manager.ProviderSelection) :
  NoDup (map fst (providers m)) ->
  selectionOf m params = Returned selection ->
  exists a, providers_get (providers m) (Manager.sel_provider selection) = Some a
            /\ validateParams a params = true.
Proof.
  intros Hnd. unfold selectionOf.
  destruct (explicitChoice m params) as [chosen|] eqn:Echoice.
  - intros H. injection H as <-. unfold explicitChoice in Echoice.
    destruct (provider params) as [name|]; [ | discriminate ].
    destruct (isProviderAvailable m name); [ | discriminate ].
    destruct (providers_get (providers m) name) as [a|] eqn:Eget; [ | discriminate ].
    destruct (validateParams a params) eqn:Ev; [ | discriminate ].
    injection Echoice as <-. simpl. now exists a.
  - destruct (candidatesOf m params) as [|first rest] eqn:Ec; [ discriminate | ].
    intros H. injection H as <-. simpl.
    apply (candidate_validated m params); [ exact Hnd | ].
    rewrite Ec. apply bestCandidate_in.
Qed.

Lemma attempts_validated (m : ProviderManager) (params : UnifiedImageParams)
    (tried : ImageProvider) :
  forall p f,
    In (p, f) (attemptsUntilSuccess params (eligibleFallbacks m params tried)) ->
    exists a, providers_get (providers m) p = Some a
              /\ validateParams a params = true
              /\ f = match generateImage a params with
                     | inl e => Some e
                     | inr _ => None
                     end.
Proof.
  assert (Hall : Forall (fun entry : ImageProvider * BaseImageProvider =>
                           providers_get (providers m) (fst entry) = Some (snd entry)
                           /\ validateParams (snd entry) params = true)
                   (eligibleFallbacks m params tried)).
  { apply Forall_forall. intros [p a] Hin. unfold eligibleFallbacks in Hin.
    apply in_flat_map in Hin. destruct Hin as (q & _ & Hin).
    destruct (providers_get (providers m) q) as [b|] eqn:Eget; [ | contradiction ].
    destruct (isProviderAvailable m q); [ | contradiction ].
    destruct (validateParams b params) eqn:Ev; [ | contradiction ].
    destruct Hin as [H | []]. injection H as <- <-. auto. }
  induction Hall as [|[q a] l [Hget Hv] _ IH]; intros p f; simpl; [ tauto | ].
  simpl in Hget, Hv.
  destruct (generateImage a params) as [e|r] eqn:Egen.
  - intros [H|H]; [ | now apply IH ].
    injection H as <- <-. exists a. now rewrite Egen.
  - intros [H|[]]. injection H as <- <-. exists a. now rewrite Egen.
Qed.

(** X21. In a manager whose adapters are registered under their own,
    distinct names, an adapter is asked to generate only after its own
    validation accepted the request: every adapter call of a request, to the
    selected provider or to a fallback, goes to a registered adapter whose
    [validateParams] holds for the request, and the failure logged for the
    call is what that adapter's [generateImage] answered. *)
Theorem called_adapters_passed_validation :
  forall (m : ProviderManager) (params : UnifiedImageParams) (t0 : Z) (redis : bool),
    namesConsistent m ->
    NoDup (map fst (providers m)) ->
    forall p f,
      In (p, f) (generateCalls
                   (log (snd (Manager.generateImage m params (freshWorld t0 redis))))) ->
      exists a, providers_get (providers m) p = Some a
                /\ validateParams a params = true
                /\ f = match generateImage a params with
                       | inl e => Some e
                       | inr _ => None
                       end.
Proof.
  intros m params t0 redis Hnames Hnd p f.
  rewrite generateCalls_of_request. unfold requestCalls.
  destruct (selectionOf m params) as [selection|e] eqn:Esel; [ | intros [] ].
  destruct (selection_validated m params selection Hnd Esel) as (primary & Hget & Hv).
  rewrite Hget. unfold withFallbackCalls.
  pose proof (Hnames _ _ Hget) as Hname.
  destruct (generateImage primary params) as [e|r] eqn:Egen.
  - intros [H|H].
    + injection H as <- <-. exists primary. rewrite Hname, Egen. auto.
    + now apply (attempts_validated m params (getName primary)).
  - intros [H|[]]. injection H as <- <-. exists primary. rewrite Hname, Egen. auto.
Qed.

Lemma called_adapters_passed_validation_witness :
  exists a, providers_get (providers sdFailsImagenAnswers) imagen4 = Some a
            /\ validateParams a sampleParams = true
            /\ (None : option JsError)
               = match generateImage a sampleParams with
                 | inl e => Some e
                 | inr _ => None
                 end.
Proof.
  apply (called_adapters_passed_validation sdFailsImagenAnswers sampleParams 0 true
           sample_names_consistent sample_names_distinct imagen4 None).
  right. left. reflexivity.
Defined.

(** ** Redis reconnection *)

(** X22. The reconnect strategy gives up exactly when more than 10 retries
    have been made; otherwise the wait is 50 ms per retry, at most 500 ms:
    the cap of 1000 ms is never reached. *)
Theorem reconnect_delay_never_capped :
  forall retries : Q,
    match Redis.reconnectStrategy retries with
    | inl error => 10 < retries /\ error = Error "Redis connection failed"
    | inr delay => retries <= 10 /\ delay == retries * 50 /\ delay <= 500 /\ delay < 1000
    end.
Proof.
  intros retries. unfold Redis.reconnectStrategy.
  destruct (Qlt_bool 10 retries) eqn:E.
  - apply Qlt_bool_true in E. auto.
  - apply Qlt_bool_false in E.
    assert (Hmin : Qmin (retries * 50) 1000 == retries * 50) by (apply Q.min_l; lra).
    rewrite Hmin. repeat split; lra.
Qed.

(** ** The rate-limit tracker *)


(** ** Batches of Imagen requests *)

Section Batches.

Variable count batchSize : Q.

Lemma batchCounts_done (fuel : nat) (i : Q) :
  count <= i -> batchCounts fuel count batchSize i = [].
Proof.
  intros H. destruct fuel; [ reflexivity | ].
  simpl. now rewrite Qlt_bool_false_intro.
Qed.

Lemma inject_S (n : nat) : inject_Z (Z.of_nat (S n)) == inject_Z (Z.of_nat n) + 1.
Proof. rewrite Nat2Z.inj_succ, <- Z.add_1_r, inject_Z_plus. reflexivity. Qed.

(** With enough fuel the loop ends at its guard: the batches add up to what
    was left, and there are as many as the batch size requires. *)
Lemma batchCounts_spec : forall (fuel : nat) (i : Q),
  i < count ->
  count - i <= inject_Z (Z.of_nat fuel) * batchSize ->
  Qsum (batchCounts fuel count batchSize i) == count - i
  /\ (inject_Z (Z.of_nat (List.length (batchCounts fuel count batchSize i))) - 1) * batchSize
     < count - i
  /\ count - i
     <= inject_Z (Z.of_nat (List.length (batchCounts fuel count batchSize i))) * batchSize.
Proof.
  induction fuel as [|fuel IH]; intros i Hi Hfuel.
  - change (inject_Z (Z.of_nat 0)) with 0 in Hfuel. exfalso. lra.
  - simpl batchCounts. rewrite (Qlt_bool_true_intro i count Hi).
    rewrite inject_S in Hfuel.
    destruct (Qlt_le_dec (i + batchSize) count) as [Hmore|Hlast].
    + destruct (IH (i + batchSize) Hmore) as (Hsum & Hlow & Hhigh); [ lra | ].
      set (rest := batchCounts fuel count batchSize (i + batchSize)) in *.
      assert (Hmin : Qmin batchSize (count - i) == batchSize) by (apply Q.min_l; lra).
      cbn [Qsum fold_right List.length]. fold (Qsum rest).
      rewrite inject_S, Hmin, Hsum.
      split; [ lra | split; lra ].
    + rewrite (batchCounts_done fuel (i + batchSize) Hlast).
      assert (Hmin : Qmin batchSize (count - i) == count - i) by (apply Q.min_r; lra).
      cbn [Qsum fold_right List.length]. rewrite Hmin.
      change (inject_Z (Z.of_nat 1)) with 1.
      split; [ lra | split; lra ].
Qed.

Lemma batchCounts_bounds : 0 < batchSize -> forall (fuel : nat) (i : Q),
  Forall (fun size => 0 < size /\ size <= batchSize) (batchCounts fuel count batchSize i).
Proof.
  intros batchSize_pos.
  induction fuel as [|fuel IH]; intros i; simpl; [ constructor | ].
  destruct (Qlt_bool i count) eqn:E; [ | constructor ].
  apply Qlt_bool_true in E.
  constructor; [ | apply IH ].
  split; [ apply Q.min_glb_lt; lra | apply Q.le_min_l ].
Qed.

(** More fuel than needed changes nothing. *)
Lemma batchCounts_fuel : forall (fuel extra : nat) (i : Q),
  count - i <= inject_Z (Z.of_nat fuel) * batchSize ->
  batchCounts (fuel + extra) count batchSize i = batchCounts fuel count batchSize i.
Proof.
  induction fuel as [|fuel IH]; intros extra i Hfuel.
  - change (inject_Z (Z.of_nat 0)) with 0 in Hfuel. apply batchCounts_done. lra.
  - simpl. destruct (Qlt_bool i count); [ | reflexivity ].
    f_equal. apply IH. rewrite inject_S in Hfuel. lra.
Qed.

Lemma batchLoop_calls (generateImage : UnifiedImageParams -> JsError + ImageResult)
    (params : UnifiedImageParams) : forall (fuel : nat) (i : Q) (results : list ImageResult),
  ImagenBatches.batchLoop fuel generateImage params count batchSize i results
  = callInOrder generateImage
      (map (ImagenBatches.withCount params) (batchCounts fuel count batchSize i)) results.
Proof.
  induction fuel as [|fuel IH]; intros i results; simpl; [ reflexivity | ].
  destruct (Qlt_bool i count); [ | reflexivity ].
  simpl. destruct (generateImage _) as [e|r]; [ reflexivity | apply IH ].
Qed.

End Batches.

Lemma enough_fuel (c : Q) :
  1 < c -> c - 0 <= inject_Z (Z.of_nat (Z.to_nat (Math_ceil c))) * Qmin c 4.
Proof.
  intros Hc. unfold Math_ceil.
  pose proof (Qle_ceiling c) as Hceil.
  assert (Hpos : (0 <= Qceiling c)%Z).
  { apply Z.le_trans with (Qceiling (inject_Z 0)).
    - rewrite Qceiling_Z. lia.
    - apply Qceiling_resp_le. change (inject_Z 0) with 0. lra. }
  rewrite Z2Nat.id by exact Hpos.
  assert (Hb : 1 <= Qmin c 4) by (apply Q.min_glb; lra).
  set (n := inject_Z (Qceiling c)) in *. set (b := Qmin c 4) in *.
  assert (Hn : 0 <= n) by lra.
  assert (Hprod : 1 * n <= b * n) by (apply Qmult_le_compat_r; assumption).
  lra.
Qed.

Lemma callInOrder_length (generateImage : UnifiedImageParams -> JsError + ImageResult) :
  forall (requests : list UnifiedImageParams) (results found : list ImageResult),
    callInOrder generateImage requests results = inr found ->
    List.length found = (List.length results + List.length requests)%nat.
Proof.
  induction requests as [|request rest IH]; intros results found; simpl.
  - intros H. injection H as <-. lia.
  - destruct (generateImage request) as [e|r]; [ discriminate | ].
    intros H. apply IH in H. rewrite H, length_app. simpl. lia.
Qed.

(** X24. [generateMultipleImages] for a request of more than one image asks
    for batches whose sizes add up to the count requested, each above 0 and
    at most 4, so no batch is refused for its count; it makes one call per
    batch, in order, and stops at the first call that throws.  There are
    [ceil (count / 4)] batches, and a successful run returns one result per
    batch, not one per image. *)
Theorem imagen_batches_cover_the_count :
  forall (generateImage : UnifiedImageParams -> JsError + ImageResult)
         (params : UnifiedImageParams) (c : Q),
    count params = Some c ->
    1 < c ->
    Qsum (batchesOf c) == c
    /\ Forall (fun size => 0 < size /\ size <= 4) (batchesOf c)
    /\ (inject_Z (Z.of_nat (List.length (batchesOf c))) - 1) * Qmin c 4 < c
    /\ c <= inject_Z (Z.of_nat (List.length (batchesOf c))) * Qmin c 4
    /\ (forall extra : nat,
           batchCounts (Z.to_nat (Math_ceil c) + extra) c (Qmin c 4) 0 = batchesOf c)
    /\ ImagenBatches.generateMultipleImages generateImage params
       = callInOrder generateImage (map (ImagenBatches.withCount params) (batchesOf c)) []
    /\ (forall results,
           ImagenBatches.generateMultipleImages generateImage params = inr results ->
           List.length results = List.length (batchesOf c)).
Proof.
  intros generateImage params c Hcount Hc.
  assert (Hb : 0 < Qmin c 4) by (apply Q.min_glb_lt; lra).
  pose proof (enough_fuel c Hc) as Hfuel.
  destruct (batchCounts_spec c (Qmin c 4) (Z.to_nat (Math_ceil c)) 0)
    as (Hsum & Hlow & Hhigh); [ lra | exact Hfuel | ].
  fold (batchesOf c) in Hsum, Hlow, Hhigh.
  assert (Hrun : ImagenBatches.generateMultipleImages generateImage params
                 = callInOrder generateImage
                     (map (ImagenBatches.withCount params) (batchesOf c)) []).
  { unfold ImagenBatches.generateMultipleImages. rewrite Hcount.
    assert (Hnz : Qeq_bool c 0 = false).
    { destruct (Qeq_bool c 0) eqn:E; [ | reflexivity ].
      apply Qeq_bool_iff in E. lra. }
    assert (Hgt : Qle_bool c 1 = false).
    { destruct (Qle_bool c 1) eqn:E; [ | reflexivity ].
      apply Qle_bool_iff in E. lra. }
    unfold truthyQ. rewrite Hnz, Hgt. simpl.
    apply batchLoop_calls. }
  split; [ rewrite Hsum; lra | ].
  split.
  { eapply Forall_impl; [ | apply (batchCounts_bounds c (Qmin c 4) Hb) ].
    cbv beta. intros size [Hpos Hle]. split; [ exact Hpos | ].
    eapply Qle_trans; [ exact Hle | apply Q.le_min_r ]. }
  split; [ lra | ].
  split; [ lra | ].
  split; [ intros extra; now apply batchCounts_fuel | ].
  split; [ exact Hrun | ].
  intros results Hres. rewrite Hrun in Hres.
  apply callInOrder_length in Hres. rewrite Hres, length_map. reflexivity.
Qed.

Lemma imagen_batches_cover_the_count_witness :
  batchesOf 11 = [4; 4; 3]
  /\ Qsum (batchesOf 11) == 11
  /\ forall results,
       ImagenBatches.generateMultipleImages
         (fun request => inr (sampleResult imagen4 0.03)) elevenImages = inr results ->
       List.length results = 3%nat.
Proof.
  split; [ reflexivity | ].
  destruct (imagen_batches_cover_the_count
              (fun request => inr (sampleResult imagen4 0.03)) elevenImages 11 eq_refl)
    as (Hsum & _ & _ & _ & _ & _ & Hlen); [ reflexivity | ].
  split; [ exact Hsum | exact Hlen ].
Defined.

(** ** The most used templates *)

Lemma sorted_prefix_dominates {X} (key : X -> Q) : forall (l : list X) (k : nat),
  StronglySorted (fun a b => key b <= key a) l ->
  StronglySorted (fun a b => key b <= key a) (firstn k l)
  /\ forall t u, In t (firstn k l) -> In u (skipn k l) -> key u <= key t.
Proof.
  induction l as [|x l IH]; intros k Hs.
  - rewrite firstn_nil, skipn_nil. split; [ constructor | intros t u [] ].
  - destruct k as [|k]; [ split; [ constructor | intros t u [] ] | ].
    inversion Hs as [|? ? Hsl Hall]; subst.
    destruct (IH k Hsl) as [Hfirst Hcross].
    simpl. split.
    + constructor; [ exact Hfirst | ].
      apply Forall_forall. intros y Hy.
      rewrite Forall_forall in Hall. apply Hall.
      rewrite <- (firstn_skipn k l). apply in_or_app. now left.
    + intros t u [<-|Ht] Hu; [ | now apply Hcross ].
      rewrite Forall_forall in Hall. apply Hall.
      rewrite <- (firstn_skipn k l). apply in_or_app. now right.
Qed.

(** X25. [getPopularTemplates] with a limit that is not negative returns
    public templates only, ordered by usage count, largest first, and as
    many as the limit allows; the public templates left out are used no
    more than any template returned.  Without a limit it returns at most
    10. *)
Theorem popular_templates_are_the_most_used :
  forall (templates : Templates.Store) (limit : Z),
    (0 <= limit)%Z ->
    exists others,
      Permutation (Templates.getPopularTemplates templates (Some limit) ++ others)
        (Templates.getPublicTemplates templates)
      /\ List.length (Templates.getPopularTemplates templates (Some limit))
         = Nat.min (Z.to_nat limit) (List.length (Templates.getPublicTemplates templates))
      /\ StronglySorted (fun a b => Templates.usageCount b <= Templates.usageCount a)
           (Templates.getPopularTemplates templates (Some limit))
      /\ (forall t u,
             In t (Templates.getPopularTemplates templates (Some limit)) ->
             In u others ->
             Templates.usageCount u <= Templates.usageCount t)
      /\ Templates.getPopularTemplates templates None
         = Templates.getPopularTemplates templates (Some 10%Z).
Proof.
  intros templates limit Hlimit.
  unfold Templates.getPopularTemplates, Templates.getPublicTemplates, Templates.slice0.
  assert (Hge : (limit <? 0)%Z = false) by (apply Z.ltb_ge; exact Hlimit).
  rewrite Hge.
  set (public := filter Templates.isPublic (Templates.values templates)).
  set (sorted := sort (fun a b => Templates.usageCount b - Templates.usageCount a) public).
  pose proof (sort_perm _ (fun a b => Templates.usageCount b - Templates.usageCount a) public)
    as Hperm.
  fold sorted in Hperm.
  destruct (sorted_prefix_dominates Templates.usageCount sorted (Z.to_nat limit)
              (sort_sorted _ Templates.usageCount public)) as [Hfirst Hcross].
  exists (skipn (Z.to_nat limit) sorted).
  split; [ now rewrite firstn_skipn | ].
  split; [ rewrite length_firstn; now rewrite (Permutation_length Hperm) | ].
  split; [ exact Hfirst | ].
  split; [ exact Hcross | reflexivity ].
Qed.

Lemma popular_templates_are_the_most_used_witness :
  map Templates.t_id (Templates.getPopularTemplates sampleTemplates (Some 1%Z))
  = ["landscape-natural"%string]
  /\ exists others,
       Permutation (Templates.getPopularTemplates sampleTemplates (Some 1%Z) ++ others)
         (Templates.getPublicTemplates sampleTemplates)
       /\ forall t u,
            In t (Templates.getPopularTemplates sampleTemplates (Some 1%Z)) ->
            In u others ->
            Templates.usageCount u <= Templates.usageCount t.
Proof.
  split; [ reflexivity | ].
  destruct (popular_templates_are_the_most_used sampleTemplates 1)
    as (others & Hperm & _ & _ & Hcross & _); [ lia | ].
  exists others. split; [ exact Hperm | exact Hcross ].
Defined.
